(** * WordUp service worker: caches, pacer, normalizer and lookup orchestration

    A shallow embedding of [src/background/service-worker.js].

    - JavaScript values are the inductive [JsVal]; a function that may throw
      returns a [Completion].
    - The built-in [Map] is an insertion-ordered association list ([JsMap]).
    - [chrome.storage.local] is a [gmap] from keys to stored items together
      with switches that make its calls reject.
    - Module-level singletons ([sessionCache], [rateLimiter], [errorLogs],
      [config]) are fields of one [World] record that every function threads.
    - The host's [setInterval] timers are part of the pacer state; time is a
      rational number of milliseconds.
    - An [async] function is split at its [await] of the network: the part
      that runs when it is called, and the part that runs when the fetch has
      turned out. *)

Set Warnings "-register-all".
From Stdlib Require Import QArith Qround Lqa DecimalString.
From stdpp Require Import base option list sorting gmap strings.

Open Scope Z_scope.
Open Scope string_scope.
Open Scope list_scope.
Open Scope stdpp_scope.

(** ** JavaScript values *)

(** Values that flow through the service worker: what [JSON.parse] yields,
    [undefined] for a missing property, and native [Error] instances. *)
Inductive JsVal : Type :=
  | VUndefined
  | VNull
  | VBool (b : bool)
  | VNum (q : Q)
  | VStr (s : string)
  | VArr (xs : list JsVal)
  | VObj (fields : list (string * JsVal))
  | VError (message stack : string).

(** Either a normal return or a thrown value. *)
Inductive Completion (A : Type) : Type :=
  | Return (a : A)
  | Throw (e : JsVal).
Arguments Return {A} a.
Arguments Throw {A} e.

#[global] Instance Completion_ret : MRet Completion := fun _ a => Return a.

#[global] Instance Completion_bind : MBind Completion := fun _ _ k c =>
  match c with
  | Return a => k a
  | Throw e => Throw e
  end.

(** ToBoolean: [undefined], [null], [false], [0] and [""] are falsy. *)
Definition truthy (v : JsVal) : bool :=
  match v with
  | VUndefined | VNull => false
  | VBool b => b
  | VNum q => negb (Qeq_bool q 0)
  | VStr s => negb (String.eqb s "")
  | VArr _ | VObj _ | VError _ _ => true
  end.

Definition nullish (v : JsVal) : bool :=
  match v with
  | VUndefined | VNull => true
  | _ => false
  end.

(** ** The built-in Map, keyed by strings *)

Module JsMap.

Definition t : Type := list (string * JsVal).

Definition empty : t := [].

Fixpoint has (k : string) (m : t) : bool :=
  match m with
  | [] => false
  | (k', _) :: m' => if String.eqb k' k then true else has k m'
  end.

(** [Map.prototype.get]: [undefined] for a missing key. *)
Fixpoint get (k : string) (m : t) : JsVal :=
  match m with
  | [] => VUndefined
  | (k', v) :: m' => if String.eqb k' k then v else get k m'
  end.

Fixpoint delete (k : string) (m : t) : t :=
  match m with
  | [] => []
  | (k', v) :: m' => if String.eqb k' k then m' else (k', v) :: delete k m'
  end.

(** [Map.prototype.set]: an existing key keeps its position and only its
    value changes; a new key goes to the end. *)
Fixpoint set (k : string) (v : JsVal) (m : t) : t :=
  match m with
  | [] => [(k, v)]
  | (k', v') :: m' =>
      if String.eqb k' k then (k', v) :: m' else (k', v') :: set k v m'
  end.

Definition size (m : t) : Z := Z.of_nat (length m).

Definition keys (m : t) : list string := map fst m.

(** [m.keys().next().value]; [None] stands for [undefined]. *)
Definition first_key (m : t) : option string := head (keys m).

(** [m.delete(undefined)] finds nothing in a string-keyed map. *)
Definition delete_opt (ok : option string) (m : t) : t :=
  match ok with
  | Some k => delete k m
  | None => m
  end.

End JsMap.

(** ** LRU cache (in-memory) *)

Record LRUCache : Type := mkLRU {
  maxSize : Z;
  cache : JsMap.t
}.

Module LRU.

(** [new LRUCache(maxSize = 50)] *)
Definition new (maxSize : Z) : LRUCache := mkLRU maxSize JsMap.empty.
Definition default_maxSize : Z := 50.

(** [get(key)]: [null] on a miss; on a hit the entry is deleted and set
    again, which moves it to the end of the map. *)
Definition get (key : string) (c : LRUCache) : JsVal * LRUCache :=
  if negb (JsMap.has key (cache c)) then (VNull, c)
  else
    let value := JsMap.get key (cache c) in
    let m1 := JsMap.delete key (cache c) in
    let m2 := JsMap.set key value m1 in
    (value, mkLRU (maxSize c) m2).

(** [set(key, value)]: when the map is at or over [maxSize] the first key
    of the map is deleted, whatever [key] is; then [Map.set]. *)
Definition set (key : string) (value : JsVal) (c : LRUCache) : LRUCache :=
  let m1 :=
    if (JsMap.size (cache c) >=? maxSize c)%Z
    then JsMap.delete_opt (JsMap.first_key (cache c)) (cache c)
    else cache c in
  mkLRU (maxSize c) (JsMap.set key value m1).

Definition has (key : string) (c : LRUCache) : bool := JsMap.has key (cache c).

End LRU.

(** *** Operation sequences on the cache, with recency bookkeeping

    To state which entry is the least recently accessed without referring
    to the map's internal order, a run of operations carries a logical clock
    and, per key, the clock value of its last access.  An access is a [get]
    that hits or a [set].  The bookkeeping never influences the cache. *)

Inductive CacheOp : Type :=
  | OpGet (key : string)
  | OpSet (key : string) (value : JsVal).

Definition apply_op (op : CacheOp) (c : LRUCache) : LRUCache :=
  match op with
  | OpGet k => snd (LRU.get k c)
  | OpSet k v => LRU.set k v c
  end.

(** The key an operation accesses, if any. *)
Definition accessed (op : CacheOp) (c : LRUCache) : option string :=
  match op with
  | OpGet k => if LRU.has k c then Some k else None
  | OpSet k _ => Some k
  end.

Record Traced : Type := mkTraced {
  t_cache : LRUCache;
  t_clock : nat;
  t_stamp : gmap string nat
}.

Definition traced_init (N : Z) : Traced := mkTraced (LRU.new N) 0 ∅.

Definition traced_step (s : Traced) (op : CacheOp) : Traced :=
  mkTraced
    (apply_op op (t_cache s))
    (S (t_clock s))
    (match accessed op (t_cache s) with
     | Some k => <[k := t_clock s]> (t_stamp s)
     | None => t_stamp s
     end).

Definition traced_run (ops : list CacheOp) (s : Traced) : Traced :=
  fold_left traced_step ops s.

(** Every [set] of the sequence inserts a key that is not in the cache at
    that moment ([get]s are unrestricted). *)
Fixpoint only_inserts (ops : list CacheOp) (c : LRUCache) : bool :=
  match ops with
  | [] => true
  | op :: rest =>
      match op with
      | OpSet k _ => negb (LRU.has k c)
      | OpGet _ => true
      end && only_inserts rest (apply_op op c)
  end.

(** Keys present before [op] and gone after it, in map order. *)
Definition evicted (op : CacheOp) (c : LRUCache) : list string :=
  filter (fun k => LRU.has k (apply_op op c) = false) (JsMap.keys (cache c)).

Definition last_access (s : Traced) (k : string) : option nat := t_stamp s !! k.

(** [e] is in the cache and was last accessed strictly before every other
    cached key. *)
Definition least_recently_accessed (s : Traced) (e : string) : Prop :=
  e ∈ JsMap.keys (cache (t_cache s)) ∧
  ∃ te, last_access s e = Some te ∧
    ∀ k, k ∈ JsMap.keys (cache (t_cache s)) → k ≠ e →
      ∃ tk, last_access s k = Some tk ∧ (te < tk)%nat.

(** A [set] of a key that is absent while the cache holds [maxSize] entries
    or more. *)
Definition exceeds_capacity (key : string) (c : LRUCache) : Prop :=
  LRU.has key c = false ∧ (maxSize c <= JsMap.size (cache c))%Z.

(** The eviction property for capacity [N], for every cache state: after any
    sequence of [get]s and inserting [set]s on a fresh cache, a [set] that
    exceeds capacity evicts exactly one entry, the least recently accessed
    one. *)
Definition evicts_exactly_lru (N : Z) : Prop :=
  ∀ (ops : list CacheOp) (key : string) (value : JsVal),
    only_inserts ops (LRU.new N) = true →
    let s := traced_run ops (traced_init N) in
    exceeds_capacity key (t_cache s) →
    ∃ e, evicted (OpSet key value) (t_cache s) = [e] ∧
         least_recently_accessed s e.

(** Invariant of a traced run: the map order is the order of last access. *)
Definition stamp_lt (st : gmap string nat) (k1 k2 : string) : Prop :=
  ∃ t1 t2, st !! k1 = Some t1 ∧ st !! k2 = Some t2 ∧ (t1 < t2)%nat.

Definition stamped_before (st : gmap string nat) (clock : nat) (k : string) : Prop :=
  ∃ t, st !! k = Some t ∧ (t < clock)%nat.

Record lru_inv (N : Z) (s : Traced) : Prop := mk_lru_inv {
  inv_max : maxSize (t_cache s) = N;
  inv_nodup : NoDup (JsMap.keys (cache (t_cache s)));
  inv_sorted : StronglySorted (stamp_lt (t_stamp s)) (JsMap.keys (cache (t_cache s)));
  inv_bound : Forall (stamped_before (t_stamp s) (t_clock s)) (JsMap.keys (cache (t_cache s)));
  inv_size : (JsMap.size (cache (t_cache s)) <= Z.max N 1)%Z
}.

(** ** Property access on JavaScript values *)

Fixpoint obj_get (name : string) (fields : list (string * JsVal)) : JsVal :=
  match fields with
  | [] => VUndefined
  | (k, v) :: rest => if String.eqb k name then v else obj_get name rest
  end.

(** Overwrites an own property in place, as a later entry of an object
    literal does for a key copied by a spread. *)
Fixpoint obj_set (name : string) (v : JsVal) (fields : list (string * JsVal))
  : list (string * JsVal) :=
  match fields with
  | [] => [(name, v)]
  | (k, v') :: rest =>
      if String.eqb k name then (k, v) :: rest else (k, v') :: obj_set name v rest
  end.

(** The [TypeError] the engine throws; the message text is the engine's and
    the stack is left empty. *)
Definition TypeError (message : string) : JsVal := VError message "".

(** [new Error(message)] *)
Definition new_Error (message : string) : JsVal := VError message "".

(** [v.name]: throws on [undefined] and [null]; only the properties the
    service worker reads are modelled on arrays, strings and errors. *)
Definition get_prop (v : JsVal) (name : string) : Completion JsVal :=
  match v with
  | VUndefined | VNull =>
      Throw (TypeError ("Cannot read properties of null or undefined (reading '" ++ name ++ "')"))
  | VObj fields => Return (obj_get name fields)
  | VError message stack =>
      if String.eqb name "message" then Return (VStr message)
      else if String.eqb name "stack" then Return (VStr stack)
      else Return VUndefined
  | _ => Return VUndefined
  end.

(** [v[0]] *)
Definition get_first (v : JsVal) : Completion JsVal :=
  match v with
  | VUndefined | VNull =>
      Throw (TypeError "Cannot read properties of null or undefined (reading '0')")
  | VArr xs => Return (default VUndefined (head xs))
  | VObj fields => Return (obj_get "0" fields)
  | VStr (String ch _) => Return (VStr (String ch ""))
  | _ => Return VUndefined
  end.

(** [v?.name] and [v?.[0]] *)
Definition opt_prop (v : JsVal) (name : string) : Completion JsVal :=
  if nullish v then Return VUndefined else get_prop v name.

Definition opt_first (v : JsVal) : Completion JsVal :=
  if nullish v then Return VUndefined else get_first v.

(** SameValueZero, the equality of [Set]: primitives by value; two objects
    or arrays of a parsed JSON document are never the same reference. *)
Definition sameValueZero (x y : JsVal) : bool :=
  match x, y with
  | VUndefined, VUndefined => true
  | VNull, VNull => true
  | VBool a, VBool b => Bool.eqb a b
  | VNum a, VNum b => Qeq_bool a b
  | VStr a, VStr b => String.eqb a b
  | _, _ => false
  end.

(** [Set.prototype.add]; the list is the set's iteration order. *)
Definition set_add (x : JsVal) (s : list JsVal) : list JsVal :=
  if existsb (sameValueZero x) s then s else s ++ [x].

(** Built-in string functions whose full definition lies outside the
    repository; the development is parametric in them. *)
Record JsBuiltins : Type := mkBuiltins {
  toLowerCase : string -> string;      (* String.prototype.toLowerCase *)
  trim : string -> string;             (* String.prototype.trim *)
  split_head : string -> string -> string; (* s.split(sep)[0] *)
  ToString : JsVal -> string           (* template-literal conversion *)
}.

(** ** Error & status logging *)

(** A log record; [timestamp] is the epoch value of [new Date()] (the code
    stores its ISO-8601 rendering). *)
Record ErrorRecord : Type := mkErrorRecord {
  timestamp : Z;
  source : string;
  details : JsVal
}.

Definition maxLogSize : nat := 100.

(** The [processedDetails] of [logError]: an [Error] under [details.error]
    is replaced by a plain object with its message and stack. *)
Definition processedDetails (details : JsVal) : JsVal :=
  match details with
  | VObj fields =>
      match obj_get "error" fields with
      | VError message stack =>
          VObj (obj_set "error"
                  (VObj [("message", VStr message); ("stack", VStr stack)])
                  fields)
      | _ => details
      end
  | _ => details
  end.

(** [logError(source, details)]; the newest record is first. *)
Definition logError (now : Z) (source : string) (details : JsVal)
    (errorLogs : list ErrorRecord) : list ErrorRecord :=
  let errorRecord := mkErrorRecord now source (processedDetails details) in
  let logs := errorRecord :: errorLogs in
  if (maxLogSize <? length logs)%nat then removelast logs else logs.

(** ** Persistent cache (chrome.storage.local) *)

(** What [persistentCache.set] stores under a key. *)
Record Item : Type := mkItem {
  value : JsVal;
  expires : Z
}.

(** [chrome.storage.local]: the stored items, and for each call whether it
    currently rejects and with what. *)
Record ChromeStorage : Type := mkStorage {
  items : gmap string Item;
  get_rejects : option JsVal;
  set_rejects : option JsVal;
  remove_rejects : option JsVal
}.

Definition storage_get (key : string) (st : ChromeStorage) : Completion (option Item) :=
  match get_rejects st with
  | Some e => Throw e
  | None => Return (items st !! key)
  end.

Definition storage_set (key : string) (it : Item) (st : ChromeStorage)
  : Completion ChromeStorage :=
  match set_rejects st with
  | Some e => Throw e
  | None => Return (mkStorage (<[key := it]> (items st))
                      (get_rejects st) (set_rejects st) (remove_rejects st))
  end.

Definition storage_remove (key : string) (st : ChromeStorage)
  : Completion ChromeStorage :=
  match remove_rejects st with
  | Some e => Throw e
  | None => Return (mkStorage (delete key (items st))
                      (get_rejects st) (set_rejects st) (remove_rejects st))
  end.

(** [persistentCache.get(key)] at clock reading [now]; returns the value,
    the storage and the error log. *)
Definition persistentCache_get (key : string) (now : Z)
    (st : ChromeStorage) (errorLogs : list ErrorRecord)
  : JsVal * ChromeStorage * list ErrorRecord :=
  let body : Completion (JsVal * ChromeStorage) :=
    result ← storage_get key st;
    match result with
    | None => Return (VNull, st)
    | Some item =>
        if (now >? expires item)%Z then
          st' ← storage_remove key st;
          Return (VNull, st')
        else Return (value item, st)
    end in
  match body with
  | Return (v, st') => (v, st', errorLogs)
  | Throw error =>
      (VNull, st, logError now "persistentCache.get" (VObj [("error", error)]) errorLogs)
  end.

(** [persistentCache.set(key, value)] with [config.cacheTTL]. *)
Definition persistentCache_set (cacheTTL : Z) (key : string) (v : JsVal) (now : Z)
    (st : ChromeStorage) (errorLogs : list ErrorRecord)
  : ChromeStorage * list ErrorRecord :=
  let expires := (now + cacheTTL)%Z in
  match storage_set key (mkItem v expires) st with
  | Return st' => (st', errorLogs)
  | Throw error =>
      (st, logError now "persistentCache.set" (VObj [("error", error)]) errorLogs)
  end.

(** ** Rate limiter *)

(** [Date.now()] at real time [t] (milliseconds). *)
Definition Date_now (t : Q) : Z := Qfloor t.

(** The [rateLimiter] object; a queued request is a closure of type [A].
    The rate is a positive whole number (5 in the source). *)
Record RateLimiter (A : Type) : Type := mkRateLimiter {
  queue : list A;
  isProcessing : bool;
  requestsPerSecond : positive
}.
Arguments mkRateLimiter {A} _ _ _.
Arguments queue {A} _.
Arguments isProcessing {A} _.
Arguments requestsPerSecond {A} _.

(** A registered [setInterval] timer: when its first callback is due, and
    the delay it was set with. *)
Record Timer : Type := mkTimer {
  due : Q;
  period : Q
}.

(** The delay of a timer set with the argument [timeout]: the host takes a
    whole number of milliseconds, dropping the fraction, and no less than
    zero (the argument is a Web IDL [long]). *)
Definition timer_delay (timeout : Q) : Q := inject_Z (Z.max 0 (Qfloor timeout)).

(** The rate limiter together with the host's table of interval timers. *)
Record Pacer (A : Type) : Type := mkPacer {
  limiter : RateLimiter A;
  intervals : gmap nat Timer;
  next_timer_id : nat
}.
Arguments mkPacer {A} _ _ _.
Arguments limiter {A} _.
Arguments intervals {A} _.
Arguments next_timer_id {A} _.

Module rateLimiter.

(** [1000 / this.requestsPerSecond] as a real number.  The code computes
    the nearest double; the two have the same whole part (the quotient is
    whole, and then exact, or at least [1 / rps] away from a whole number),
    and the whole part is all that [setInterval] takes from it. *)
Definition interval (rps : positive) : Q := 1000 / inject_Z (Z.pos rps).

Definition default_requestsPerSecond : positive := 5%positive.

Definition new {A} (rps : positive) : Pacer A :=
  mkPacer (mkRateLimiter [] false rps) ∅ 0.

(** [setInterval(callback, timeout)] at time [now]: the first call of the
    callback is due one delay later. *)
Definition setInterval {A} (now : Q) (timeout : Q) (p : Pacer A) : Pacer A :=
  mkPacer (limiter p)
    (<[next_timer_id p := mkTimer (now + timer_delay timeout) (timer_delay timeout)]>
       (intervals p))
    (S (next_timer_id p)).

Definition clearInterval {A} (timerId : nat) (p : Pacer A) : Pacer A :=
  mkPacer (limiter p) (delete timerId (intervals p)) (next_timer_id p).

(** [processQueue()] called at time [now]. *)
Definition processQueue {A} (now : Q) (p : Pacer A) : Pacer A :=
  let rl := limiter p in
  if isProcessing rl || bool_decide (length (queue rl) = 0%nat) then p
  else
    let p1 := mkPacer (mkRateLimiter (queue rl) true (requestsPerSecond rl))
                (intervals p) (next_timer_id p) in
    setInterval now (interval (requestsPerSecond rl)) p1.

(** [add(request)] called at time [now]. *)
Definition add {A} (now : Q) (request : A) (p : Pacer A) : Pacer A :=
  let rl := limiter p in
  let p1 := mkPacer (mkRateLimiter (queue rl ++ [request]) (isProcessing rl)
                       (requestsPerSecond rl))
              (intervals p) (next_timer_id p) in
  processQueue now p1.

(** The callback given to [setInterval] by [processQueue], for the timer
    [timerId]: returns the request it shifts off the queue and calls, if
    any. *)
Definition onInterval {A} (timerId : nat) (p : Pacer A) : option A * Pacer A :=
  let rl := limiter p in
  match queue rl with
  | request :: rest =>
      (Some request,
       mkPacer (mkRateLimiter rest (isProcessing rl) (requestsPerSecond rl))
         (intervals p) (next_timer_id p))
  | [] =>
      let p1 := clearInterval timerId p in
      (None,
       mkPacer (mkRateLimiter (queue rl) false (requestsPerSecond rl))
         (intervals p1) (next_timer_id p1))
  end.

End rateLimiter.

(** *** The pacer in time

    A run is a sequence of timestamped events; time never goes back.  The
    host runs the callback of a registered interval timer no earlier than
    one delay after the timer was set.  When it runs the later callbacks is
    the host's affair (timers are not guaranteed to run on schedule), so a
    run may hold a callback at any later time.  Three ghost fields record
    what happened: every request in enqueue order, every call of a request
    with its start time, and the requests that were called and whose
    asynchronous body has not finished. *)

Inductive PacerEvent (A : Type) : Type :=
  | EvAdd (t : Q) (request : A)      (* [rateLimiter.add(request)] *)
  | EvTimer (t : Q) (timerId : nat)  (* the host runs the interval callback *)
  | EvSettle (t : Q) (request : A)   (* the body of a called request finishes *)
  | EvIdle (t : Q).                  (* time passes *)
Arguments EvAdd {A} t request.
Arguments EvTimer {A} t timerId.
Arguments EvSettle {A} t request.
Arguments EvIdle {A} t.

Record PacerSys (A : Type) : Type := mkPacerSys {
  pacer : Pacer A;
  now : Q;
  enqueued : list A;
  started : list (Q * A);
  inflight : list A
}.
Arguments mkPacerSys {A} _ _ _ _ _.
Arguments pacer {A} _.
Arguments now {A} _.
Arguments enqueued {A} _.
Arguments started {A} _.
Arguments inflight {A} _.

Definition event_time {A} (e : PacerEvent A) : Q :=
  match e with
  | EvAdd t _ | EvTimer t _ | EvSettle t _ | EvIdle t => t
  end.

Fixpoint remove_first {A} `{EqDecision A} (a : A) (l : list A) : list A :=
  match l with
  | [] => []
  | x :: rest => if decide (x = a) then rest else x :: remove_first a rest
  end.

Definition pacer_init {A} (rps : positive) : PacerSys A :=
  mkPacerSys (rateLimiter.new rps) 0 [] [] [].

(** One event; [None] when the event cannot happen in this state. *)
Definition pacer_step {A} `{EqDecision A} (s : PacerSys A) (e : PacerEvent A)
  : option (PacerSys A) :=
  if negb (Qle_bool (now s) (event_time e)) then None else
  match e with
  | EvAdd t request =>
      Some (mkPacerSys (rateLimiter.add t request (pacer s)) t
              (enqueued s ++ [request]) (started s) (inflight s))
  | EvTimer t timerId =>
      match intervals (pacer s) !! timerId with
      | Some tm =>
          if Qle_bool (due tm) t then
            let '(called, p1) := rateLimiter.onInterval timerId (pacer s) in
            match called with
            | Some request =>
                Some (mkPacerSys p1 t (enqueued s)
                        (started s ++ [(t, request)]) (inflight s ++ [request]))
            | None => Some (mkPacerSys p1 t (enqueued s) (started s) (inflight s))
            end
          else None
      | None => None
      end
  | EvSettle t request =>
      if bool_decide (request ∈ inflight s) then
        Some (mkPacerSys (pacer s) t (enqueued s) (started s)
                (remove_first request (inflight s)))
      else None
  | EvIdle t =>
      Some (mkPacerSys (pacer s) t (enqueued s) (started s) (inflight s))
  end.

Fixpoint pacer_run {A} `{EqDecision A} (evs : list (PacerEvent A)) (s : PacerSys A)
  : option (PacerSys A) :=
  match evs with
  | [] => Some s
  | e :: rest =>
      match pacer_step s e with
      | Some s' => pacer_run rest s'
      | None => None
      end
  end.

(** Consecutive entries of a list of start times are at least [gap] apart. *)
Definition spaced (gap : Q) (times : list Q) : Prop :=
  ∀ (i : nat) (t1 t2 : Q),
    times !! i = Some t1 → times !! S i = Some t2 → (t1 + gap <= t2)%Q.

(** The times at which the host ran an interval callback in a run. *)
Definition tick_times {A} (evs : list (PacerEvent A)) : list Q :=
  omap (fun e => match e with
                 | EvTimer t _ => Some t
                 | _ => None
                 end) evs.

(** The whole-millisecond delay of the timer that [processQueue] sets at
    rate [rps]. *)
Definition pacer_delay (rps : positive) : Q := inject_Z (1000 / Z.pos rps).

(** Invariant of a pacer run at rate [rps]: the queue is what remains of the
    enqueued requests after the started ones; no start lies in the future;
    and the drain loop is either off with no timer and an empty queue, or on
    with exactly one timer, set with the whole-millisecond delay. *)
Record pacer_inv {A} (rps : positive) (s : PacerSys A) : Prop := mk_pacer_inv {
  pinv_rate : requestsPerSecond (limiter (pacer s)) = rps;
  pinv_fifo : map snd (started s) ++ queue (limiter (pacer s)) = enqueued s;
  pinv_past : Forall (fun t0 => (t0 <= now s)%Q) (map fst (started s));
  pinv_timer :
    if isProcessing (limiter (pacer s)) then
      ∃ timerId tm, intervals (pacer s) = {[timerId := tm]} ∧
        period tm = pacer_delay rps
    else intervals (pacer s) = ∅ ∧ queue (limiter (pacer s)) = []
}.

(** No request can start before [T0]: either that time has come, or every
    timer is due no earlier; and a timer armed from now on is due no
    earlier either. *)
Definition not_before {A} (rps : positive) (T0 : Q) (s : PacerSys A) : Prop :=
  (T0 <= now s + pacer_delay rps)%Q ∧
  ((T0 <= now s)%Q ∨
   ∀ timerId tm, intervals (pacer s) !! timerId = Some tm → (T0 <= due tm)%Q).

(** The claim that the starts of consecutive requests are at least
    [1000 / rps] milliseconds apart in every run. *)
Definition starts_spaced_by_rate : Prop :=
  ∀ (rps : positive) (evs : list (PacerEvent nat)) (s : PacerSys nat),
    pacer_run evs (pacer_init rps) = Some s →
    spaced (1000 / inject_Z (Z.pos rps)) (map fst (started s)).

(** ** Configuration and the world *)

Record Config : Type := mkConfig {
  dictionary : string;     (* config.apiBaseUrls.dictionary *)
  toneRewrite : string;    (* config.apiBaseUrls.toneRewrite *)
  gemini : JsVal;          (* config.apiKeys.gemini *)
  cacheTTL : Z             (* config.cacheTTL *)
}.

Definition default_config : Config :=
  mkConfig
    "https://api.dictionaryapi.dev/api/v2/entries/en/"
    "https://generativelanguage.googleapis.com/v1beta/models/gemini-2.5-flash:generateContent"
    VNull
    (7 * 24 * 60 * 60 * 1000).

(** The closure [lookupMeaning] hands to the rate limiter: it captures the
    looked-up text, the cache key and the [resolve] of its promise. *)
Record Request : Type := mkRequest {
  req_promise : nat;
  req_text : string;
  req_cacheKey : string
}.

#[global] Instance Request_eq_dec : EqDecision Request.
Proof. solve_decision. Defined.

(** A call of the [fetch] primitive, with the time it was made. *)
Record FetchCall : Type := mkFetchCall {
  fetch_time : Q;
  fetch_url : string;
  fetch_method : string;
  fetch_body : JsVal
}.

(** How a [fetch] turns out: the promise rejects, or a response arrives
    with its [ok] flag, its status and the outcome of [response.json()]. *)
Inductive FetchOutcome : Type :=
  | FetchRejects (e : JsVal)
  | FetchResponds (ok : bool) (status : Z) (json : Completion JsVal).

(** The module-level state of the service worker and its environment. *)
Record World : Type := mkWorld {
  config : Config;
  sessionCache : LRUCache;
  storage : ChromeStorage;
  sys : PacerSys Request;
  errorLogs : list ErrorRecord;
  fetches : list FetchCall;
  next_promise : nat;
  settled : list (nat * JsVal)
}.

Definition world_init : World :=
  mkWorld default_config (LRU.new LRU.default_maxSize)
    (mkStorage ∅ None None None)
    (pacer_init rateLimiter.default_requestsPerSecond) [] [] 0 [].

Definition clock (w : World) : Z := Date_now (now (sys w)).

(** What an [async] call hands back: a promise already resolved with a
    value, or one that is still pending. *)
Inductive Reply : Type :=
  | Resolved (result : JsVal)
  | Pending (promise : nat).

(** ** Response normalizer *)

(** [xs?.forEach(x => set.add(x))] for the value [xs] of a [synonyms] or
    [antonyms] property: skipped when nullish, a [TypeError] when it is
    anything but an array. *)
Definition add_all (xs : JsVal) (set : list JsVal) : Completion (list JsVal) :=
  match xs with
  | VUndefined | VNull => Return set
  | VArr elems => Return (fold_left (fun acc x => set_add x acc) elems set)
  | _ => Throw (TypeError "forEach is not a function")
  end.

(** The body of the outer [forEach] for one meaning group. *)
Definition collect_group (acc : list JsVal * list JsVal) (m : JsVal)
  : Completion (list JsVal * list JsVal) :=
  syn ← get_prop m "synonyms";
  allSynonyms ← add_all syn (fst acc);
  ant ← get_prop m "antonyms";
  allAntonyms ← add_all ant (snd acc);
  Return (allSynonyms, allAntonyms).

Fixpoint collect_groups (groups : list JsVal) (acc : list JsVal * list JsVal)
  : Completion (list JsVal * list JsVal) :=
  match groups with
  | [] => Return acc
  | m :: rest => acc' ← collect_group acc m; collect_groups rest acc'
  end.

(** [firstResult.meanings?.forEach(...)] *)
Definition collect_meanings (meanings : JsVal) : Completion (list JsVal * list JsVal) :=
  match meanings with
  | VUndefined | VNull => Return ([], [])
  | VArr groups => collect_groups groups ([], [])
  | _ => Throw (TypeError "forEach is not a function")
  end.

(** [ps.find(p => p.text)] on the elements of an array. *)
Fixpoint find_text (ps : list JsVal) : Completion JsVal :=
  match ps with
  | [] => Return VUndefined
  | p :: rest =>
      t ← get_prop p "text";
      if truthy t then Return p else find_text rest
  end.

(** [firstResult.phonetic || firstResult.phonetics?.find(p => p.text)?.text] *)
Definition phonetic_of (firstResult : JsVal) : Completion JsVal :=
  ph ← get_prop firstResult "phonetic";
  if truthy ph then Return ph
  else
    phs ← get_prop firstResult "phonetics";
    match phs with
    | VUndefined | VNull => Return VUndefined
    | VArr ps => p ← find_text ps; opt_prop p "text"
    | _ => Throw (TypeError "find is not a function")
    end.

(** [firstResult.meanings?.[0]?.definitions?.[0]?.definition] *)
Definition first_definition (firstResult : JsVal) : Completion JsVal :=
  meanings ← get_prop firstResult "meanings";
  m0 ← opt_first meanings;
  defs ← opt_prop m0 "definitions";
  d0 ← opt_first defs;
  opt_prop d0 "definition".

(** [api.sanitizeDictionaryResponse(data)]; [VNull] is the "no definition"
    result. *)
Definition sanitizeDictionaryResponse (data : JsVal) : Completion JsVal :=
  match data with
  | VArr (firstResult :: _) =>
      meaning ← first_definition firstResult;
      if negb (truthy meaning) then Return VNull
      else
        meanings ← get_prop firstResult "meanings";
        sets ← collect_meanings meanings;
        word ← get_prop firstResult "word";
        phonetic ← phonetic_of firstResult;
        Return (VObj [("word", word);
                      ("phonetic", phonetic);
                      ("meaning", meaning);
                      ("synonyms", VArr (fst sets));
                      ("antonyms", VArr (snd sets))])
  | _ => Return VNull
  end.

(** *** The shape of a dictionary response

    What the normalizer relies on beyond the first definition: the first
    result is an object, its [meanings] is an array of objects whose
    [synonyms] and [antonyms] are arrays when present, and its [phonetics],
    when present, is an array without [null] entries. *)






Definition is_str (s : string) (v : JsVal) : bool :=
  match v with
  | VStr s' => String.eqb s' s
  | _ => false
  end.

(** How many times the string [s] occurs in a list of values. *)
Fixpoint count_str (s : string) (l : list JsVal) : nat :=
  match l with
  | [] => 0
  | v :: rest => (if is_str s v then 1 else 0) + count_str s rest
  end.

(** The array under [name] in a normalized record. *)
Definition record_list (name : string) (record : JsVal) : list JsVal :=
  match record with
  | VObj fields =>
      match obj_get name fields with
      | VArr elems => elems
      | _ => []
      end
  | _ => []
  end.

(** ** API handlers *)

Section Handlers.

Variable B : JsBuiltins.

(** Ghost bookkeeping of [rateLimiter.add(request)]: the call itself is
    [rateLimiter.add] at the current time. *)
Definition sys_add (request : Request) (s : PacerSys Request) : PacerSys Request :=
  mkPacerSys (rateLimiter.add (now s) request (pacer s)) (now s)
    (enqueued s ++ [request]) (started s) (inflight s).

Definition session_result (data : JsVal) : JsVal :=
  VObj [("success", VBool true); ("data", data); ("source", VStr "session")].

Definition persistent_result (data : JsVal) : JsVal :=
  VObj [("success", VBool true); ("data", data); ("source", VStr "persistent")].

Definition api_result (data : JsVal) : JsVal :=
  VObj [("success", VBool true); ("type", VStr "definition"); ("data", data);
        ("source", VStr "api")].

Definition failure_result (error : JsVal) : JsVal :=
  VObj [("success", VBool false); ("error", error)].

Definition cacheKey_of (text : string) : string :=
  "meaning_" ++ toLowerCase B text.

(** [api.lookupMeaning(text)] up to the point where it returns or hands its
    request to the rate limiter.  The suspension at
    [await persistentCache.get] is not a separate step: the storage is read
    in the state the call finds. *)
Definition lookupMeaning (text : string) (w : World) : Reply * World :=
  let cacheKey := cacheKey_of text in
  (* 1. Check session cache *)
  let '(data, session1) := LRU.get cacheKey (sessionCache w) in
  if truthy data then
    (Resolved (session_result data),
     mkWorld (config w) session1 (storage w) (sys w) (errorLogs w)
       (fetches w) (next_promise w) (settled w))
  else
    (* 2. Check persistent cache *)
    let '(data, storage1, logs1) :=
      persistentCache_get cacheKey (clock w) (storage w) (errorLogs w) in
    if truthy data then
      (Resolved (persistent_result data),
       mkWorld (config w) (LRU.set cacheKey data session1) storage1 (sys w) logs1
         (fetches w) (next_promise w) (settled w))
    else
      (* 3. Fetch from API *)
      let request := mkRequest (next_promise w) text cacheKey in
      (Pending (next_promise w),
       mkWorld (config w) session1 storage1 (sys_add request (sys w)) logs1
         (fetches w) (S (next_promise w)) (settled w)).

(** The queued closure, called by the interval callback: it runs up to
    [await fetch(...)]. *)
Definition startRequest (request : Request) (w : World) : World :=
  let call := mkFetchCall (now (sys w))
                (dictionary (config w) ++ req_text request) "GET" VUndefined in
  mkWorld (config w) (sessionCache w) (storage w) (sys w) (errorLogs w)
    (fetches w ++ [call]) (next_promise w) (settled w).

(** The [try] block of the closure once the fetch has turned out. *)
Definition primary_attempt (outcome : FetchOutcome) : Completion JsVal :=
  match outcome with
  | FetchRejects e => Throw e
  | FetchResponds ok status json =>
      if negb ok then
        Throw (new_Error ("HTTP error! status: " ++ ToString B (VNum (inject_Z status)))%string)
      else
        rawData ← json;
        sanitizeDictionaryResponse rawData
  end.

Definition resolve (promise : nat) (result : JsVal) (w : World) : World :=
  mkWorld (config w) (sessionCache w) (storage w) (sys w) (errorLogs w)
    (fetches w) (next_promise w) (settled w ++ [(promise, result)]).

(** The rest of the closure, run when the fetch has turned out.  When the
    [catch] handler itself throws (reading [message] of a thrown [null]),
    the closure's promise rejects and [resolve] is never called. *)
Definition finishRequest (request : Request) (outcome : FetchOutcome) (w : World)
  : World :=
  let text := req_text request in
  let cacheKey := req_cacheKey request in
  let attempt : Completion (JsVal * list ErrorRecord) :=
    match primary_attempt outcome with
    | Return responseData => Return (responseData, errorLogs w)
    | Throw e =>
        message ← get_prop e "message";
        Return (VNull,
                logError (clock w) "api.lookupMeaning (Primary)"
                  (VObj [("text", VStr text); ("error", message)]) (errorLogs w))
    end in
  match attempt with
  | Throw _ => w
  | Return (responseData, logs1) =>
      if truthy responseData then
        let session1 := LRU.set cacheKey responseData (sessionCache w) in
        let '(storage1, logs2) :=
          persistentCache_set (cacheTTL (config w)) cacheKey responseData
            (clock w) (storage w) logs1 in
        resolve (req_promise request) (api_result responseData)
          (mkWorld (config w) session1 storage1 (sys w) logs2
             (fetches w) (next_promise w) (settled w))
      else
        resolve (req_promise request)
          (failure_result (VStr "Failed to fetch definition."))
          (mkWorld (config w) (sessionCache w) (storage w) (sys w) logs1
             (fetches w) (next_promise w) (settled w))
  end.

(** *** rewriteTone *)

Definition rewrite_prompt (text tone : string) : string :=
  "Rewrite the following text in a " ++ tone ++
  " tone. Provide ONLY the rewritten text, with no additional commentary, introductory phrases, or explanations. Do not include quotation marks around the rewritten text. Original text: " ++
  String (Ascii.ascii_of_nat 34) text ++ String (Ascii.ascii_of_nat 34) "".

(** [api.rewriteTone(text, tone)] up to its first [await]: without a key it
    returns at once, otherwise it calls [fetch] and waits. *)
Definition rewriteTone (text tone : string) (w : World) : Reply * World :=
  if negb (truthy (gemini (config w))) then
    let errorMessage := VStr "Gemini API key is not configured." in
    (Resolved (failure_result errorMessage),
     mkWorld (config w) (sessionCache w) (storage w) (sys w)
       (logError (clock w) "api.rewriteTone" (VObj [("error", errorMessage)])
          (errorLogs w))
       (fetches w) (next_promise w) (settled w))
  else
    let url := (toneRewrite (config w) ++ "?key=" ++ ToString B (gemini (config w)))%string in
    let prompt := rewrite_prompt text tone in
    let body :=
      VObj [("contents",
             VArr [VObj [("parts", VArr [VObj [("text", VStr prompt)]])]])] in
    (Pending (next_promise w),
     mkWorld (config w) (sessionCache w) (storage w) (sys w) (errorLogs w)
       (fetches w ++ [mkFetchCall (now (sys w)) url "POST" body])
       (S (next_promise w)) (settled w)).

(** [s.method()] for a string method: a [TypeError] unless [s] is a string. *)
Definition call_string_method (f : string -> string) (v : JsVal) : Completion JsVal :=
  match v with
  | VStr s => Return (VStr (f s))
  | _ => Throw (TypeError "not a function")
  end.

(** The [errorDetails] of a response that is not ok. *)
Definition rewrite_error_details (status : Z) (json : Completion JsVal) : string :=
  let fallback := ("HTTP error! status: " ++ ToString B (VNum (inject_Z status)))%string in
  let inner : Completion string :=
    errorData ← json;
    err ← get_prop errorData "error";
    if truthy err then
      message ← get_prop err "message";
      if truthy message then
        match message with
        | VStr m => Return (split_head B " API key" m)
        | _ => Throw (TypeError "split is not a function")
        end
      else Return fallback
    else Return fallback in
  match inner with
  | Return s => s
  | Throw _ => fallback
  end.

(** The [try] block of [rewriteTone] after the fetch has turned out. *)
Definition rewrite_attempt (outcome : FetchOutcome) : Completion JsVal :=
  match outcome with
  | FetchRejects e => Throw e
  | FetchResponds ok status json =>
      if negb ok then Throw (new_Error (rewrite_error_details status json))
      else
        result ← json;
        candidates ← get_prop result "candidates";
        c0 ← opt_first candidates;
        content ← opt_prop c0 "content";
        parts ← opt_prop content "parts";
        p0 ← opt_first parts;
        rewrittenText ← opt_prop p0 "text";
        if negb (truthy rewrittenText) then
          feedback ← get_prop result "promptFeedback";
          blockReason ← opt_prop feedback "blockReason";
          if truthy blockReason then
            Throw (new_Error ("Content blocked by API: " ++ ToString B blockReason)%string)
          else Throw (new_Error "Invalid response structure from Gemini API.")
        else
          trimmed ← call_string_method (trim B) rewrittenText;
          Return (VObj [("success", VBool true); ("type", VStr "rewritten");
                        ("data", trimmed)])
  end.

(** The rest of [rewriteTone]; [None] when the [catch] handler throws. *)
Definition finishRewrite (text : string) (outcome : FetchOutcome) (w : World)
  : option (JsVal * World) :=
  match rewrite_attempt outcome with
  | Return result => Some (result, w)
  | Throw error =>
      match get_prop error "message" with
      | Return message =>
          Some (failure_result message,
                mkWorld (config w) (sessionCache w) (storage w) (sys w)
                  (logError (clock w) "api.rewriteTone"
                     (VObj [("text", VStr text); ("error", message)]) (errorLogs w))
                  (fetches w) (next_promise w) (settled w))
      | Throw _ => None
      end
  end.

(** ** The service worker in time *)

Inductive WorldEvent : Type :=
  | WLookup (t : Q) (text : string)   (* a 'lookup' message arrives *)
  | WTimer (t : Q) (timerId : nat)    (* the host runs the interval callback *)
  | WResponse (t : Q) (request : Request) (outcome : FetchOutcome)
                                      (* the fetch of a called request turns out *)
  | WIdle (t : Q).                    (* time passes *)

Definition with_sys (s : PacerSys Request) (w : World) : World :=
  mkWorld (config w) (sessionCache w) (storage w) s (errorLogs w)
    (fetches w) (next_promise w) (settled w).

Definition world_step (w : World) (e : WorldEvent) : option World :=
  match e with
  | WLookup t text =>
      s ← pacer_step (sys w) (EvIdle t);
      Some (snd (lookupMeaning text (with_sys s w)))
  | WTimer t timerId =>
      s ← pacer_step (sys w) (EvTimer t timerId);
      match fst (rateLimiter.onInterval timerId (pacer (sys w))) with
      | Some request => Some (startRequest request (with_sys s w))
      | None => Some (with_sys s w)
      end
  | WResponse t request outcome =>
      s ← pacer_step (sys w) (EvSettle t request);
      Some (finishRequest request outcome (with_sys s w))
  | WIdle t =>
      s ← pacer_step (sys w) (EvIdle t);
      Some (with_sys s w)
  end.

Fixpoint world_run (evs : list WorldEvent) (w : World) : option World :=
  match evs with
  | [] => Some w
  | e :: rest =>
      match world_step w e with
      | Some w' => world_run rest w'
      | None => None
      end
  end.

End Handlers.

(** Invariant of a run of the service worker: the pacer invariant, and one
    [fetch] per called request, made at the time of the call. *)
Definition world_inv (w : World) : Prop :=
  pacer_inv rateLimiter.default_requestsPerSecond (sys w) ∧
  map fetch_time (fetches w) = map fst (started (sys w)).

(** The claim that at most one request is ever in flight. *)
Definition single_in_flight (B : JsBuiltins) : Prop :=
  ∀ evs w, world_run B evs world_init = Some w →
    (length (inflight (sys w)) <= 1)%nat.

(** The claim that the fetch of a lookup that misses both caches never
    begins within 200 ms of the lookup. *)
Definition lookup_waits_one_interval (B : JsBuiltins) : Prop :=
  ∀ evs w text promise w1,
    world_run B evs world_init = Some w →
    lookupMeaning B text w = (Pending promise, w1) →
    ∀ evs' w2, world_run B evs' w1 = Some w2 →
      ∃ calls, fetches w2 = fetches w ++ calls ∧
               Forall (fun c => (now (sys w) + 200 <= fetch_time c)%Q) calls.

(** ** A sample instance of the built-ins

    Used to run the model on concrete inputs.  It is exact on ASCII text:
    lower-casing of A-Z, trimming of spaces, tabs and line breaks, the part
    of a string before a separator, and the rendering of strings, integers,
    booleans, [null] and [undefined]. *)

Definition ascii_toLowerCase (c : Ascii.ascii) : Ascii.ascii :=
  let n := Ascii.nat_of_ascii c in
  if ((65 <=? n) && (n <=? 90))%nat then Ascii.ascii_of_nat (n + 32) else c.

Fixpoint sample_toLowerCase (s : string) : string :=
  match s with
  | EmptyString => EmptyString
  | String c rest => String (ascii_toLowerCase c) (sample_toLowerCase rest)
  end.

Definition is_space (c : Ascii.ascii) : bool :=
  let n := Ascii.nat_of_ascii c in
  ((n =? 32) || (n =? 9) || (n =? 10) || (n =? 13))%nat.

Fixpoint trim_start (s : string) : string :=
  match s with
  | EmptyString => EmptyString
  | String c rest => if is_space c then trim_start rest else s
  end.

Fixpoint trim_end (s : string) : string :=
  match s with
  | EmptyString => EmptyString
  | String c rest =>
      match trim_end rest with
      | EmptyString => if is_space c then EmptyString else String c EmptyString
      | rest' => String c rest'
      end
  end.

Definition sample_trim (s : string) : string := trim_end (trim_start s).

Definition sample_split_head (sep s : string) : string :=
  match String.index 0 sep s with
  | Some i => String.substring 0 i s
  | None => s
  end.

Definition sample_ToString (v : JsVal) : string :=
  match v with
  | VUndefined => "undefined"
  | VNull => "null"
  | VBool true => "true"
  | VBool false => "false"
  | VNum q => DecimalString.NilZero.string_of_int (Z.to_int (Qfloor q))
  | VStr s => s
  | VArr _ => ""
  | VObj _ => "[object Object]"
  | VError message _ => "Error: " ++ message
  end.

Definition sample_builtins : JsBuiltins :=
  mkBuiltins sample_toLowerCase sample_trim sample_split_head sample_ToString.

(** ** Further definitions

    Definitions for the parts of the sources beyond the lookup path. *)

(** *** Arbitrary operation sequences on the LRU cache *)

Definition cache_run (ops : list CacheOp) (c : LRUCache) : LRUCache :=
  fold_left (fun c op => apply_op op c) ops c.

(** *** The world after a lookup that missed both caches *)

Definition miss_world (B : JsBuiltins) (text : string) (w : World) : World :=
  let key := cacheKey_of B text in
  let pc := persistentCache_get key (clock w) (storage w) (errorLogs w) in
  mkWorld (config w) (snd (LRU.get key (sessionCache w))) (snd (fst pc))
    (sys_add (mkRequest (next_promise w) text key) (sys w)) (snd pc)
    (fetches w) (S (next_promise w)) (settled w).

(** *** Status and the message router *)

(** What [getStatus()] returns. *)
Record Status : Type := mkStatus {
  status_errorLogs : list ErrorRecord;
  status_cacheSize : Z;
  status_rateLimiterQueue : nat
}.

Definition getStatus (w : World) : Status :=
  mkStatus (errorLogs w)
    (JsMap.size (cache (sessionCache w)))
    (length (queue (limiter (pacer (sys w))))).

(** The API call whose promise is chained to [sendResponse]. *)
Inductive ApiCall : Type :=
  | CallLookupMeaning (text : JsVal)
  | CallRewriteTone (text tone : JsVal).

Inductive Response : Type :=
  | RespStatus (s : Status)
  | RespValue (v : JsVal).

(** What the [onMessage] listener does with a message: it returns [false]
    without answering, it returns [true] and answers when the API call
    settles, or it answers at once and returns [false]. *)
Inductive Routed : Type :=
  | NotProcessed
  | AnswerLater (call : ApiCall)
  | Answered (response : Response).

(** [!sender.tab && !sender.url.startsWith(chrome.runtime.getURL(''))];
    [origin] is what [chrome.runtime.getURL('')] returns. *)
Definition untrusted (origin : string) (sender : JsVal) : Completion bool :=
  tab ← get_prop sender "tab";
  if truthy tab then Return false
  else
    url ← get_prop sender "url";
    match url with
    | VStr u => Return (negb (String.prefix origin u))
    | VUndefined | VNull =>
        Throw (TypeError "Cannot read properties of null or undefined (reading 'startsWith')")
    | _ => Throw (TypeError "startsWith is not a function")
    end.

Definition with_errorLogs (logs : list ErrorRecord) (w : World) : World :=
  mkWorld (config w) (sessionCache w) (storage w) (sys w) logs
    (fetches w) (next_promise w) (settled w).

(** [case] labels compare with [===]. *)
Definition is_type (name : string) (type : JsVal) : bool :=
  match type with
  | VStr s => String.eqb s name
  | _ => false
  end.

(** The listener registered with [chrome.runtime.onMessage]. *)
Definition onMessage (origin : string) (request sender : JsVal) (w : World)
  : Completion Routed * World :=
  match untrusted origin sender with
  | Throw e => (Throw e, w)
  | Return true =>
      (Return NotProcessed,
       with_errorLogs
         (logError (clock w) "onMessage.security"
            (VObj [("error", VStr "Untrusted message source"); ("sender", sender)])
            (errorLogs w)) w)
  | Return false =>
      match (type ← get_prop request "type";
             payload ← get_prop request "payload";
             Return (type, payload)) with
      | Throw e => (Throw e, w)
      | Return (type, payload) =>
          if is_type "lookup" type then
            match get_prop payload "text" with
            | Return text => (Return (AnswerLater (CallLookupMeaning text)), w)
            | Throw e => (Throw e, w)
            end
          else if is_type "rewriteTone" type then
            match (text ← get_prop payload "text";
                   tone ← get_prop payload "tone";
                   Return (text, tone)) with
            | Return (text, tone) =>
                (Return (AnswerLater (CallRewriteTone text tone)), w)
            | Throw e => (Throw e, w)
            end
          else if is_type "getStatus" type then
            (Return (Answered (RespStatus (getStatus w))), w)
          else if is_type "telemetry" type then
            (Return (Answered (RespValue (VObj [("success", VBool true)]))), w)
          else
            (Return (Answered (RespValue
               (VObj [("success", VBool false);
                      ("error", VStr "Unknown message type")]))),
             with_errorLogs
               (logError (clock w) "onMessage.router"
                  (VObj [("error", VStr "Unknown message type"); ("type", type)])
                  (errorLogs w)) w)
      end
  end.

(** Bounds that every handler keeps: the error log within [maxLogSize], the
    session cache without repeated keys and within its capacity. *)
Definition status_bounded (w : World) : Prop :=
  (length (errorLogs w) <= maxLogSize)%nat ∧
  NoDup (JsMap.keys (cache (sessionCache w))) ∧
  (JsMap.size (cache (sessionCache w)) <= Z.max (maxSize (sessionCache w)) 1)%Z.

(** *** The service worker with all its handlers

    The service worker as it starts, with the configuration and the store
    it finds. *)
Definition service_init (cfg : Config) (st : ChromeStorage) : World :=
  mkWorld cfg (LRU.new LRU.default_maxSize) st
    (pacer_init rateLimiter.default_requestsPerSecond) [] [] 0 [].

(** Besides the events of a lookup run: [api.rewriteTone] is called, the
    fetch of a rewrite turns out, and a message arrives at the [onMessage]
    listener.  The API call that the listener hands a message to is the
    next event of the run, at the same time. *)
Inductive ServiceEvent : Type :=
  | SWorld (e : WorldEvent)
  | SRewrite (t : Q) (text tone : string)
  | SRewriteOutcome (t : Q) (text : string) (outcome : FetchOutcome)
  | SMessage (t : Q) (origin : string) (request sender : JsVal).

Definition service_step (B : JsBuiltins) (w : World) (e : ServiceEvent)
  : option World :=
  match e with
  | SWorld e => world_step B w e
  | SRewrite t text tone =>
      s ← pacer_step (sys w) (EvIdle t);
      Some (snd (rewriteTone B text tone (with_sys s w)))
  | SRewriteOutcome t text outcome =>
      s ← pacer_step (sys w) (EvIdle t);
      match finishRewrite B text outcome (with_sys s w) with
      | Some (_, w1) => Some w1
      | None => Some (with_sys s w)
      end
  | SMessage t origin request sender =>
      s ← pacer_step (sys w) (EvIdle t);
      Some (snd (onMessage origin request sender (with_sys s w)))
  end.

Fixpoint service_run (B : JsBuiltins) (evs : list ServiceEvent) (w : World)
  : option World :=
  match evs with
  | [] => Some w
  | e :: rest =>
      match service_step B w e with
      | Some w' => service_run B rest w'
      | None => None
      end
  end.

(** *** Utility functions *)

Section Html.
Import Stdlib.Strings.Ascii.

(** The character replaced by [safeHtml] and its entity; any other
    character stands for itself. *)
Definition escape_char (c : Ascii.ascii) : string :=
  if Ascii.eqb c "&"%char then "&amp;"
  else if Ascii.eqb c "<"%char then "&lt;"
  else if Ascii.eqb c ">"%char then "&gt;"
  else if Ascii.eqb c (ascii_of_nat 34) then "&quot;"
  else if Ascii.eqb c "'"%char then "&#39;"
  else String c "".

(** [str.replace(re, fn)] with the global pattern that matches one of the
    five characters: they are ASCII, so the replacement acts the same on the
    code units of the string and on its UTF-8 bytes. *)
Fixpoint escape_html (s : string) : string :=
  match s with
  | EmptyString => EmptyString
  | String c rest => escape_char c ++ escape_html rest
  end.

(** [safeHtml(str)] *)
Definition safeHtml (str : JsVal) : string :=
  match str with
  | VStr s => escape_html s
  | _ => ""
  end.

(** The characters that start or delimit markup. *)
Definition markup_char (c : ascii) : bool :=
  Ascii.eqb c "<"%char || Ascii.eqb c ">"%char
  || Ascii.eqb c (ascii_of_nat 34) || Ascii.eqb c "'"%char.

Fixpoint string_forallb (p : ascii → bool) (s : string) : bool :=
  match s with
  | EmptyString => true
  | String c rest => p c && string_forallb p rest
  end.

End Html.

(** [formatSuggestions(apiResponse)] *)
Definition formatSuggestions (apiResponse : JsVal) : Completion JsVal :=
  match apiResponse with
  | VArr (firstResult :: _) =>
      meaning ← first_definition firstResult;
      if negb (truthy meaning) then Return VNull
      else
        word ← get_prop firstResult "word";
        phonetic ← phonetic_of firstResult;
        Return (VObj [("word", word);
                      ("phonetic", if truthy phonetic then phonetic else VStr "");
                      ("meaning", meaning)])
  | _ => Return VNull
  end.

(** [TtlCache]: the map is only read and written by key, so its order is
    not observable. *)
Record TtlCache : Type := mkTtlCache {
  ttl_cache : gmap string Item;
  defaultTtl : Z
}.

Module Ttl.

(** [new TtlCache(defaultTtl = 60 * 1000)] *)
Definition new (defaultTtl : option Z) : TtlCache :=
  mkTtlCache ∅ (default (60 * 1000) defaultTtl).

(** [set(key, value, ttl = this.defaultTtl)] at clock reading [now];
    [None] is an omitted [ttl]. *)
Definition set (key : string) (v : JsVal) (ttl : option Z) (now : Z) (c : TtlCache)
  : TtlCache :=
  let expires := (now + default (defaultTtl c) ttl)%Z in
  mkTtlCache (<[key := mkItem v expires]> (ttl_cache c)) (defaultTtl c).

(** [get(key)] at clock reading [now] *)
Definition get (key : string) (now : Z) (c : TtlCache) : JsVal * TtlCache :=
  match ttl_cache c !! key with
  | None => (VNull, c)
  | Some item =>
      if (now >? expires item)%Z
      then (VNull, mkTtlCache (delete key (ttl_cache c)) (defaultTtl c))
      else (value item, c)
  end.

(** [has(key)]: [this.get(key) !== null] *)
Definition has (key : string) (now : Z) (c : TtlCache) : bool * TtlCache :=
  let '(v, c') := get key now c in
  (match v with VNull => false | _ => true end, c').

Definition clear (c : TtlCache) : TtlCache := mkTtlCache ∅ (defaultTtl c).

End Ttl.

(** *** [setTimeout] and [clearTimeout]

    The host's table of pending timeouts.  An entry holds the time at which
    it is due and what the callback captured.  Timer ids are never used
    twice; a delay is a non-negative number of milliseconds. *)
Record Timeouts (A : Type) : Type := mkTimeouts {
  pending : gmap nat (Q * A);
  next_timeout_id : nat
}.
Arguments mkTimeouts {A} _ _.
Arguments pending {A} _.
Arguments next_timeout_id {A} _.

Definition no_timeouts {A} : Timeouts A := mkTimeouts ∅ 0.

(** [setTimeout(callback, delay)] at time [t] *)
Definition setTimeout {A} (t delay : Q) (captured : A) (h : Timeouts A)
  : nat * Timeouts A :=
  (next_timeout_id h,
   mkTimeouts (<[next_timeout_id h := ((t + delay)%Q, captured)]> (pending h))
     (S (next_timeout_id h))).

(** [clearTimeout(id)]; [None] is [undefined], an id that is not pending is
    ignored. *)
Definition clearTimeout {A} (id : option nat) (h : Timeouts A) : Timeouts A :=
  match id with
  | Some i => mkTimeouts (delete i (pending h)) (next_timeout_id h)
  | None => h
  end.

(** The host takes timeout [id] out of the table to run it at time [t], no
    earlier than it is due. *)
Definition take_timeout {A} (t : Q) (id : nat) (h : Timeouts A)
  : option (A * Timeouts A) :=
  match pending h !! id with
  | Some (due_at, captured) =>
      if Qle_bool due_at t
      then Some (captured, mkTimeouts (delete id (pending h)) (next_timeout_id h))
      else None
  | None => None
  end.

(** What happens to a function made by [debounce] or [throttle]: it is
    called, or the host runs one of its timeouts. *)
Inductive CallEvent (A : Type) : Type :=
  | EvCall (t : Q) (args : A)
  | EvTimeout (t : Q) (timerId : nat).
Arguments EvCall {A} t args.
Arguments EvTimeout {A} t timerId.

Definition call_time {A} (e : CallEvent A) : Q :=
  match e with
  | EvCall t _ | EvTimeout t _ => t
  end.

(** A run of timestamped events from a state that carries the clock; [None]
    when an event cannot happen. *)
Fixpoint events_run {S E : Type} (step : S → E → option S) (evs : list E) (s : S)
  : option S :=
  match evs with
  | [] => Some s
  | e :: rest =>
      match step s e with
      | Some s' => events_run step rest s'
      | None => None
      end
  end.


(** *** [debounce(fn, ms)]

    The closure's variable [timeoutId], the host's timeouts (each captured
    the arguments of the call that set it), and a log of the calls of [fn]
    with their times. *)
Record Debounced (A : Type) : Type := mkDebounced {
  timeoutId : option nat;
  debounce_timeouts : Timeouts A;
  debounce_calls : list (Q * A)
}.
Arguments mkDebounced {A} _ _ _.
Arguments timeoutId {A} _.
Arguments debounce_timeouts {A} _.
Arguments debounce_calls {A} _.

Module debounce.

Definition new {A} : Debounced A := mkDebounced None no_timeouts [].

(** The returned function, called with [args] at time [t]. *)
Definition call {A} (ms : Q) (t : Q) (args : A) (d : Debounced A) : Debounced A :=
  let h := clearTimeout (timeoutId d) (debounce_timeouts d) in
  let '(id, h') := setTimeout t ms args h in
  mkDebounced (Some id) h' (debounce_calls d).

(** The host runs timeout [id] at time [t]: [fn.apply(this, args)]. *)
Definition onTimeout {A} (t : Q) (id : nat) (d : Debounced A) : option (Debounced A) :=
  match take_timeout t id (debounce_timeouts d) with
  | Some (args, h) => Some (mkDebounced (timeoutId d) h (debounce_calls d ++ [(t, args)]))
  | None => None
  end.

End debounce.


(** *** [throttle(fn, ms)]

    The closure's variables [inThrottle] and [lastArgs], the host's
    timeouts (the callback captures nothing, it reads the variables), and a
    log of the calls of [fn] with their times.  [lastThis] only carries the
    receiver along and is left out. *)
Record Throttled (A : Type) : Type := mkThrottled {
  inThrottle : bool;
  lastArgs : option A;
  throttle_timeouts : Timeouts unit;
  throttle_calls : list (Q * A)
}.
Arguments mkThrottled {A} _ _ _ _.
Arguments inThrottle {A} _.
Arguments lastArgs {A} _.
Arguments throttle_timeouts {A} _.
Arguments throttle_calls {A} _.

Module throttle.

Definition new {A} : Throttled A := mkThrottled false None no_timeouts [].

(** [wrapper(...args)] at time [t]; [fn t args] is how the call of [fn]
    made at that time completes. *)
Definition wrapper {A} (fn : Q → A → Completion unit) (ms : Q) (t : Q) (args : A)
    (s : Throttled A) : Completion unit * Throttled A :=
  let s1 := mkThrottled (inThrottle s) (Some args) (throttle_timeouts s)
              (throttle_calls s) in
  if inThrottle s1 then (Return tt, s1)
  else
    let s2 := mkThrottled true (lastArgs s1) (throttle_timeouts s1)
                (throttle_calls s1 ++ [(t, args)]) in
    match fn t args with
    | Throw e => (Throw e, s2)
    | Return _ =>
        let '(_, h) := setTimeout t ms tt (throttle_timeouts s2) in
        (Return tt, mkThrottled (inThrottle s2) (lastArgs s2) h (throttle_calls s2))
    end.

(** The callback given to [setTimeout], run at time [t]. *)
Definition onTimeout {A} (fn : Q → A → Completion unit) (ms : Q) (t : Q)
    (s : Throttled A) : Completion unit * Throttled A :=
  let s1 := mkThrottled false (lastArgs s) (throttle_timeouts s) (throttle_calls s) in
  match lastArgs s1 with
  | Some args =>
      match wrapper fn ms t args s1 with
      | (Throw e, s2) => (Throw e, s2)
      | (Return _, s2) =>
          (Return tt,
           mkThrottled (inThrottle s2) None (throttle_timeouts s2) (throttle_calls s2))
      end
  | None => (Return tt, s1)
  end.

End throttle.

(** A value thrown by [fn] leaves the wrapper, or the timer callback, and
    is not seen again; the state stays as it was when it was thrown. *)
Definition throttle_step {A} (fn : Q → A → Completion unit) (ms : Q)
    (s : Q * Throttled A) (e : CallEvent A) : option (Q * Throttled A) :=
  if negb (Qle_bool (fst s) (call_time e)) then None else
  match e with
  | EvCall t args => Some (t, snd (throttle.wrapper fn ms t args (snd s)))
  | EvTimeout t id =>
      match take_timeout t id (throttle_timeouts (snd s)) with
      | Some (_, h) =>
          let s1 := mkThrottled (inThrottle (snd s)) (lastArgs (snd s)) h
                      (throttle_calls (snd s)) in
          Some (t, snd (throttle.onTimeout fn ms t s1))
      | None => None
      end
  end.


(** Invariant of a throttled function: the calls of [fn] are [ms] apart;
    while [inThrottle] is set at most one timeout is pending, due [ms] after
    the latest call of [fn]; while it is not set none is pending and that
    call is at least [ms] old. *)
Definition throttle_inv {A} (ms : Q) (s : Q * Throttled A) : Prop :=
  spaced ms (map fst (throttle_calls (snd s))) ∧
  match last (map fst (throttle_calls (snd s))) with
  | None =>
      inThrottle (snd s) = false ∧ pending (throttle_timeouts (snd s)) = ∅
  | Some tl =>
      (inThrottle (snd s) = true ∧
       (pending (throttle_timeouts (snd s)) = ∅ ∨
        ∃ id, pending (throttle_timeouts (snd s)) = {[ id := ((tl + ms)%Q, tt) ]}))
      ∨ (inThrottle (snd s) = false ∧ pending (throttle_timeouts (snd s)) = ∅ ∧
         (tl + ms <= fst s)%Q)
  end.

(** * Theorems *)

(** ** The map and the LRU cache *)

Section JsMapFacts.

Implicit Types (m : JsMap.t) (k : string) (v : JsVal).

Lemma JsMap_has_keys k m : JsMap.has k m = true ↔ k ∈ JsMap.keys m.
Proof.
  induction m as [|[k' v'] m IH]; simpl.
  - split; [discriminate | intros H; inversion H].
  - destruct (String.eqb_spec k' k) as [->|Hne].
    + split; [intros _; left | done].
    + rewrite IH. split; [intros H; by right|].
      intros H. inversion H; subst; [done | assumption].
Qed.

Lemma JsMap_has_false k m : JsMap.has k m = false ↔ k ∉ JsMap.keys m.
Proof.
  rewrite <- JsMap_has_keys. destruct (JsMap.has k m); split; try done.
Qed.

Lemma JsMap_set_fresh k v m :
  JsMap.has k m = false → JsMap.set k v m = m ++ [(k, v)].
Proof.
  induction m as [|[k' v'] m IH]; simpl; [done|].
  destruct (String.eqb k' k); [discriminate|].
  intros H. by rewrite IH.
Qed.

Lemma JsMap_split k m :
  JsMap.has k m = true →
  ∃ a b, m = a ++ (k, JsMap.get k m) :: b ∧ JsMap.has k a = false ∧
         JsMap.delete k m = a ++ b.
Proof.
  induction m as [|[k' v'] m IH]; simpl; [discriminate|].
  destruct (String.eqb_spec k' k) as [->|Hne].
  - intros _. by exists [], m.
  - intros H. destruct (IH H) as (a & b & Hm & Ha & Hd).
    exists ((k', v') :: a), b. simpl.
    rewrite <- Hm, Hd. destruct (String.eqb_spec k' k); [done|]. done.
Qed.

Lemma JsMap_has_app k a b :
  JsMap.has k (a ++ b) = JsMap.has k a || JsMap.has k b.
Proof.
  induction a as [|[k' v'] a IH]; simpl; [done|].
  by destruct (String.eqb k' k).
Qed.

Lemma JsMap_keys_app a b : JsMap.keys (a ++ b) = JsMap.keys a ++ JsMap.keys b.
Proof. apply map_app. Qed.

End JsMapFacts.

Section LRUFacts.

Implicit Types (m : JsMap.t) (k : string) (v : JsVal) (c : LRUCache) (s : Traced).

Lemma StronglySorted_weaken {A} (R R' : relation A) (l : list A) :
  (∀ x y, x ∈ l → y ∈ l → R x y → R' x y) →
  StronglySorted R l → StronglySorted R' l.
Proof.
  induction l as [|x l IH]; intros HR Hs; [constructor|].
  apply StronglySorted_cons in Hs as [Hx Hl].
  apply StronglySorted_cons. split.
  - rewrite Forall_forall in *. intros y Hy.
    apply HR; [left | by right | by apply Hx].
  - apply IH; [|done]. intros y z Hy Hz. apply HR; by right.
Qed.

Lemma filter_none {A} (P : A → Prop) `{!∀ x, Decision (P x)} (l : list A) :
  Forall (λ x, ¬ P x) l → filter P l = [].
Proof. induction 1; [done|]. by rewrite filter_cons_False. Qed.

Lemma stamp_lt_insert_ne (st : gmap string nat) k t x y :
  x ≠ k → y ≠ k → stamp_lt st x y → stamp_lt (<[k:=t]> st) x y.
Proof.
  intros Hx Hy (t1 & t2 & H1 & H2 & Hlt). exists t1, t2.
  by rewrite !lookup_insert_ne.
Qed.

Lemma stamped_before_insert_ne (st : gmap string nat) k t n x :
  x ≠ k → stamped_before st n x → stamped_before (<[k:=t]> st) (S n) x.
Proof.
  intros Hx (t1 & H1 & Hlt). exists t1. rewrite lookup_insert_ne by done.
  split; [done | lia].
Qed.

Lemma stamped_before_mono (st : gmap string nat) n x :
  stamped_before st n x → stamped_before st (S n) x.
Proof. intros (t1 & H1 & Hlt). exists t1. split; [done | lia]. Qed.

(** Appending the key that is accessed now keeps the order by last access. *)
Lemma lru_inv_append N c' n st ks k (m' : JsMap.t) :
  maxSize c' = N →
  cache c' = m' →
  JsMap.keys m' = ks ++ [k] →
  k ∉ ks →
  NoDup ks →
  StronglySorted (stamp_lt st) ks →
  Forall (stamped_before st n) ks →
  (JsMap.size m' <= Z.max N 1)%Z →
  lru_inv N (mkTraced c' (S n) (<[k:=n]> st)).
Proof.
  intros Hmax Hc Hkeys Hk Hnd Hs Hb Hsz. split; simpl; rewrite ?Hc, ?Hkeys.
  - done.
  - apply NoDup_app. split_and!; [done | | apply NoDup_singleton].
    intros x Hx Hx'. apply list_elem_of_singleton in Hx'. by subst.
  - apply StronglySorted_app. split_and!.
    + intros x y Hx Hy. apply list_elem_of_singleton in Hy as ->.
      rewrite Forall_forall in Hb. destruct (Hb x Hx) as (t & Ht & Hlt).
      exists t, n. rewrite lookup_insert_ne by (intros ->; done).
      by rewrite lookup_insert_eq.
    + eapply StronglySorted_weaken; [|exact Hs].
      intros x y Hx Hy. apply stamp_lt_insert_ne; intros ->; done.
    + repeat constructor.
  - apply Forall_app. split.
    + eapply Forall_impl; [exact Hb|].
      rewrite Forall_forall in Hb.
      intros x Hx. destruct Hx as (t & Ht & Hlt).
      destruct (decide (x = k)) as [->|Hne].
      * exists n. rewrite lookup_insert_eq. split; [done | lia].
      * exists t. rewrite lookup_insert_ne by done. split; [done | lia].
    + constructor; [|constructor]. exists n. rewrite lookup_insert_eq.
      split; [done | lia].
  - done.
Qed.

Lemma lru_inv_init N : lru_inv N (traced_init N).
Proof.
  split; simpl; try constructor. unfold JsMap.size. simpl. lia.
Qed.


(** A [get] that hits moves the key to the end and keeps every entry. *)
Lemma LRU_get_hit k c :
  NoDup (JsMap.keys (cache c)) →
  LRU.has k c = true →
  ∃ a b, cache c = a ++ (k, JsMap.get k (cache c)) :: b ∧
         LRU.get k c =
           (JsMap.get k (cache c),
            mkLRU (maxSize c) (a ++ b ++ [(k, JsMap.get k (cache c))])).
Proof.
  unfold LRU.has, LRU.get. intros Hnd Hhas. rewrite Hhas. simpl.
  destruct (JsMap_split _ _ Hhas) as (a & b & Hm & Ha & Hd).
  exists a, b. split; [done|].
  rewrite Hd. f_equal. f_equal.
  rewrite JsMap_set_fresh; [by rewrite <- app_assoc|].
  rewrite Hm, JsMap_keys_app in Hnd. simpl in Hnd.
  apply NoDup_app in Hnd as (_ & _ & Hb). apply NoDup_cons in Hb as [Hb _].
  rewrite JsMap_has_app, Ha. simpl. by apply JsMap_has_false.
Qed.

(** A [set] of an absent key: the first entry goes when the cache is full,
    and the new entry is appended. *)
Lemma LRU_set_fresh k v c :
  LRU.has k c = false →
  LRU.set k v c =
    mkLRU (maxSize c)
      ((if (JsMap.size (cache c) >=? maxSize c)%Z then tail (cache c) else cache c)
       ++ [(k, v)]).
Proof.
  unfold LRU.has, LRU.set. intros Hhas. f_equal.
  destruct (JsMap.size (cache c) >=? maxSize c)%Z.
  - destruct (cache c) as [|[k0 v0] m] eqn:Hc; simpl; [done|].
    simpl in Hhas. rewrite String.eqb_refl.
    destruct (String.eqb k0 k); [discriminate|].
    by apply JsMap_set_fresh.
  - by apply JsMap_set_fresh.
Qed.

Lemma lru_inv_step N s op :
  lru_inv N s →
  match op with OpSet k _ => LRU.has k (t_cache s) = false | OpGet _ => True end →
  lru_inv N (traced_step s op).
Proof.
  intros [Hmax Hnd Hs Hb Hsz] Hop. destruct s as [c n st].
  cbn [t_cache t_clock t_stamp] in *.
  destruct op as [k|k v]; unfold traced_step, apply_op, accessed;
    cbn [t_cache t_clock t_stamp].
  - destruct (LRU.has k c) eqn:Hhas.
    + destruct (LRU_get_hit k c Hnd Hhas) as (a & b & Hm & Hget).
      rewrite Hget. cbn [snd].
      rewrite Hm, JsMap_keys_app in Hnd, Hs, Hb. simpl in Hnd, Hs, Hb.
      apply NoDup_app in Hnd as (Hnda & Hab & Hndb).
      apply NoDup_cons in Hndb as [Hkb Hndb].
      apply StronglySorted_app in Hs as (Hsab & Hsa & Hsb).
      apply StronglySorted_cons in Hsb as [_ Hsb].
      apply Forall_app in Hb as [Hba Hbb]. apply Forall_cons in Hbb as [_ Hbb].
      eapply (lru_inv_append N _ n st (JsMap.keys a ++ JsMap.keys b) k); simpl.
      * done.
      * reflexivity.
      * by rewrite !JsMap_keys_app, app_assoc.
      * intros [Hin|Hin]%elem_of_app; [|done]. eapply Hab; [done | left].
      * apply NoDup_app. split_and!; [done | | done].
        intros x Hx Hx'. eapply Hab; [done | by right].
      * apply StronglySorted_app. split_and!; [|done..].
        intros x y Hx Hy. apply Hsab; [done | by right].
      * apply Forall_app. by split.
      * rewrite Hm in Hsz. unfold JsMap.size in *.
        rewrite ?length_app in *. simpl in *. rewrite ?length_app in *. simpl in *. lia.
    + unfold LRU.get, LRU.has in *. rewrite Hhas. simpl.
      split; simpl; try done.
      eapply Forall_impl; [exact Hb|]. intros x. apply stamped_before_mono.
  - rewrite (LRU_set_fresh k v c Hop).
    assert (Hk : k ∉ JsMap.keys (cache c)) by by apply JsMap_has_false.
    destruct (Z.geb_spec (JsMap.size (cache c)) (maxSize c)) as [Hfull|Hfree].
    + destruct (cache c) as [|[k0 v0] m] eqn:Hc.
      { eapply (lru_inv_append N _ n st [] k); simpl; try done.
        unfold JsMap.size. simpl. lia. }
      simpl in Hnd, Hs, Hb, Hk.
      apply NoDup_cons in Hnd as [_ Hnd].
      apply StronglySorted_cons in Hs as [_ Hs].
      apply Forall_cons in Hb as [_ Hb].
      eapply (lru_inv_append N _ n st (JsMap.keys m) k); simpl; try done.
      * by rewrite JsMap_keys_app.
      * intros Hin. apply Hk. by right.
      * unfold JsMap.size in *. rewrite length_app. simpl in *. lia.
    + eapply (lru_inv_append N _ n st (JsMap.keys (cache c)) k); simpl; try done.
      * by rewrite JsMap_keys_app.
      * unfold JsMap.size in *. rewrite length_app. simpl in *. lia.
Qed.

Lemma lru_inv_run N ops s :
  lru_inv N s →
  only_inserts ops (t_cache s) = true →
  lru_inv N (traced_run ops s).
Proof.
  revert s. induction ops as [|op ops IH]; intros s Hinv Hok; [done|].
  simpl in Hok. apply andb_true_iff in Hok as [Hop Hrest].
  simpl. apply IH; [|done].
  apply lru_inv_step; [done|].
  destruct op; [done|]. by apply negb_true_iff.
Qed.

End LRUFacts.

(** In a state where the map order is the order of last access, a [set] of
    an absent key into a full, non-empty cache evicts the first key of the
    map and nothing else, and that key is the least recently accessed. *)
Lemma LRU_overflow_evicts_first N s key value :
  lru_inv N s →
  exceeds_capacity key (t_cache s) →
  cache (t_cache s) ≠ [] →
  ∃ e, evicted (OpSet key value) (t_cache s) = [e] ∧
       least_recently_accessed s e.
Proof.
  intros [Hmax Hnd Hs Hb Hsz] [Habsent Hfull] Hnonempty.
  unfold evicted, apply_op. rewrite (LRU_set_fresh key value _ Habsent).
  destruct (Z.geb_spec (JsMap.size (cache (t_cache s))) (maxSize (t_cache s)))
    as [_|Hfree]; [|lia].
  unfold least_recently_accessed, last_access, LRU.has.
  assert (Hkey : key ∉ JsMap.keys (cache (t_cache s))) by by apply JsMap_has_false.
  destruct (cache (t_cache s)) as [|[k0 v0] m] eqn:Hc; [done|].
  cbn [tail cache] in *. simpl in Hnd, Hs, Hb, Hkey.
  apply NoDup_cons in Hnd as [Hk0 Hnd].
  apply StronglySorted_cons in Hs as [Hlt Hs].
  apply Forall_cons in Hb as [(t0 & Ht0 & _) Hb].
  exists k0. split.
  - change (JsMap.keys ((k0, v0) :: m)) with (k0 :: JsMap.keys m).
    rewrite filter_cons_True.
    2:{ apply JsMap_has_false. rewrite JsMap_keys_app. simpl.
        intros [Hin|Hin]%elem_of_app; [done|].
        apply list_elem_of_singleton in Hin. apply Hkey. rewrite Hin. left. }
    f_equal. apply filter_none. rewrite Forall_forall. intros x Hx Hgone.
    apply JsMap_has_false in Hgone. apply Hgone.
    rewrite JsMap_keys_app. apply elem_of_app. by left.
  - split; [simpl; left|]. exists t0. split; [done|].
    intros k Hk Hne. simpl in Hk. apply elem_of_cons in Hk as [->|Hk]; [done|].
    rewrite Forall_forall in Hlt. destruct (Hlt k Hk) as (t1 & t2 & H1 & H2 & Hlt12).
    exists t2. split; [done|]. congruence.
Qed.

(** With a capacity of at least one, a cache that is at capacity is not
    empty, and the property holds as the claim states it. *)
Lemma LRU_positive_capacity N : (1 <= N)%Z → evicts_exactly_lru N.
Proof.
  intros HN ops key value Hops s Hexceeds.
  assert (Hinv : lru_inv N s) by (apply lru_inv_run; [apply lru_inv_init | done]).
  apply (LRU_overflow_evicts_first N); [done..|].
  destruct Hexceeds as [_ Hfull]. destruct Hinv as [Hmax _ _ _ _].
  intros Hempty. rewrite Hempty, Hmax in Hfull. unfold JsMap.size in Hfull.
  simpl in Hfull. lia.
Qed.

(** C2 (amended): for every capacity [N], after any sequence of [get]s and
    of [set]s that insert keys not currently cached, a [set] that exceeds
    capacity while the cache holds an entry (it always does when [N >= 1])
    evicts exactly one entry, and that entry is the least recently accessed
    one, where a [get] that hits counts as an access. *)
Theorem LRU_evicts_least_recently_accessed
    (N : Z) (ops : list CacheOp) (key : string) (value : JsVal) :
  only_inserts ops (LRU.new N) = true →
  let s := traced_run ops (traced_init N) in
  exceeds_capacity key (t_cache s) →
  cache (t_cache s) ≠ [] →
  ∃ e, evicted (OpSet key value) (t_cache s) = [e] ∧
       least_recently_accessed s e.
Proof.
  intros Hops s Hexceeds Hnonempty.
  apply (LRU_overflow_evicts_first N); [|done..].
  apply lru_inv_run; [apply lru_inv_init | done].
Qed.

(** A run of capacity 2: after inserting "a" and "b" and reading "a", the
    insertion of "c" evicts "b". *)
Lemma LRU_evicts_least_recently_accessed_witness :
  let ops := [OpSet "a" (VStr "1"); OpSet "b" (VStr "2"); OpGet "a"] in
  let s := traced_run ops (traced_init 2) in
  evicted (OpSet "c" (VStr "3")) (t_cache s) = ["b"] ∧
  ∃ e, evicted (OpSet "c" (VStr "3")) (t_cache s) = [e] ∧
       least_recently_accessed s e.
Proof.
  intros ops s. split; [reflexivity|].
  apply (LRU_evicts_least_recently_accessed 2 ops "c" (VStr "3")).
  - reflexivity.
  - split; [reflexivity | vm_compute; discriminate].
  - vm_compute. discriminate.
Defined.

(** C2 as stated fails for capacity 0: the first [set] meets a cache that is
    at capacity (size 0 >= 0), there is no first key to delete, nothing is
    evicted and the cache then holds one entry. *)
Lemma LRU_capacity_zero_evicts_nothing : ¬ evicts_exactly_lru 0.
Proof.
  intros H. destruct (H [] "a" (VStr "1") eq_refl) as (e & He & _).
  - split; [reflexivity | vm_compute; discriminate].
  - vm_compute in He. discriminate.
Qed.

(** C3: [set] on a key that is already cached.  At capacity it deletes the
    first key of the map even though no room is needed (here "a" is lost
    when "b" is overwritten), and below capacity the overwritten key keeps
    its old position, so it stays the next eviction candidate (here "a" is
    overwritten and is then the entry evicted by the insertion of "d",
    although "b" was accessed earlier). *)
Theorem LRU_set_existing_key_defect :
  let full := LRU.set "b" (VStr "2") (LRU.set "a" (VStr "1") (LRU.new 2)) in
  LRU.has "a" full = true ∧
  LRU.has "b" full = true ∧
  LRU.has "a" (LRU.set "b" (VStr "3") full) = false ∧
  let c3 := LRU.set "b" (VStr "2") (LRU.set "a" (VStr "1") (LRU.new 3)) in
  let c3' := LRU.set "c" (VStr "3") (LRU.set "a" (VStr "9") c3) in
  JsMap.first_key (cache (LRU.set "a" (VStr "9") c3)) = Some "a" ∧
  evicted (OpSet "d" (VStr "4")) c3' = ["a"].
Proof. vm_compute. repeat split. Qed.

(** ** The rate limiter *)

Section PacerFacts.

Context {A : Type} `{EqDecision A}.
Implicit Types (s : PacerSys A) (e : PacerEvent A) (rps : positive).

Lemma RL_add_queue (t : Q) (request : A) (p : Pacer A) :
  queue (limiter (rateLimiter.add t request p)) = queue (limiter p) ++ [request].
Proof.
  unfold rateLimiter.add, rateLimiter.processQueue. simpl.
  by destruct (isProcessing (limiter p) || _).
Qed.

(** The timer that [processQueue] sets has the whole part of
    [1000 / rps] as its delay. *)
Lemma timer_delay_interval rps :
  timer_delay (rateLimiter.interval rps) = pacer_delay rps.
Proof.
  unfold timer_delay, rateLimiter.interval, pacer_delay. f_equal.
  unfold Qdiv, Qmult, Qinv, Qfloor, inject_Z. cbn [Qnum Qden].
  rewrite Z.mul_1_r, Pos.mul_1_l.
  apply Z.max_r. apply Z.div_pos; lia.
Qed.

Lemma pacer_delay_nonneg rps : (0 <= pacer_delay rps)%Q.
Proof.
  unfold pacer_delay, Qle. simpl.
  assert (0 <= 1000 / Z.pos rps)%Z by (apply Z.div_pos; lia). lia.
Qed.

Lemma spaced_snoc (gap : Q) (times : list Q) (t : Q) :
  spaced gap times →
  Forall (fun t0 => (t0 + gap <= t)%Q) times →
  spaced gap (times ++ [t]).
Proof.
  intros Hsp Hall i t1 t2 H1 H2.
  destruct (decide (S i < length times)%nat) as [Hlt|Hge].
  - rewrite lookup_app_l in H1 by lia. rewrite lookup_app_l in H2 by lia.
    by apply (Hsp i).
  - assert (Hi : (i < length times)%nat).
    { apply lookup_lt_Some in H2. rewrite length_app in H2. simpl in H2. lia. }
    rewrite lookup_app_l in H1 by lia.
    rewrite lookup_app_r in H2 by lia.
    replace (S i - length times)%nat with 0%nat in H2 by lia.
    simpl in H2. injection H2 as <-.
    rewrite Forall_forall in Hall. apply Hall.
    by eapply list_elem_of_lookup_2.
Qed.

Lemma pacer_step_time s e s' :
  pacer_step s e = Some s' → (now s <= event_time e)%Q ∧ now s' = event_time e.
Proof.
  unfold pacer_step. destruct (Qle_bool (now s) (event_time e)) eqn:Hle; [|done].
  apply Qle_bool_iff in Hle. simpl. intros Hstep. split; [done|].
  destruct e as [t a|t id|t a|t]; simpl in *.
  - by injection Hstep as <-.
  - destruct (intervals (pacer s) !! id) as [tm|]; [|done].
    destruct (Qle_bool (due tm) t); [|done].
    destruct (rateLimiter.onInterval id (pacer s)) as [[a|] p1]; by injection Hstep as <-.
  - case_bool_decide; [|done]. by injection Hstep as <-.
  - by injection Hstep as <-.
Qed.

Lemma pacer_inv_init rps : pacer_inv rps (@pacer_init A rps).
Proof.
  split; simpl; done.
Qed.

Lemma Forall_past_mono (l : list Q) (t t' : Q) :
  (t <= t')%Q → Forall (fun t0 => (t0 <= t)%Q) l → Forall (fun t0 => (t0 <= t')%Q) l.
Proof.
  intros Htt Hl. eapply Forall_impl; [exact Hl|]. simpl. intros t0 Ht0. lra.
Qed.

Lemma pacer_inv_step rps s e s' :
  pacer_inv rps s → pacer_step s e = Some s' → pacer_inv rps s'.
Proof.
  intros [Hrate Hfifo Hpast Htimer] Hstep.
  pose proof (pacer_step_time _ _ _ Hstep) as [Hle Hnow].
  unfold pacer_step in Hstep.
  destruct (Qle_bool (now s) (event_time e)); [|done]. simpl in Hstep.
  destruct s as [[[q proc r] ivs nid] t0 enq st infl]. simpl in *. subst r.
  destruct e as [t a|t id|t a|t]; simpl in *.
  - (* add *)
    injection Hstep as <-. unfold rateLimiter.add, rateLimiter.processQueue. simpl.
    destruct proc; simpl.
    + split; simpl; try done.
      * by rewrite <- Hfifo, (assoc_L (++)).
      * by eapply Forall_past_mono.
    + destruct Htimer as [-> ->]. simpl.
      split; simpl; try done.
      * by rewrite <- Hfifo, app_nil_r.
      * by eapply Forall_past_mono.
      * eexists nid, _. split; [by rewrite insert_empty|]. simpl.
        apply timer_delay_interval.
  - (* timer *)
    destruct (ivs !! id) as [tm|] eqn:Hid; [|done].
    destruct (Qle_bool (due tm) t) eqn:Hdue; [|done].
    destruct proc.
    2:{ destruct Htimer as [-> _]. by rewrite lookup_empty in Hid. }
    destruct Htimer as (id' & tm' & -> & Hper).
    apply lookup_singleton_Some in Hid as [-> ->].
    unfold rateLimiter.onInterval in Hstep. simpl in Hstep.
    destruct q as [|a rest]; simpl in Hstep.
    + injection Hstep as <-. unfold rateLimiter.clearInterval. simpl.
      rewrite delete_singleton_eq.
      split; simpl; try done.
      by eapply Forall_past_mono.
    + injection Hstep as <-.
      split; simpl; try done.
      * rewrite map_app, <- app_assoc. simpl. exact Hfifo.
      * rewrite map_app. apply Forall_app. split.
        -- by eapply Forall_past_mono.
        -- repeat constructor. simpl. lra.
      * by exists id, tm.
  - case_bool_decide; [|done]. injection Hstep as <-.
    split; simpl; try done. by eapply Forall_past_mono.
  - injection Hstep as <-.
    split; simpl; try done. by eapply Forall_past_mono.
Qed.

Lemma pacer_inv_run rps evs s s' :
  pacer_inv rps s → pacer_run evs s = Some s' → pacer_inv rps s'.
Proof.
  revert s. induction evs as [|e evs IH]; intros s Hinv Hrun; simpl in Hrun.
  - by injection Hrun as <-.
  - destruct (pacer_step s e) as [s1|] eqn:Hstep; [|done].
    eapply IH; [|done]. by eapply pacer_inv_step.
Qed.

Lemma not_before_step rps T0 s e s' :
  pacer_inv rps s → not_before rps T0 s → pacer_step s e = Some s' →
  not_before rps T0 s' ∧
  ∃ new, started s' = started s ++ new ∧ Forall (fun x => (T0 <= fst x)%Q) new.
Proof.
  intros [Hrate _ _ _] [Hsoon Hnb] Hstep.
  pose proof (pacer_step_time _ _ _ Hstep) as [Hle Hnow].
  unfold pacer_step in Hstep.
  destruct (Qle_bool (now s) (event_time e)); [|done]. simpl in Hstep.
  destruct s as [[[q proc r] ivs nid] t0 enq st infl]. simpl in *. subst r.
  pose proof (pacer_delay_nonneg rps) as Hiv.
  unfold not_before.
  destruct e as [t a|t id|t a|t]; simpl in *.
  - injection Hstep as <-. simpl. split; [|exists []; by rewrite app_nil_r].
    split; [lra|].
    destruct Hnb as [Hnb|Hnb]; [left; lra|]. right.
    unfold rateLimiter.add, rateLimiter.processQueue. simpl.
    destruct (proc || bool_decide (length (q ++ [a]) = 0%nat)); simpl; [done|].
    rewrite timer_delay_interval.
    intros id tm [[<- <-]|[_ Hold]]%lookup_insert_Some; simpl; [lra|].
    by eapply Hnb.
  - destruct (ivs !! id) as [tm|] eqn:Hid; [|done].
    destruct (Qle_bool (due tm) t) eqn:Hdue; [|done].
    apply Qle_bool_iff in Hdue.
    assert (HT : (T0 <= t)%Q).
    { destruct Hnb as [Hnb|Hnb]; [lra|]. specialize (Hnb _ _ Hid). lra. }
    destruct (rateLimiter.onInterval id _) as [[a|] p1]; injection Hstep as <-; simpl.
    + split; [split; [lra | by left]|].
      exists [(t, a)]. split; [done|]. by repeat constructor.
    + split; [split; [lra | by left]|]. exists []. by rewrite app_nil_r.
  - case_bool_decide; [|done]. injection Hstep as <-. simpl.
    split; [|exists []; by rewrite app_nil_r].
    split; [lra|]. destruct Hnb as [Hnb|Hnb]; [left; lra | by right].
  - injection Hstep as <-. simpl.
    split; [|exists []; by rewrite app_nil_r].
    split; [lra|]. destruct Hnb as [Hnb|Hnb]; [left; lra | by right].
Qed.

Lemma not_before_run rps T0 evs s s' :
  pacer_inv rps s → not_before rps T0 s → pacer_run evs s = Some s' →
  ∃ new, started s' = started s ++ new ∧ Forall (fun x => (T0 <= fst x)%Q) new.
Proof.
  revert s. induction evs as [|e evs IH]; intros s Hinv Hnb Hrun; simpl in Hrun.
  - injection Hrun as <-. exists []. by rewrite app_nil_r.
  - destruct (pacer_step s e) as [s1|] eqn:Hstep; [|done].
    destruct (not_before_step _ _ _ _ _ Hinv Hnb Hstep) as (Hnb1 & new1 & Hst1 & Hall1).
    destruct (IH s1 (pacer_inv_step _ _ _ _ Hinv Hstep) Hnb1 Hrun)
      as (new2 & Hst2 & Hall2).
    exists (new1 ++ new2). rewrite Hst2, Hst1, (assoc_L (++)). split; [done|].
    apply Forall_app. by split.
Qed.

(** Adding to a pacer whose drain loop is off arms one timer, due one
    delay later, and calls nothing. *)
Lemma add_when_idle rps s t a s1 :
  pacer_inv rps s →
  isProcessing (limiter (pacer s)) = false →
  pacer_step s (EvAdd t a) = Some s1 →
  started s1 = started s ∧ inflight s1 = inflight s ∧
  queue (limiter (pacer s1)) = [a] ∧
  isProcessing (limiter (pacer s1)) = true ∧
  not_before rps (t + pacer_delay rps) s1.
Proof.
  intros [Hrate _ _ Htimer] Hidle Hstep.
  pose proof (pacer_step_time _ _ _ Hstep) as [Hle Hnow].
  unfold pacer_step in Hstep.
  destruct (Qle_bool (now s) (event_time (EvAdd t a))); [|done]. simpl in Hstep.
  injection Hstep as <-. simpl.
  rewrite Hidle in Htimer. destruct Htimer as [Hno Hq].
  unfold rateLimiter.add, rateLimiter.processQueue. simpl. rewrite Hidle, Hq, Hrate. simpl.
  split_and!; try done.
  unfold not_before. simpl. split; [lra|]. right.
  rewrite Hno, timer_delay_interval.
  intros id tm [[<- <-]|[_ Hold]]%lookup_insert_Some; simpl; [lra|].
  by rewrite lookup_empty in Hold.
Qed.

(** *** Starts and timer callbacks *)

Lemma pacer_step_started s s' (pe : PacerEvent A) :
  pacer_step s pe = Some s' →
  started s' = started s ++
    match pe with
    | EvTimer t timerId =>
        match fst (rateLimiter.onInterval timerId (pacer s)) with
        | Some request => [(t, request)]
        | None => []
        end
    | _ => []
    end.
Proof.
  unfold pacer_step. destruct (Qle_bool (now s) (event_time pe)); [|done]. simpl.
  destruct pe as [t a|t id|t a|t]; simpl.
  - intros [= <-]. simpl. by rewrite app_nil_r.
  - destruct (intervals (pacer s) !! id) as [tm|]; [|done].
    destruct (Qle_bool (due tm) t); [|done].
    destruct (rateLimiter.onInterval id (pacer s)) as [[a|] p1]; simpl; intros [= <-]; simpl;
      [done | by rewrite app_nil_r].
  - case_bool_decide; [|done]. intros [= <-]. simpl. by rewrite app_nil_r.
  - intros [= <-]. simpl. by rewrite app_nil_r.
Qed.

Lemma pacer_run_app evs1 evs2 s :
  pacer_run (evs1 ++ evs2) s =
    match pacer_run evs1 s with
    | Some s1 => pacer_run evs2 s1
    | None => None
    end.
Proof.
  revert s. induction evs1 as [|e evs1 IH]; intros s; simpl; [done|].
  destruct (pacer_step s e); [apply IH | done].
Qed.

Lemma tick_times_snoc (evs : list (PacerEvent A)) e :
  tick_times (evs ++ [e]) =
    tick_times evs ++ match e with EvTimer t _ => [t] | _ => [] end.
Proof.
  unfold tick_times. rewrite omap_app. by destruct e.
Qed.

Lemma spaced_prefix (gap : Q) (l1 l2 : list Q) :
  spaced gap (l1 ++ l2) → spaced gap l1.
Proof.
  intros Hsp i t1 t2 H1 H2. apply (Hsp i).
  - by apply lookup_app_l_Some.
  - by apply lookup_app_l_Some.
Qed.

Lemma spaced_snoc_last (gap : Q) (times : list Q) (t : Q) :
  spaced gap times →
  (∀ tl, last times = Some tl → (tl + gap <= t)%Q) →
  spaced gap (times ++ [t]).
Proof.
  intros Hsp Hlast i t1 t2 H1 H2.
  destruct (decide (S i < length times)%nat) as [Hlt|Hge].
  - rewrite lookup_app_l in H1 by lia. rewrite lookup_app_l in H2 by lia.
    by apply (Hsp i).
  - assert (Hi : (i < length times)%nat).
    { apply lookup_lt_Some in H2. rewrite length_app in H2. simpl in H2. lia. }
    rewrite lookup_app_l in H1 by lia.
    rewrite lookup_app_r in H2 by lia.
    replace (S i - length times)%nat with 0%nat in H2 by lia.
    simpl in H2. injection H2 as <-.
    apply Hlast. rewrite last_lookup.
    by replace (pred (length times)) with i by lia.
Qed.

Lemma spaced_last_snoc (gap : Q) (times : list Q) (tl t : Q) :
  spaced gap (times ++ [t]) → last times = Some tl → (tl + gap <= t)%Q.
Proof.
  intros Hsp Hlast. rewrite last_lookup in Hlast.
  assert (Hpos : (0 < length times)%nat).
  { apply lookup_lt_Some in Hlast. destruct times; simpl in *; lia. }
  apply (Hsp (pred (length times))).
  - by rewrite lookup_app_l by lia.
  - rewrite lookup_app_r by lia.
    by replace (S (pred (length times)) - length times)%nat with 0%nat by lia.
Qed.

(** In a run from the start, every start is at a callback: the start times
    are a part of the callback times, in order, and none is later than the
    latest callback. *)
Lemma starts_at_ticks rps evs s :
  pacer_run evs (pacer_init rps) = Some s →
  map fst (started s) `sublist_of` tick_times evs ∧
  Forall (fun t0 => (t0 <= now s)%Q) (tick_times evs) ∧
  Forall (fun x => ∃ tk, last (tick_times evs) = Some tk ∧ (x <= tk)%Q)
    (map fst (started s)).
Proof.
  revert s. induction evs as [|e evs IH] using rev_ind; intros s.
  - intros [= <-]. simpl. split_and!; constructor.
  - rewrite pacer_run_app.
    destruct (pacer_run evs (pacer_init rps)) as [s0|] eqn:Hrun; [|done].
    destruct (IH s0 eq_refl) as (Hsub & Hpast & Hlast). simpl.
    destruct (pacer_step s0 e) as [s1|] eqn:Hstep; [|done]. intros [= <-].
    pose proof (pacer_step_time _ _ _ Hstep) as [Hle Hnow].
    assert (Hpast1 : Forall (fun t0 => (t0 <= now s1)%Q) (tick_times evs)).
    { eapply Forall_past_mono; [|exact Hpast]. by rewrite Hnow. }
    rewrite tick_times_snoc.
    rewrite (pacer_step_started _ _ _ Hstep).
    destruct e as [t a|t id|t a|t]; simpl in *; rewrite ?app_nil_r.
    + split_and!; done.
    + assert (Hpast' : Forall (fun t0 => (t0 <= now s1)%Q) (tick_times evs ++ [t])).
      { apply Forall_app. split; [done|].
        repeat constructor. rewrite Hnow. simpl. lra. }
      assert (Hold : Forall (fun x => ∃ tk, last (tick_times evs ++ [t]) = Some tk
                                            ∧ (x <= tk)%Q) (map fst (started s0))).
      { eapply Forall_impl; [exact Hlast|]. simpl. intros x (tk & Htk & Hx).
        exists t. rewrite last_snoc. split; [done|].
        assert (tk <= now s0)%Q; [|lra].
        rewrite Forall_forall in Hpast. apply Hpast.
        rewrite last_lookup in Htk. by eapply list_elem_of_lookup_2. }
      destruct (fst (rateLimiter.onInterval id (pacer s0))) as [request|]; simpl.
      * rewrite map_app. simpl. split_and!; [by apply sublist_app | done |].
        apply Forall_app. split; [done|]. repeat constructor.
        exists t. rewrite last_snoc. split; [done | lra].
      * rewrite app_nil_r. split_and!; [by apply sublist_inserts_r | done | done].
    + split_and!; done.
    + split_and!; done.
Qed.

(** If the host keeps the callbacks of a run [gap] apart, the starts are
    [gap] apart. *)
Lemma starts_spaced_as_ticks rps (gap : Q) evs s :
  pacer_run evs (pacer_init rps) = Some s →
  spaced gap (tick_times evs) → spaced gap (map fst (started s)).
Proof.
  revert s. induction evs as [|e evs IH] using rev_ind; intros s.
  - intros [= <-] _. simpl. intros i t1 t2 H1. by rewrite lookup_nil in H1.
  - rewrite pacer_run_app.
    destruct (pacer_run evs (pacer_init rps)) as [s0|] eqn:Hrun; [|done]. simpl.
    destruct (pacer_step s0 e) as [s1|] eqn:Hstep; [|done]. intros [= <-].
    rewrite tick_times_snoc. intros Hsp.
    pose proof (IH s0 eq_refl (spaced_prefix _ _ _ Hsp)) as Hsp0.
    destruct (starts_at_ticks rps evs s0 Hrun) as (_ & _ & Hlast).
    unfold pacer_step in Hstep.
    destruct (Qle_bool (now s0) (event_time e)); [|done]. simpl in Hstep.
    destruct e as [t a|t id|t a|t]; simpl in *.
    + by injection Hstep as <-.
    + destruct (intervals (pacer s0) !! id) as [tm|]; [|done].
      destruct (Qle_bool (due tm) t); [|done].
      destruct (rateLimiter.onInterval id (pacer s0)) as [[a|] p1];
        injection Hstep as <-; simpl; [|done].
      rewrite map_app. simpl. apply spaced_snoc; [done|].
      eapply Forall_impl; [exact Hlast|]. simpl. intros x (tk & Htk & Hx).
      pose proof (spaced_last_snoc _ _ _ _ Hsp Htk). lra.
    + case_bool_decide; [|done]. by injection Hstep as <-.
    + by injection Hstep as <-.
Qed.

End PacerFacts.

(** ** The service worker in time *)

Section WorldFacts.

Variable B : JsBuiltins.
Implicit Types (w : World) (e : WorldEvent).

Lemma sys_add_step request (s : PacerSys Request) :
  pacer_step s (EvAdd (now s) request) = Some (sys_add request s).
Proof.
  unfold pacer_step. simpl.
  assert (Qle_bool (now s) (now s) = true) as -> by (apply Qle_bool_iff; lra).
  done.
Qed.

Lemma lookupMeaning_frame text w :
  let w1 := snd (lookupMeaning B text w) in
  config w1 = config w ∧ fetches w1 = fetches w ∧ settled w1 = settled w ∧
  match fst (lookupMeaning B text w) with
  | Resolved _ => sys w1 = sys w ∧ next_promise w1 = next_promise w
  | Pending p =>
      p = next_promise w ∧
      sys w1 = sys_add (mkRequest p text (cacheKey_of B text)) (sys w)
  end.
Proof.
  unfold lookupMeaning.
  destruct (LRU.get _ _) as [data session1].
  destruct (truthy data); simpl; [done|].
  destruct (persistentCache_get _ _ _ _) as [[data2 storage1] logs1].
  destruct (truthy data2); simpl; done.
Qed.

Lemma finishRequest_frame request outcome w :
  let w1 := finishRequest B request outcome w in
  config w1 = config w ∧ sys w1 = sys w ∧ fetches w1 = fetches w.
Proof.
  unfold finishRequest.
  destruct (primary_attempt B outcome) as [responseData|e]; simpl.
  - destruct (truthy responseData); [|done].
    by destruct (persistentCache_set _ _ _ _ _ _).
  - destruct (get_prop e "message") as [message|]; simpl; done.
Qed.

(** Every event of the service worker is one event of its pacer. *)
Lemma world_step_pacer w e w' :
  world_step B w e = Some w' →
  ∃ pe, pacer_step (sys w) pe = Some (sys w').
Proof.
  destruct e as [t text|t id|t request outcome|t]; simpl.
  - destruct (pacer_step (sys w) (EvIdle t)) as [s|] eqn:Hidle; [|done].
    simpl. intros [= <-].
    pose proof (lookupMeaning_frame text (with_sys s w)) as (_ & _ & _ & Hsys).
    destruct (fst (lookupMeaning B text (with_sys s w))) as [r|p].
    + destruct Hsys as [-> _]. by exists (EvIdle t).
    + destruct Hsys as [_ ->]. simpl. exists (EvAdd t (mkRequest p text (cacheKey_of B text))).
      unfold pacer_step in *. simpl in *.
      destruct (Qle_bool (now (sys w)) t); [|done]. simpl in *.
      injection Hidle as <-. done.
  - destruct (pacer_step (sys w) (EvTimer t id)) as [s|] eqn:Hst; [|done].
    simpl. exists (EvTimer t id). rewrite Hst.
    destruct (fst (rateLimiter.onInterval id (pacer (sys w)))); by injection H as <-.
  - destruct (pacer_step (sys w) (EvSettle t request)) as [s|] eqn:Hst; [|done].
    simpl. intros [= <-]. exists (EvSettle t request). rewrite Hst.
    by pose proof (finishRequest_frame request outcome (with_sys s w)) as (_ & -> & _).
  - destruct (pacer_step (sys w) (EvIdle t)) as [s|] eqn:Hst; [|done].
    simpl. intros [= <-]. by exists (EvIdle t).
Qed.

Lemma world_run_pacer evs w w' :
  world_run B evs w = Some w' →
  ∃ pevs, pacer_run pevs (sys w) = Some (sys w').
Proof.
  revert w. induction evs as [|e evs IH]; intros w Hrun; simpl in Hrun.
  - injection Hrun as <-. by exists [].
  - destruct (world_step B w e) as [w1|] eqn:Hstep; [|done].
    destruct (world_step_pacer _ _ _ Hstep) as [pe Hpe].
    destruct (IH _ Hrun) as [pevs Hpevs].
    exists (pe :: pevs). simpl. by rewrite Hpe.
Qed.


Lemma world_inv_init : world_inv world_init.
Proof. split; [apply pacer_inv_init | done]. Qed.

Lemma world_inv_step w e w' :
  world_inv w → world_step B w e = Some w' →
  world_inv w' ∧ ∃ calls, fetches w' = fetches w ++ calls.
Proof.
  intros [Hp Hlink] Hstep.
  destruct (world_step_pacer _ _ _ Hstep) as [pe Hpe].
  pose proof (pacer_inv_step _ _ _ _ Hp Hpe) as Hp'.
  unfold world_inv. split_and!; [done|..].
  all: destruct e as [t text|t id|t request outcome|t]; simpl in Hstep.
  all: match type of Hstep with
       | context [pacer_step ?s0 ?ev] =>
           destruct (pacer_step s0 ev) as [s|] eqn:Hst; [|done];
           pose proof (pacer_step_started _ _ _ Hst) as Hstarted;
           pose proof (pacer_step_time _ _ _ Hst) as [_ Hnow]
       end; simpl in Hstep, Hstarted, Hnow.
  - injection Hstep as <-.
    pose proof (lookupMeaning_frame text (with_sys s w)) as (_ & Hf & _ & Hsys).
    rewrite Hf. simpl.
    destruct (fst (lookupMeaning B text (with_sys s w))) as [r|p].
    + destruct Hsys as [-> _]. simpl. by rewrite Hstarted, app_nil_r.
    + destruct Hsys as [_ ->]. simpl. by rewrite Hstarted, app_nil_r.
  - destruct (fst (rateLimiter.onInterval id (pacer (sys w)))) as [request|];
      injection Hstep as <-; simpl; rewrite Hstarted, !map_app, Hlink; simpl.
    + by rewrite Hnow.
    + by rewrite app_nil_r.
  - injection Hstep as <-.
    pose proof (finishRequest_frame request outcome (with_sys s w)) as (_ & -> & ->).
    simpl. by rewrite Hstarted, app_nil_r.
  - injection Hstep as <-. simpl. by rewrite Hstarted, app_nil_r.
  - injection Hstep as <-.
    pose proof (lookupMeaning_frame text (with_sys s w)) as (_ & Hf & _).
    exists []. by rewrite Hf, app_nil_r.
  - destruct (fst (rateLimiter.onInterval id (pacer (sys w)))) as [request|];
      injection Hstep as <-; simpl; [by eexists | exists []; by rewrite app_nil_r].
  - injection Hstep as <-.
    pose proof (finishRequest_frame request outcome (with_sys s w)) as (_ & _ & ->).
    exists []. by rewrite app_nil_r.
  - injection Hstep as <-. exists []. by rewrite app_nil_r.
Qed.

Lemma world_inv_run evs w w' :
  world_inv w → world_run B evs w = Some w' →
  world_inv w' ∧ ∃ calls, fetches w' = fetches w ++ calls.
Proof.
  revert w. induction evs as [|e evs IH]; intros w Hinv Hrun; simpl in Hrun.
  - injection Hrun as <-. split; [done|]. exists []. by rewrite app_nil_r.
  - destruct (world_step B w e) as [w1|] eqn:Hstep; [|done].
    destruct (world_inv_step _ _ _ Hinv Hstep) as [Hinv1 [c1 Hc1]].
    destruct (IH _ Hinv1 Hrun) as [Hinv2 [c2 Hc2]].
    split; [done|]. exists (c1 ++ c2). by rewrite Hc2, Hc1, (assoc_L (++)).
Qed.

Lemma pacer_delay_default : pacer_delay rateLimiter.default_requestsPerSecond = 200%Q.
Proof. reflexivity. Qed.

End WorldFacts.

(** ** The response normalizer *)

Section SanitizeFacts.

Implicit Types (v x : JsVal) (s : string) (acc elems : list JsVal).

Lemma count_str_app s (a b : list JsVal) :
  count_str s (a ++ b) = (count_str s a + count_str s b)%nat.
Proof. induction a as [|v a IH]; simpl; [done|]. rewrite IH. lia. Qed.



Lemma sameValueZero_str s v : sameValueZero (VStr s) v = is_str s v.
Proof. destruct v; simpl; try done. apply String.eqb_sym. Qed.

Lemma existsb_sameValueZero_str s acc :
  existsb (sameValueZero (VStr s)) acc = true ↔ (0 < count_str s acc)%nat.
Proof.
  induction acc as [|v acc IH]; [simpl; split; [done | lia]|].
  cbn [existsb count_str].
  rewrite orb_true_iff, IH, sameValueZero_str.
  destruct (is_str s v); split; (lia || auto).
Qed.

Lemma existsb_sameValueZero_other s x acc :
  is_str s x = false →
  count_str s (if existsb (sameValueZero x) acc then acc else acc ++ [x]) =
  count_str s acc.
Proof.
  intros Hx. destruct (existsb _ acc); [done|].
  rewrite count_str_app. simpl. rewrite Hx. lia.
Qed.

(** Adding to the set keeps every string at most once. *)
Lemma set_add_count s x acc :
  (count_str s acc <= 1)%nat →
  count_str s (set_add x acc) =
  Nat.min 1 (count_str s acc + if is_str s x then 1 else 0).
Proof.
  intros Hle. unfold set_add. destruct (is_str s x) eqn:Hx.
  - destruct x; try discriminate. simpl in Hx. apply String.eqb_eq in Hx as ->.
    destruct (existsb (sameValueZero (VStr s)) acc) eqn:Hex.
    + apply existsb_sameValueZero_str in Hex. lia.
    + assert (count_str s acc = 0)%nat as Hz.
      { destruct (count_str s acc) eqn:Hc; [done|].
        assert (existsb (sameValueZero (VStr s)) acc = true) as Hex'
          by (apply existsb_sameValueZero_str; lia).
        congruence. }
      rewrite count_str_app, Hz. simpl. by rewrite String.eqb_refl.
  - rewrite existsb_sameValueZero_other by done. lia.
Qed.

Lemma fold_set_add_count s elems acc :
  (count_str s acc <= 1)%nat →
  count_str s (fold_left (fun a x => set_add x a) elems acc) =
  Nat.min 1 (count_str s acc + count_str s elems).
Proof.
  revert acc. induction elems as [|x elems IH]; intros acc Hle;
    cbn [fold_left count_str].
  - lia.
  - rewrite IH.
    + rewrite set_add_count by done. destruct (is_str s x); lia.
    + rewrite set_add_count by done. lia.
Qed.


Lemma get_prop_total v name :
  nullish v = false → ∃ r, get_prop v name = Return r.
Proof.
  destruct v; simpl; try discriminate; intros _; eauto.
  destruct (String.eqb name "message"); [eauto|].
  destruct (String.eqb name "stack"); eauto.
Qed.

Lemma opt_prop_total v name : ∃ r, opt_prop v name = Return r.
Proof.
  unfold opt_prop. destruct (nullish v) eqn:Hn; [eauto|].
  by apply get_prop_total.
Qed.

Lemma opt_first_total v : ∃ r, opt_first v = Return r.
Proof.
  unfold opt_first. destruct (nullish v) eqn:Hn; [eauto|].
  destruct v; simpl; try discriminate; eauto.
  destruct s; eauto.
Qed.

(** Reading the first definition throws only on a [null] first result. *)
Lemma first_definition_total v :
  nullish v = false → ∃ m, first_definition v = Return m.
Proof.
  intros Hv. unfold first_definition.
  destruct (get_prop_total v "meanings" Hv) as [r1 ->]. simpl.
  destruct (opt_first_total r1) as [r2 ->]. simpl.
  destruct (opt_prop_total r2 "definitions") as [r3 ->]. simpl.
  destruct (opt_first_total r3) as [r4 ->]. simpl.
  apply opt_prop_total.
Qed.



End SanitizeFacts.

(** ** Diagnostics and the persistent cache *)

Section StoreFacts.

(** The record of a failure is the newest entry of the log. *)
Lemma logError_head now source details logs :
  ∃ older,
    logError now source details logs =
    mkErrorRecord now source (processedDetails details) :: older.
Proof.
  unfold logError. destruct logs as [|r logs]; [by exists []|].
  destruct (maxLogSize <? _)%nat; [|eauto].
  exists (removelast (r :: logs)). reflexivity.
Qed.

Lemma logError_length now source details logs :
  (length logs <= maxLogSize)%nat →
  (length (logError now source details logs) <= maxLogSize)%nat.
Proof.
  intros Hle. unfold logError.
  destruct (Nat.ltb_spec maxLogSize (length (mkErrorRecord now source
              (processedDetails details) :: logs))) as [Hlt|Hge]; [|done].
  rewrite removelast_firstn_len, length_firstn. simpl in *. lia.
Qed.

(** What a successful [persistentCache.set] leaves in the store. *)
Lemma persistentCache_set_ok cacheTTL key v now st logs :
  set_rejects st = None →
  persistentCache_set cacheTTL key v now st logs =
  (mkStorage (<[key := mkItem v (now + cacheTTL)]> (items st))
     (get_rejects st) None (remove_rejects st), logs).
Proof.
  intros Hset. unfold persistentCache_set, storage_set. by rewrite Hset.
Qed.

(** [persistentCache.get] on a stored item, when the store's calls succeed:
    the strict comparison [Date.now() > item.expires] decides. *)
Lemma persistentCache_get_item key now st logs item :
  get_rejects st = None →
  remove_rejects st = None →
  items st !! key = Some item →
  persistentCache_get key now st logs =
  if (now >? expires item)%Z
  then (VNull,
        mkStorage (delete key (items st)) None (set_rejects st) None, logs)
  else (value item, st, logs).
Proof.
  intros Hget Hrem Hitem.
  unfold persistentCache_get, storage_get, storage_remove.
  rewrite Hget, Hitem. simpl. rewrite Hrem.
  by destruct (now >? expires item)%Z.
Qed.

Lemma persistentCache_get_rejected key now st logs e :
  get_rejects st = Some e →
  persistentCache_get key now st logs =
  (VNull, st, logError now "persistentCache.get" (VObj [("error", e)]) logs).
Proof.
  intros Hget. unfold persistentCache_get, storage_get. by rewrite Hget.
Qed.

End StoreFacts.

(** ** Claims about the persistent cache *)

(** C4 (amended): for an entry written at [writeTime] with time-to-live [T],
    while the store's calls succeed, a [get] at clock reading [now] returns
    the stored value whenever [now - writeTime <= T], the exact boundary
    [now - writeTime = T] included, and leaves the store as it is; whenever
    [now - writeTime > T] it returns [null] and the record is deleted from
    the store. *)
Theorem persistentCache_expiry
    (T : Z) (key : string) (v : JsVal) (writeTime now : Z)
    (st0 st : ChromeStorage) (logs0 logs : list ErrorRecord) :
  set_rejects st0 = None →
  get_rejects st0 = None →
  remove_rejects st0 = None →
  persistentCache_set T key v writeTime st0 logs0 = (st, logs) →
  ((now - writeTime <= T)%Z →
     persistentCache_get key now st logs = (v, st, logs)) ∧
  ((now - writeTime > T)%Z →
     ∃ st', persistentCache_get key now st logs = (VNull, st', logs) ∧
            items st' = delete key (items st) ∧
            items st' !! key = None).
Proof.
  intros Hset Hget Hrem Hwrite.
  rewrite persistentCache_set_ok in Hwrite by done.
  injection Hwrite as <- <-.
  set (st := mkStorage _ _ _ _).
  assert (Hget' : get_rejects st = None) by exact Hget.
  assert (Hrem' : remove_rejects st = None) by exact Hrem.
  assert (Hitem : items st !! key = Some (mkItem v (writeTime + T)))
    by apply lookup_insert_eq.
  rewrite (persistentCache_get_item key now st logs0 _ Hget' Hrem' Hitem).
  cbn [expires value].
  split; intros Hage.
  - destruct (Z.gtb_spec now (writeTime + T)); [lia | done].
  - destruct (Z.gtb_spec now (writeTime + T)); [|lia].
    eexists. split; [reflexivity|]. split; [done|].
    apply lookup_delete_eq.
Qed.

(** An entry written at 1000 with a time-to-live of 500, read at 1200 and
    at 1501. *)
Lemma persistentCache_expiry_witness :
  let st0 := mkStorage ∅ None None None in
  let st := fst (persistentCache_set 500 "meaning_hello" (VStr "A greeting") 1000 st0 []) in
  persistentCache_get "meaning_hello" 1200 st [] = (VStr "A greeting", st, []) ∧
  ∃ st', persistentCache_get "meaning_hello" 1501 st [] = (VNull, st', []) ∧
         items st' !! "meaning_hello" = None.
Proof.
  intros st0 st. split.
  - apply (persistentCache_expiry 500 "meaning_hello" (VStr "A greeting") 1000 1200
             st0 st [] []); try reflexivity. lia.
  - destruct (persistentCache_expiry 500 "meaning_hello" (VStr "A greeting") 1000 1501
                st0 st [] [] eq_refl eq_refl eq_refl eq_refl) as [_ Hlate].
    destruct Hlate as (st' & Hget & _ & Hgone); [lia|].
    exists st'. split; [exact Hget | exact Hgone].
Defined.

(** C4 as stated fails at the boundary: an entry written at 1000 with a
    time-to-live of 500 and read at 1500 ([now - writeTime = T]) is returned
    and stays in the store, because the test is [Date.now() > item.expires]. *)
Lemma persistentCache_get_at_boundary :
  let st0 := mkStorage ∅ None None None in
  let st := fst (persistentCache_set 500 "meaning_hello" (VStr "A greeting") 1000 st0 []) in
  (1500 - 1000 >= 500)%Z ∧
  persistentCache_get "meaning_hello" 1500 st [] = (VStr "A greeting", st, []) ∧
  items st !! "meaning_hello" = Some (mkItem (VStr "A greeting") 1500) ∧
  ¬ ∃ st', persistentCache_get "meaning_hello" 1500 st [] = (VNull, st', []).
Proof.
  intros st0 st. split; [lia|]. split; [reflexivity|]. split.
  - subst st st0. simpl. apply lookup_insert_eq.
  - intros [st' Hget]. vm_compute in Hget. discriminate.
Qed.

(** ** Claims about the pacer *)

(** C6 (amended): in every run of the pacer at rate [rps], the requests
    that have started are, in the order of their starts, the first of the
    enqueued requests in enqueue order (the queue holds the rest).  Each
    started in a callback of the interval timer, at most one per callback.
    At most one timer is registered at any time, and it was set with a delay
    of the whole part of [1000 / rps] milliseconds.  The pacer keeps no time
    itself: the starts are as far apart as the host keeps the callbacks, so
    whenever the callbacks of the run are [gap] apart, the starts are. *)
Theorem pacer_fifo_and_spacing {A : Type} `{EqDecision A}
    (rps : positive) (evs : list (PacerEvent A)) (s : PacerSys A) :
  pacer_run evs (pacer_init rps) = Some s →
  map snd (started s) ++ queue (limiter (pacer s)) = enqueued s ∧
  map fst (started s) `sublist_of` tick_times evs ∧
  (∀ timerId tm, intervals (pacer s) !! timerId = Some tm →
     intervals (pacer s) = {[timerId := tm]} ∧
     period tm = inject_Z (1000 / Z.pos rps)) ∧
  (∀ gap, spaced gap (tick_times evs) → spaced gap (map fst (started s))).
Proof.
  intros Hrun.
  destruct (pacer_inv_run rps evs _ _ (pacer_inv_init rps) Hrun)
    as [_ Hfifo _ Htimer].
  destruct (starts_at_ticks rps evs s Hrun) as (Hsub & _ & _).
  split_and!; [done | done | | ].
  - intros timerId tm Hid.
    destruct (isProcessing (limiter (pacer s))).
    + destruct Htimer as (id' & tm' & Hone & Hper). rewrite Hone in Hid.
      apply lookup_singleton_Some in Hid as [<- <-]. done.
    + destruct Htimer as [Hnone _]. by rewrite Hnone, lookup_empty in Hid.
  - intros gap. by apply (starts_spaced_as_ticks rps).
Qed.

(** Three requests enqueued at 0, 10 and 20 ms at five per second; the
    host runs the callback at 200, 400 and 650 ms. *)
Lemma pacer_fifo_and_spacing_witness :
  let evs := [EvAdd 0 1%nat; EvAdd 10 2%nat; EvAdd 20 3%nat;
              EvTimer 200 0%nat; EvTimer 400 0%nat; EvTimer 650 0%nat] in
  ∃ s, pacer_run evs (pacer_init 5) = Some s ∧
       started s = [(200%Q, 1%nat); (400%Q, 2%nat); (650%Q, 3%nat)] ∧
       map snd (started s) ++ queue (limiter (pacer s)) = enqueued s ∧
       (∀ timerId tm, intervals (pacer s) !! timerId = Some tm → period tm = 200%Q) ∧
       spaced 200 (map fst (started s)).
Proof.
  intros evs. eexists. split; [vm_compute; reflexivity|].
  split; [reflexivity|].
  match goal with
  | |- map snd (started ?s) ++ _ = _ ∧ _ =>
      destruct (pacer_fifo_and_spacing 5 evs s eq_refl) as (Hfifo & _ & Htimer & Hsp)
  end.
  split; [exact Hfifo|]. split.
  - intros timerId tm Hid. by destruct (Htimer timerId tm Hid) as [_ ->].
  - apply Hsp. intros [|[|[|i]]] t1 t2; simpl; intros [= <-] [= <-]; lra.
Defined.

(** C6 as stated fails.  At five per second the host runs the first
    callback half a millisecond late and the second on time: the two starts
    are 199.482 ms apart.  At three per second the timer's delay is 333 ms,
    and a host that is on time starts the requests 333 ms apart, less than
    [1000 / 3]. *)
Lemma starts_closer_than_interval :
  (∃ s, pacer_run [EvAdd 0 1%nat; EvAdd 0 2%nat;
                   EvTimer (200518 # 1000) 0%nat; EvTimer 400 0%nat]
          (pacer_init 5) = Some s ∧
        started s = [((200518 # 1000)%Q, 1%nat); (400%Q, 2%nat)]) ∧
  (∃ s, pacer_run [EvAdd 0 1%nat; EvAdd 0 2%nat; EvTimer 333 0%nat; EvTimer 666 0%nat]
          (pacer_init 3) = Some s ∧
        started s = [(333%Q, 1%nat); (666%Q, 2%nat)]) ∧
  ¬ starts_spaced_by_rate.
Proof.
  split_and!.
  - eexists. split; [vm_compute; reflexivity | reflexivity].
  - eexists. split; [vm_compute; reflexivity | reflexivity].
  - intros H.
    pose (evs := [EvAdd 0 1%nat; EvAdd 0 2%nat;
                  EvTimer (200518 # 1000) 0%nat; EvTimer 400 0%nat]).
    destruct (pacer_run evs (pacer_init 5)) as [s|] eqn:Hrun;
      [|vm_compute in Hrun; discriminate].
    pose proof (H 5%positive evs s Hrun) as Hsp.
    vm_compute in Hrun. injection Hrun as <-.
    specialize (Hsp 0%nat (200518 # 1000)%Q 400%Q eq_refl eq_refl).
    vm_compute in Hsp. by apply Hsp.
Qed.

(** C7 as stated fails: two lookups miss both caches, the timer fires at
    200 ms and at 400 ms, and no response has arrived; both requests have
    been called and neither has finished. *)
Lemma two_requests_in_flight : ¬ single_in_flight sample_builtins.
Proof.
  intros H.
  pose (evs := [WLookup 0 "Hello"; WLookup 0 "World"; WTimer 200 0%nat; WTimer 400 0%nat]).
  destruct (world_run sample_builtins evs world_init) as [w|] eqn:Hrun;
    [|vm_compute in Hrun; discriminate].
  pose proof (H evs w Hrun) as Hle.
  vm_compute in Hrun. injection Hrun as <-. vm_compute in Hle. lia.
Qed.

(** C7 (amended): an event starts at most one request, and when the timer
    fires while the queue is not empty the head of the queue is called,
    whatever is still in flight: the pacer never waits for a request it
    called to finish, so the requests in flight can be many and a slow one
    delays none of the later ones. *)
Theorem pacer_does_not_await_completion {A : Type} `{EqDecision A}
    (s : PacerSys A) (t : Q) (timerId : nat) (tm : Timer) (request : A) (rest : list A) :
  (now s <= t)%Q →
  intervals (pacer s) !! timerId = Some tm →
  (due tm <= t)%Q →
  queue (limiter (pacer s)) = request :: rest →
  (∃ s', pacer_step s (EvTimer t timerId) = Some s' ∧
         queue (limiter (pacer s')) = rest ∧
         started s' = started s ++ [(t, request)] ∧
         inflight s' = inflight s ++ [request]) ∧
  (∀ e s', pacer_step s e = Some s' →
     ∃ new, started s' = started s ++ new ∧ (length new <= 1)%nat).
Proof.
  intros Hnow Hid Hdue Hq. split.
  - unfold pacer_step. simpl.
    apply Qle_bool_iff in Hnow, Hdue. rewrite Hnow, Hid, Hdue. simpl.
    unfold rateLimiter.onInterval. rewrite Hq. simpl.
    eexists. split; [reflexivity|]. simpl. by split_and!.
  - intros e s' Hstep. rewrite (pacer_step_started _ _ _ Hstep).
    eexists. split; [reflexivity|].
    destruct e; simpl; try lia.
    destruct (fst (rateLimiter.onInterval _ _)); simpl; lia.
Qed.

(** The timer fires at 400 ms while the request started at 200 ms is still
    in flight: the second request starts all the same. *)
Lemma pacer_does_not_await_completion_witness :
  ∃ s, pacer_run [EvAdd 0 1%nat; EvAdd 0 2%nat; EvTimer 200 0%nat] (pacer_init 5) = Some s ∧
       inflight s = [1%nat] ∧
       ∃ s', pacer_step s (EvTimer 400 0%nat) = Some s' ∧
             inflight s' = [1%nat; 2%nat].
Proof.
  eexists. split; [vm_compute; reflexivity|]. split; [reflexivity|].
  match goal with
  | |- ∃ s', pacer_step ?s _ = _ ∧ _ =>
      destruct (pacer_does_not_await_completion s 400 0%nat
                  (mkTimer 200 200) 2%nat [])
        as [(s' & Hstep & _ & _ & Hin) _];
      [vm_compute; discriminate | reflexivity | vm_compute; discriminate
      | reflexivity |]
  end.
  exists s'. split; [exact Hstep | exact Hin].
Defined.

Lemma map_app_inv_tail {X Y Z : Type} (f : X → Z) (g : Y → Z)
    (l1 n1 : list X) (l2 n2 : list Y) :
  map f l1 = map g l2 →
  map f (l1 ++ n1) = map g (l2 ++ n2) →
  map f n1 = map g n2.
Proof.
  intros H1 H2. rewrite !map_app, H1 in H2. by apply app_inv_head in H2.
Qed.

(** C10 (amended): [add] calls nothing, whatever the state.  When the drain
    loop is off at the time of an [add] (the queue then goes from empty to
    non-empty and the loop starts), every request that starts afterwards
    starts at least the timer's delay, the whole part of [1000 / rps]
    milliseconds, after the [add].  For the service worker: a lookup that
    misses both caches while the loop is off makes no [fetch] itself, and
    every [fetch] made afterwards is made at least 200 ms later (the rate is
    five per second). *)
Theorem enqueue_waits_one_interval :
  (∀ (A : Type) (EqA : EqDecision A) (s s1 : PacerSys A) (t : Q) (request : A),
     pacer_step s (EvAdd t request) = Some s1 →
     started s1 = started s ∧ inflight s1 = inflight s ∧
     queue (limiter (pacer s1)) = queue (limiter (pacer s)) ++ [request]) ∧
  (∀ (A : Type) (EqA : EqDecision A) (rps : positive)
     (evs : list (PacerEvent A)) (s s1 : PacerSys A) (t : Q) (request : A),
     pacer_run evs (pacer_init rps) = Some s →
     isProcessing (limiter (pacer s)) = false →
     pacer_step s (EvAdd t request) = Some s1 →
     ∀ evs' s2, pacer_run evs' s1 = Some s2 →
       ∃ new, started s2 = started s ++ new ∧
              Forall (fun x => (t + inject_Z (1000 / Z.pos rps) <= fst x)%Q) new) ∧
  (∀ (B : JsBuiltins) (evs : list WorldEvent) (w w1 : World)
     (text : string) (promise : nat),
     world_run B evs world_init = Some w →
     isProcessing (limiter (pacer (sys w))) = false →
     lookupMeaning B text w = (Pending promise, w1) →
     fetches w1 = fetches w ∧
     ∀ evs' w2, world_run B evs' w1 = Some w2 →
       ∃ calls, fetches w2 = fetches w ++ calls ∧
                Forall (fun c => (now (sys w) + 200 <= fetch_time c)%Q) calls).
Proof.
  split_and!.
  - intros A EqA s s1 t request Hadd.
    pose proof (pacer_step_started _ _ _ Hadd) as Hst. simpl in Hst.
    rewrite app_nil_r in Hst. split; [done|].
    unfold pacer_step in Hadd.
    destruct (Qle_bool (now s) (event_time (EvAdd t request))); [|done].
    simpl in Hadd. injection Hadd as <-. simpl. split; [done|].
    apply RL_add_queue.
  - intros A EqA rps evs s s1 t request Hrun Hidle Hadd.
    pose proof (pacer_inv_run rps evs _ _ (pacer_inv_init rps) Hrun) as Hinv.
    destruct (add_when_idle rps s t request s1 Hinv Hidle Hadd)
      as (Hst & Hin & _ & _ & Hnb).
    intros evs' s2 Hrun'.
    rewrite <- Hst.
    eapply (not_before_run rps); [|exact Hnb|exact Hrun'].
    by eapply pacer_inv_step.
  - intros B evs w w1 text promise Hrun Hidle Hlookup.
    destruct (world_inv_run B evs _ _ world_inv_init Hrun) as [[Hp Hlink] _].
    pose proof (lookupMeaning_frame B text w) as (_ & Hf & _ & Hsys).
    rewrite Hlookup in Hf, Hsys. simpl in Hf, Hsys. destruct Hsys as [-> Hsys].
    split; [done|]. intros evs' w2 Hrun'.
    set (request := mkRequest (next_promise w) text (cacheKey_of B text)) in *.
    pose proof (sys_add_step request (sys w)) as Hadd. rewrite <- Hsys in Hadd.
    destruct (add_when_idle _ _ _ _ _ Hp Hidle Hadd) as (Hst & _ & _ & _ & Hnb).
    assert (Hinv1 : world_inv w1).
    { split; [by eapply pacer_inv_step | by rewrite Hf, Hst]. }
    destruct (world_inv_run B evs' _ _ Hinv1 Hrun') as [[Hp2 Hlink2] [calls Hcalls]].
    destruct (world_run_pacer B evs' _ _ Hrun') as [pevs Hpevs].
    destruct (not_before_run _ _ _ _ _ (proj1 Hinv1) Hnb Hpevs) as (new & Hnew & Hall).
    exists calls. rewrite Hcalls, Hf. split; [done|].
    assert (Htimes : map fetch_time calls = map fst new).
    { eapply (map_app_inv_tail _ _ (fetches w1) calls (started (sys w1)) new).
      - by rewrite Hf, Hst.
      - by rewrite <- Hcalls, <- Hnew. }
    apply Forall_forall. intros c Hc.
    assert (Hin : fetch_time c ∈ map fst new).
    { rewrite <- Htimes. apply list_elem_of_fmap. by exists c. }
    apply list_elem_of_fmap in Hin as (x & Hx & Hxin).
    rewrite Forall_forall in Hall. specialize (Hall x Hxin). simpl in Hall.
    rewrite Hx. rewrite pacer_delay_default in Hall. exact Hall.
Qed.

(** A pacer at five per second, idle at 1000 ms when a request is added;
    and a fresh service worker in which "Hello" is looked up. *)
Lemma enqueue_waits_one_interval_witness :
  (∃ s1, pacer_step (pacer_init 5) (EvAdd 1000 7%nat) = Some s1 ∧
         started s1 = [] ∧
         ∀ evs' s2, pacer_run evs' s1 = Some s2 →
           ∃ new, started s2 = [] ++ new ∧
                  Forall (fun x => (1000 + 200 <= fst x)%Q) new) ∧
  (∃ w1, lookupMeaning sample_builtins "Hello" world_init = (Pending 0, w1) ∧
         fetches w1 = [] ∧
         ∀ evs' w2, world_run sample_builtins evs' w1 = Some w2 →
           ∃ calls, fetches w2 = [] ++ calls ∧
                    Forall (fun c => (0 + 200 <= fetch_time c)%Q) calls).
Proof.
  destruct enqueue_waits_one_interval as (Hadd & Hpacer & Hworld). split.
  - eexists. split; [vm_compute; reflexivity|].
    match goal with
    | |- started ?s1 = _ ∧ _ =>
        destruct (Hadd nat _ (pacer_init 5) s1 1000%Q 7%nat) as (Hst & _ & _);
        [vm_compute; reflexivity|];
        pose proof (Hpacer nat _ 5%positive [] (pacer_init 5) s1 1000%Q 7%nat
                      eq_refl eq_refl eq_refl) as Hlater
    end.
    split; [exact Hst | exact Hlater].
  - eexists. split; [vm_compute; reflexivity|].
    match goal with
    | |- fetches ?w1 = _ ∧ _ =>
        destruct (Hworld sample_builtins [] world_init w1 "Hello" 0%nat)
          as (Hf & Hlater);
        [reflexivity | reflexivity | vm_compute; reflexivity |]
    end.
    split; [exact Hf | exact Hlater].
Defined.

(** C10 as stated fails.  "hello" is looked up at 0 and its fetch begins at
    200 ms; the timer stays registered until a callback finds the queue
    empty, so when "world" is looked up at 399 ms the drain loop is still
    on, and the callback at 400 ms begins its fetch 1 ms after the lookup. *)
Lemma lookup_while_draining_starts_at_once :
  (∃ w, world_run sample_builtins
          [WLookup 0 "hello"; WTimer 200 0%nat; WLookup 399 "world"; WTimer 400 0%nat]
          world_init = Some w ∧
        map fetch_time (fetches w) = [200%Q; 400%Q] ∧
        map fetch_url (fetches w) =
          [(dictionary default_config ++ "hello")%string;
           (dictionary default_config ++ "world")%string]) ∧
  ¬ lookup_waits_one_interval sample_builtins.
Proof.
  split.
  - eexists. split; [vm_compute; reflexivity|]. split; reflexivity.
  - intros H.
    pose (evs := [WLookup 0 "hello"; WTimer 200 0%nat; WIdle 399]).
    destruct (world_run sample_builtins evs world_init) as [w|] eqn:Hrun;
      [|vm_compute in Hrun; discriminate].
    destruct (lookupMeaning sample_builtins "world" w) as [reply w1] eqn:Hlookup.
    destruct (world_run sample_builtins [WTimer 400 0%nat] w1) as [w2|] eqn:Hrun2.
    2:{ vm_compute in Hrun. injection Hrun as <-.
        vm_compute in Hlookup. injection Hlookup as <- <-.
        vm_compute in Hrun2. discriminate. }
    assert (Hreply : reply = Pending 1).
    { vm_compute in Hrun. injection Hrun as <-.
      vm_compute in Hlookup. by injection Hlookup as <- _. }
    subst reply.
    destruct (H evs w "world" 1%nat w1 Hrun Hlookup [WTimer 400 0%nat] w2 Hrun2)
      as (calls & Hcalls & Hall).
    vm_compute in Hrun. injection Hrun as <-.
    vm_compute in Hlookup. injection Hlookup as <-.
    vm_compute in Hrun2. injection Hrun2 as <-.
    simpl in Hcalls. injection Hcalls as <-.
    apply Forall_cons in Hall as [Hlate _].
    vm_compute in Hlate. by apply Hlate.
Qed.

(** ** Claims about the normalizer *)





(** ** Scenarios *)

(** After the back-fill of the spec's "hello" scenario, looking the term up
    again (in any letter case) is answered by the session cache and enqueues
    nothing. *)
Example lookup_again_hits_session :
  let rawData :=
    VArr [VObj [("word", VStr "hello");
                ("meanings",
                 VArr [VObj [("definitions", VArr [VObj [("definition", VStr "A greeting")]]);
                             ("synonyms", VArr [VStr "hi"]);
                             ("antonyms", VArr [])]])]] in
  let events :=
    [WLookup 0 "hello"; WTimer 200 0%nat;
     WResponse 250 (mkRequest 0 "hello" "meaning_hello")
       (FetchResponds true 200 (Return rawData))] in
  ∃ w, world_run sample_builtins events world_init = Some w ∧
       LRU.has "meaning_hello" (sessionCache w) = true ∧
       is_Some (items (storage w) !! "meaning_hello") ∧
       ∃ data, fst (lookupMeaning sample_builtins "Hello" w) =
                 Resolved (session_result data) ∧
               get_prop data "meaning" = Return (VStr "A greeting") ∧
               sys (snd (lookupMeaning sample_builtins "Hello" w)) = sys w.
Proof.
  intros rawData events. eexists. split; [vm_compute; reflexivity|].
  split; [reflexivity|]. split; [by eexists|].
  eexists. split; [vm_compute; reflexivity|]. split; reflexivity.
Qed.

(** The error log keeps the 100 newest of 105 records, newest first. *)
Example errorLogs_keep_the_newest :
  let logs :=
    fold_left (fun acc i => logError (Z.of_nat i) "test" VNull acc) (seq 0 105) [] in
  length logs = 100%nat ∧
  map timestamp (take 2 logs) = [104; 103] ∧
  (timestamp <$> last logs) = Some 5.
Proof. vm_compute. done. Qed.

(** Outside the dictionary shape the normalizer throws: on a [null] first
    result, and on [synonyms] that is not an array.  The closure of
    [lookupMeaning] catches the error, logs it and resolves with the failure
    result; nothing is cached. *)
Example sanitize_throws_on_malformed_response :
  let request := mkRequest 0 "x" "meaning_x" in
  let w := finishRequest sample_builtins request
             (FetchResponds true 200 (Return (VArr [VNull]))) world_init in
  (∃ e, sanitizeDictionaryResponse (VArr [VNull]) = Throw e) ∧
  (∃ e, sanitizeDictionaryResponse
          (VArr [VObj [("meanings",
                        VArr [VObj [("definitions", VArr [VObj [("definition", VStr "d")]]);
                                    ("synonyms", VStr "s")]])]]) = Throw e) ∧
  settled w = [(0%nat, failure_result (VStr "Failed to fetch definition."))] ∧
  map source (errorLogs w) = ["api.lookupMeaning (Primary)"] ∧
  cache (sessionCache w) = [] ∧
  items (storage w) = ∅.
Proof. intros request w. split_and!; try by eexists. Qed.

(** * Further properties *)

(** ** The LRU cache under arbitrary operations *)

Section MoreLRU.

Implicit Types (m : JsMap.t) (k : string) (v : JsVal) (c : LRUCache).

Lemma JsMap_get_set_eq k v m : JsMap.get k (JsMap.set k v m) = v.
Proof.
  induction m as [|[k' v'] m IH]; simpl.
  - by rewrite String.eqb_refl.
  - destruct (String.eqb k' k) eqn:Hk; simpl; by rewrite Hk.
Qed.

Lemma JsMap_has_set_eq k v m : JsMap.has k (JsMap.set k v m) = true.
Proof.
  induction m as [|[k' v'] m IH]; simpl.
  - by rewrite String.eqb_refl.
  - destruct (String.eqb k' k) eqn:Hk; simpl; by rewrite Hk.
Qed.

Lemma JsMap_get_set_ne k k' v m :
  k ≠ k' → JsMap.get k' (JsMap.set k v m) = JsMap.get k' m.
Proof.
  intros Hne. induction m as [|[k0 v0] m IH]; simpl.
  - destruct (String.eqb_spec k k'); done.
  - destruct (String.eqb_spec k0 k) as [->|]; simpl.
    + destruct (String.eqb_spec k k'); done.
    + by rewrite IH.
Qed.

Lemma JsMap_has_set_ne k k' v m :
  k ≠ k' → JsMap.has k' (JsMap.set k v m) = JsMap.has k' m.
Proof.
  intros Hne. induction m as [|[k0 v0] m IH]; simpl.
  - destruct (String.eqb_spec k k'); done.
  - destruct (String.eqb_spec k0 k) as [->|]; simpl.
    + destruct (String.eqb_spec k k'); done.
    + by rewrite IH.
Qed.

Lemma JsMap_get_delete_ne k k' m :
  k ≠ k' → JsMap.get k' (JsMap.delete k m) = JsMap.get k' m.
Proof.
  intros Hne. induction m as [|[k0 v0] m IH]; simpl; [done|].
  destruct (String.eqb_spec k0 k) as [->|]; simpl.
  - destruct (String.eqb_spec k k'); done.
  - by rewrite IH.
Qed.

Lemma JsMap_has_delete_ne k k' m :
  k ≠ k' → JsMap.has k' (JsMap.delete k m) = JsMap.has k' m.
Proof.
  intros Hne. induction m as [|[k0 v0] m IH]; simpl; [done|].
  destruct (String.eqb_spec k0 k) as [->|]; simpl.
  - destruct (String.eqb_spec k k'); done.
  - by rewrite IH.
Qed.

Lemma JsMap_keys_set k v m :
  JsMap.keys (JsMap.set k v m) =
  if JsMap.has k m then JsMap.keys m else JsMap.keys m ++ [k].
Proof.
  induction m as [|[k0 v0] m IH]; simpl; [done|].
  destruct (String.eqb k0 k); simpl; [done|].
  rewrite IH. by destruct (JsMap.has k m).
Qed.

Lemma JsMap_keys_delete_sublist k m :
  JsMap.keys (JsMap.delete k m) `sublist_of` JsMap.keys m.
Proof.
  induction m as [|[k0 v0] m IH]; simpl; [done|].
  destruct (String.eqb k0 k); simpl.
  - by apply sublist_cons.
  - by apply sublist_skip.
Qed.

Lemma JsMap_length_delete k m :
  (length (JsMap.delete k m) <= length m)%nat ∧
  (JsMap.has k m = true → S (length (JsMap.delete k m)) = length m).
Proof.
  induction m as [|[k0 v0] m [IH1 IH2]]; simpl; [done|].
  destruct (String.eqb k0 k); simpl; split; try lia.
  intros H. rewrite <- (IH2 H). done.
Qed.

Lemma JsMap_NoDup_delete k m :
  NoDup (JsMap.keys m) → NoDup (JsMap.keys (JsMap.delete k m)).
Proof. intros H. by eapply sublist_NoDup; [|apply JsMap_keys_delete_sublist]. Qed.

Lemma JsMap_has_delete_eq k m :
  NoDup (JsMap.keys m) → JsMap.has k (JsMap.delete k m) = false.
Proof.
  induction m as [|[k0 v0] m IH]; simpl; [done|].
  intros [Hk0 Hnd]%NoDup_cons.
  destruct (String.eqb_spec k0 k) as [->|Hne]; simpl.
  - by apply JsMap_has_false.
  - destruct (String.eqb_spec k0 k); [done|]. by apply IH.
Qed.

Lemma JsMap_NoDup_set k v m :
  NoDup (JsMap.keys m) → NoDup (JsMap.keys (JsMap.set k v m)).
Proof.
  intros Hnd. rewrite JsMap_keys_set. destruct (JsMap.has k m) eqn:Hk; [done|].
  apply NoDup_app. split_and!; [done | | apply NoDup_singleton].
  intros x Hx Hx'. apply list_elem_of_singleton in Hx' as ->.
  by apply JsMap_has_false in Hk.
Qed.

Lemma JsMap_length_set k v m :
  length (JsMap.set k v m) =
  if JsMap.has k m then length m else S (length m).
Proof.
  induction m as [|[k0 v0] m IH]; simpl; [done|].
  destruct (String.eqb k0 k); simpl; [done|].
  rewrite IH. by destruct (JsMap.has k m).
Qed.


Lemma LRU_get_NoDup k c :
  NoDup (JsMap.keys (cache c)) →
  NoDup (JsMap.keys (cache (snd (LRU.get k c)))) ∧
  JsMap.size (cache (snd (LRU.get k c))) = JsMap.size (cache c) ∧
  maxSize (snd (LRU.get k c)) = maxSize c.
Proof.
  intros Hnd. unfold LRU.get. destruct (JsMap.has k (cache c)) eqn:Hhas; simpl; [|done].
  split_and!; [|unfold JsMap.size|done].
  - by apply JsMap_NoDup_set, JsMap_NoDup_delete.
  - rewrite JsMap_length_set, JsMap_has_delete_eq by done.
    destruct (JsMap_length_delete k (cache c)) as [_ Hlen]. rewrite (Hlen Hhas). done.
Qed.

Lemma LRU_set_NoDup k v c :
  NoDup (JsMap.keys (cache c)) →
  NoDup (JsMap.keys (cache (LRU.set k v c))) ∧
  (JsMap.size (cache (LRU.set k v c)) <=
     Z.max (JsMap.size (cache c)) (Z.max (maxSize c) 1))%Z ∧
  maxSize (LRU.set k v c) = maxSize c.
Proof.
  intros Hnd. unfold LRU.set. simpl. split_and!; [| |done].
  - apply JsMap_NoDup_set.
    destruct (JsMap.size (cache c) >=? maxSize c)%Z; [|done].
    destruct (JsMap.first_key (cache c)); simpl; [|done].
    by apply JsMap_NoDup_delete.
  - unfold JsMap.size. rewrite JsMap_length_set.
    destruct (Z.geb_spec (Z.of_nat (length (cache c))) (maxSize c)) as [Hfull|Hfree].
    + destruct (cache c) as [|[k0 v0] m]; simpl.
      * lia.
      * rewrite String.eqb_refl. destruct (JsMap.has k m); simpl; lia.
    + destruct (JsMap.has k (cache c)); lia.
Qed.

Lemma cache_run_snoc ops op c :
  cache_run (ops ++ [op]) c = apply_op op (cache_run ops c).
Proof. unfold cache_run. by rewrite fold_left_app. Qed.

Lemma cache_run_inv N ops :
  maxSize (cache_run ops (LRU.new N)) = N ∧
  NoDup (JsMap.keys (cache (cache_run ops (LRU.new N)))) ∧
  (JsMap.size (cache (cache_run ops (LRU.new N))) <= Z.max N 1)%Z.
Proof.
  induction ops as [|op ops IH] using rev_ind.
  - split_and!; [done | constructor | unfold JsMap.size; simpl; lia].
  - rewrite cache_run_snoc. destruct IH as (Hmax & Hnd & Hsz).
    destruct op as [k|k v]; cbn [apply_op].
    + destruct (LRU_get_NoDup k _ Hnd) as (Hnd' & Hsz' & Hmax').
      rewrite Hmax', Hsz'. by split_and!.
    + destruct (LRU_set_NoDup k v _ Hnd) as (Hnd' & Hsz' & Hmax').
      rewrite Hmax'. split_and!; [done..|]. rewrite Hmax in Hsz'. lia.
Qed.

End MoreLRU.

(** X1: whatever [get]s and [set]s are applied to a fresh cache of capacity
    [N], overwrites of present keys included, the cache never holds more
    than [max N 1] entries and never holds a key twice. *)
Theorem LRU_capacity_bound (N : Z) (ops : list CacheOp) :
  let c := cache_run ops (LRU.new N) in
  (JsMap.size (cache c) <= Z.max N 1)%Z ∧ NoDup (JsMap.keys (cache c)).
Proof. intros c. destruct (cache_run_inv N ops) as (_ & Hnd & Hsz). by split. Qed.

(** X2: a [get] right after [set(key, value)] returns [value], in every
    cache state and for every capacity (the entry just written is never the
    one evicted); a [get] of a key that is not cached returns [null] and
    leaves the cache as it is. *)
Theorem LRU_set_then_get (c : LRUCache) (key : string) (value : JsVal) :
  LRU.has key (LRU.set key value c) = true ∧
  fst (LRU.get key (LRU.set key value c)) = value ∧
  (LRU.has key c = false → LRU.get key c = (VNull, c)).
Proof.
  unfold LRU.has, LRU.get, LRU.set. simpl.
  rewrite JsMap_has_set_eq. simpl. rewrite JsMap_get_set_eq.
  split_and!; [done..|]. by intros ->.
Qed.

(** A cache of capacity 1 that already holds "a": "b" is written, read
    back, and "a", evicted by that, is missed. *)
Lemma LRU_set_then_get_witness :
  let c := LRU.set "a" (VStr "1") (LRU.new 1) in
  let c' := LRU.set "b" (VStr "2") c in
  fst (LRU.get "b" c') = VStr "2" ∧ LRU.get "a" c' = (VNull, c').
Proof.
  intros c c'.
  destruct (LRU_set_then_get c "b" (VStr "2")) as (_ & Hget & _).
  destruct (LRU_set_then_get c' "a" VNull) as (_ & _ & Hmiss).
  split; [exact Hget | apply Hmiss; reflexivity].
Defined.

(** X3: a [get], hit or miss, changes only the order of the map: in every
    cache reached from a fresh one, every key is present after it exactly
    when it was before, with the same value, and the size is the same. *)
Theorem LRU_get_keeps_contents (N : Z) (ops : list CacheOp) (key k' : string) :
  let c := cache_run ops (LRU.new N) in
  let c' := snd (LRU.get key c) in
  JsMap.has k' (cache c') = JsMap.has k' (cache c) ∧
  JsMap.get k' (cache c') = JsMap.get k' (cache c) ∧
  JsMap.size (cache c') = JsMap.size (cache c).
Proof.
  intros c c'. destruct (cache_run_inv N ops) as (_ & Hnd & _). fold c in Hnd.
  destruct (LRU_get_NoDup key c Hnd) as (_ & Hsz & _).
  split_and!; [| |done]; subst c'; unfold LRU.get;
    destruct (JsMap.has key (cache c)) eqn:Hhas; simpl; try done.
  - destruct (decide (key = k')) as [<-|Hne].
    + by rewrite JsMap_has_set_eq.
    + by rewrite JsMap_has_set_ne, JsMap_has_delete_ne.
  - destruct (decide (key = k')) as [<-|Hne].
    + by rewrite JsMap_get_set_eq.
    + by rewrite JsMap_get_set_ne, JsMap_get_delete_ne.
Qed.

(** X4: the footprint of [set(key, value)] on the other keys, in every
    cache reached from a fresh one: a key other than [key] that is present
    afterwards was present before with the same value, and one that is
    gone afterwards was the first key of the map, removed while the cache
    was at capacity. *)
Theorem LRU_set_footprint
    (N : Z) (ops : list CacheOp) (key : string) (value : JsVal) (k' : string) :
  let c := cache_run ops (LRU.new N) in
  let c' := LRU.set key value c in
  k' ≠ key →
  (JsMap.has k' (cache c') = true →
     JsMap.has k' (cache c) = true ∧
     JsMap.get k' (cache c') = JsMap.get k' (cache c)) ∧
  (JsMap.has k' (cache c) = true → JsMap.has k' (cache c') = false →
     JsMap.first_key (cache c) = Some k' ∧
     (maxSize c <= JsMap.size (cache c))%Z).
Proof.
  intros c c' Hne. destruct (cache_run_inv N ops) as (_ & Hnd & _). fold c in Hnd.
  subst c'. unfold LRU.set. simpl.
  rewrite JsMap_has_set_ne, JsMap_get_set_ne by done.
  destruct (Z.geb_spec (JsMap.size (cache c)) (maxSize c)) as [Hfull|Hfree].
  2:{ split; [done|]. intros H1 H2. congruence. }
  destruct (cache c) as [|[k0 v0] m] eqn:Hc; simpl.
  { split; [done|]. intros H1 H2. congruence. }
  rewrite String.eqb_refl. simpl in Hnd. apply NoDup_cons in Hnd as [Hk0 Hnd].
  destruct (String.eqb_spec k0 k') as [->|Hk0'].
  - split; [|done]. intros Hin. apply JsMap_has_keys in Hin. done.
  - split; [done|]. intros H1 H2. congruence.
Qed.

(** A cache of capacity 2 holding "a" and "b": writing "c" removes "a",
    the first key, and keeps "b" with its value. *)
Lemma LRU_set_footprint_witness :
  let ops := [OpSet "a" (VStr "1"); OpSet "b" (VStr "2")] in
  let c := cache_run ops (LRU.new 2) in
  let c' := LRU.set "c" (VStr "3") c in
  JsMap.get "b" (cache c') = VStr "2" ∧
  JsMap.first_key (cache c) = Some "a".
Proof.
  intros ops c c'.
  destruct (LRU_set_footprint 2 ops "c" (VStr "3") "b" ltac:(discriminate))
    as [Hkept _].
  destruct (LRU_set_footprint 2 ops "c" (VStr "3") "a" ltac:(discriminate))
    as [_ Hgone].
  split.
  - destruct (Hkept eq_refl) as [_ Heq]. etrans; [exact Heq | reflexivity].
  - destruct (Hgone eq_refl eq_refl) as [Hfirst _]. exact Hfirst.
Defined.

(** ** The error log *)

Lemma obj_get_obj_set_eq name v fields : obj_get name (obj_set name v fields) = v.
Proof.
  induction fields as [|[k v'] fields IH]; simpl.
  - by rewrite String.eqb_refl.
  - destruct (String.eqb k name) eqn:Hk; simpl; by rewrite Hk.
Qed.

Lemma obj_get_obj_set_ne name name' v fields :
  name ≠ name' → obj_get name' (obj_set name v fields) = obj_get name' fields.
Proof.
  intros Hne. induction fields as [|[k v'] fields IH]; simpl.
  - destruct (String.eqb_spec name name'); done.
  - destruct (String.eqb_spec k name) as [->|]; simpl.
    + destruct (String.eqb_spec name name'); done.
    + by rewrite IH.
Qed.

(** X5: on a log within its bound, [logError] puts the new record first,
    keeps the older records in their order and drops only the oldest one
    when the log is full; the log stays within [maxLogSize]. *)
Theorem logError_ring_buffer
    (now : Z) (source : string) (details : JsVal) (logs : list ErrorRecord) :
  (length logs <= maxLogSize)%nat →
  logError now source details logs =
    take maxLogSize (mkErrorRecord now source (processedDetails details) :: logs) ∧
  (length (logError now source details logs) <= maxLogSize)%nat.
Proof.
  intros Hlen. split; [|by apply logError_length].
  unfold logError.
  destruct (Nat.ltb_spec maxLogSize
              (length (mkErrorRecord now source (processedDetails details) :: logs)))
    as [Hfull|Hroom].
  - rewrite removelast_firstn_len. f_equal. simpl in *. lia.
  - by rewrite take_ge.
Qed.

(** A full log of 100 records with timestamps 100 down to 1: the new record
    comes first and the record stamped 1 is dropped. *)
Lemma logError_ring_buffer_witness :
  let logs := map (fun i => mkErrorRecord (Z.of_nat (100 - i)) "old" VNull) (seq 0 100) in
  let logs' := logError 101 "new" VNull logs in
  length logs' = 100%nat ∧
  map timestamp (take 2 logs') = [101; 100] ∧
  (timestamp <$> last logs') = Some 2.
Proof.
  intros logs logs'.
  destruct (logError_ring_buffer 101 "new" VNull logs) as [Heq _].
  { vm_compute. lia. }
  subst logs'. rewrite Heq. vm_compute. done.
Defined.

(** When [details.error] is a native [Error], the stored record holds a
    plain object with that error's [message] and [stack] in its place and
    every other property of [details] unchanged; any other [details] is
    stored as it is. *)
Theorem logError_flattens_native_errors
    (now : Z) (source : string) (details : JsVal) (logs : list ErrorRecord) :
  ∃ stored older,
    logError now source details logs = mkErrorRecord now source stored :: older ∧
    match details with
    | VObj fields =>
        match obj_get "error" fields with
        | VError message stack =>
            ∃ fields', stored = VObj fields' ∧
              obj_get "error" fields' =
                VObj [("message", VStr message); ("stack", VStr stack)] ∧
              ∀ name, name ≠ "error" → obj_get name fields' = obj_get name fields
        | _ => stored = details
        end
    | _ => stored = details
    end.
Proof.
  destruct (logError_head now source details logs) as [older ->].
  exists (processedDetails details), older. split; [done|].
  destruct details; simpl; try done.
  destruct (obj_get "error" fields) eqn:Herr; try done.
  eexists. split; [reflexivity|]. split.
  - apply obj_get_obj_set_eq.
  - intros name Hne. apply obj_get_obj_set_ne. congruence.
Qed.

(** ** More on the persistent cache *)

(** X6: a rejected write is swallowed: [persistentCache.set] leaves the
    store as it is and logs a record with source "persistentCache.set"; the
    lookup that was writing its record still resolves with
    [source: 'api'] and has the record in the session cache. *)
Theorem persistentCache_set_failure_is_silent :
  (∀ (T : Z) (key : string) (v : JsVal) (now : Z) (st : ChromeStorage)
     (logs : list ErrorRecord) (e : JsVal),
     set_rejects st = Some e →
     ∃ older,
       persistentCache_set T key v now st logs =
       (st, mkErrorRecord now "persistentCache.set"
              (processedDetails (VObj [("error", e)])) :: older)) ∧
  (∀ (B : JsBuiltins) (request : Request) (w : World) (status : Z)
     (rawData record e : JsVal),
     set_rejects (storage w) = Some e →
     sanitizeDictionaryResponse rawData = Return record →
     truthy record = true →
     let w' := finishRequest B request
                 (FetchResponds true status (Return rawData)) w in
     settled w' = settled w ++ [(req_promise request, api_result record)] ∧
     sessionCache w' = LRU.set (req_cacheKey request) record (sessionCache w) ∧
     storage w' = storage w ∧
     ∃ older,
       errorLogs w' =
       mkErrorRecord (clock w) "persistentCache.set"
         (processedDetails (VObj [("error", e)])) :: older).
Proof.
  assert (Hset : ∀ T key v now st logs e, set_rejects st = Some e →
            ∃ older, persistentCache_set T key v now st logs =
              (st, mkErrorRecord now "persistentCache.set"
                     (processedDetails (VObj [("error", e)])) :: older)).
  { intros T key v now st logs e Hrej.
    unfold persistentCache_set, storage_set. rewrite Hrej.
    destruct (logError_head now "persistentCache.set" (VObj [("error", e)]) logs)
      as [older ->]. by exists older. }
  split; [exact Hset|].
  intros B request w status rawData record e Hrej Hsan Htruthy w'. subst w'.
  unfold finishRequest, primary_attempt. cbn [negb mbind Completion_bind].
  rewrite Hsan, Htruthy.
  destruct (Hset (cacheTTL (config w)) (req_cacheKey request) record (clock w)
              (storage w) (errorLogs w) e Hrej) as [older ->].
  simpl. split_and!; try done. by exists older.
Qed.

(** A store whose writes reject with [new Error("quota")], and the "hello"
    response of the spec. *)
Lemma persistentCache_set_failure_is_silent_witness :
  let e := VError "quota" "" in
  let w := mkWorld default_config (LRU.new 50) (mkStorage ∅ None (Some e) None)
             (pacer_init 5) [] [] 1 [] in
  let rawData :=
    VArr [VObj [("word", VStr "hello");
                ("meanings",
                 VArr [VObj [("definitions", VArr [VObj [("definition", VStr "A greeting")]])]])]] in
  let w' := finishRequest sample_builtins (mkRequest 0 "hello" "meaning_hello")
              (FetchResponds true 200 (Return rawData)) w in
  LRU.has "meaning_hello" (sessionCache w') = true ∧
  items (storage w') = ∅ ∧
  map source (errorLogs w') = ["persistentCache.set"].
Proof.
  intros e w rawData w'.
  destruct persistentCache_set_failure_is_silent as [_ H].
  destruct (H sample_builtins (mkRequest 0 "hello" "meaning_hello") w 200%Z rawData
              (VObj [("word", VStr "hello"); ("phonetic", VUndefined);
                     ("meaning", VStr "A greeting");
                     ("synonyms", VArr []); ("antonyms", VArr [])])
              e eq_refl eq_refl eq_refl) as (_ & Hsess & Hst & older & Hlog).
  fold w' in Hsess, Hst, Hlog. split_and!.
  - rewrite Hsess. reflexivity.
  - rewrite Hst. reflexivity.
  - rewrite Hlog. vm_compute in Hlog. by injection Hlog as <-.
Defined.

(** X7: when an entry has expired and the removal from the backing store
    rejects, [persistentCache.get] still returns [null], logs a record with
    source "persistentCache.get", and the expired entry stays in the
    store. *)
Theorem persistentCache_get_remove_failure
    (key : string) (now : Z) (st : ChromeStorage) (logs : list ErrorRecord)
    (item : Item) (e : JsVal) :
  get_rejects st = None →
  items st !! key = Some item →
  (now > expires item)%Z →
  remove_rejects st = Some e →
  ∃ older,
    persistentCache_get key now st logs =
    (VNull, st,
     mkErrorRecord now "persistentCache.get"
       (processedDetails (VObj [("error", e)])) :: older).
Proof.
  intros Hget Hitem Hexp Hrem.
  unfold persistentCache_get, storage_get, storage_remove.
  rewrite Hget, Hitem. simpl.
  destruct (Z.gtb_spec now (expires item)); [|lia].
  rewrite Hrem. simpl.
  destruct (logError_head now "persistentCache.get" (VObj [("error", e)]) logs)
    as [older ->]. by exists older.
Qed.

Lemma persistentCache_get_remove_failure_witness :
  let st := mkStorage {[ "meaning_hello" := mkItem (VStr "A greeting") 1500 ]}
              None None (Some (VStr "locked")) in
  ∃ older,
    persistentCache_get "meaning_hello" 2000 st [] =
    (VNull, st,
     mkErrorRecord 2000 "persistentCache.get" (VObj [("error", VStr "locked")])
       :: older).
Proof.
  intros st.
  apply (persistentCache_get_remove_failure "meaning_hello" 2000 st []
           (mkItem (VStr "A greeting") 1500) (VStr "locked")).
  - reflexivity.
  - apply lookup_singleton_eq.
  - simpl. lia.
  - reflexivity.
Defined.

(** The persistent cache touches one key at a time: a [get] or a [set]
    of [key] leaves every other key of the store as it was, a [get] never
    adds or alters the entry under [key] (it is kept or deleted), and
    neither changes whether the store's calls reject. *)
Theorem persistentCache_frame
    (T : Z) (key key' : string) (v : JsVal) (now : Z)
    (st : ChromeStorage) (logs : list ErrorRecord) :
  let st_get := snd (fst (persistentCache_get key now st logs)) in
  let st_set := fst (persistentCache_set T key v now st logs) in
  (key' ≠ key →
     items st_get !! key' = items st !! key' ∧
     items st_set !! key' = items st !! key') ∧
  (items st_get !! key = items st !! key ∨ items st_get !! key = None) ∧
  (get_rejects st_get, set_rejects st_get, remove_rejects st_get) =
    (get_rejects st, set_rejects st, remove_rejects st) ∧
  (get_rejects st_set, set_rejects st_set, remove_rejects st_set) =
    (get_rejects st, set_rejects st, remove_rejects st).
Proof.
  intros st_get st_set. subst st_get st_set.
  unfold persistentCache_get, persistentCache_set, storage_get, storage_set,
    storage_remove.
  destruct (get_rejects st) eqn:Hg, (set_rejects st) eqn:Hs,
    (remove_rejects st) eqn:Hr, (items st !! key) as [item|] eqn:Hi; simpl;
    try destruct (now >? expires item)%Z; simpl;
    rewrite ?Hg, ?Hs, ?Hr;
    (split_and!;
     [ intros Hne; by rewrite ?lookup_insert_ne, ?lookup_delete_ne by done
     | first [by left | right; apply lookup_delete_eq | by right]
     | done | done ]).
Qed.

Lemma persistentCache_frame_witness :
  let st := mkStorage {[ "meaning_a" := mkItem (VStr "x") 10 ]} None None None in
  items (snd (fst (persistentCache_get "meaning_b" 5 st []))) !! "meaning_a" =
    Some (mkItem (VStr "x") 10) ∧
  items (fst (persistentCache_set 100 "meaning_b" (VStr "y") 5 st [])) !! "meaning_a" =
    Some (mkItem (VStr "x") 10).
Proof.
  intros st.
  destruct (persistentCache_frame 100 "meaning_b" "meaning_a" (VStr "y") 5 st [])
    as [Hother _].
  destruct (Hother ltac:(discriminate)) as [Hget Hset].
  split; [etrans; [exact Hget|] | etrans; [exact Hset|]]; apply lookup_singleton_eq.
Defined.

(** X8: the last write wins and renews the expiry: after two accepted
    [set]s of the same key, at [t1] and then at [t2], a [get] no later than
    [t2 + T] returns the second value, even when the first write has
    expired by then. *)
Theorem persistentCache_rewrite_renews_expiry
    (T : Z) (key : string) (v1 v2 : JsVal) (t1 t2 now : Z)
    (st : ChromeStorage) (logs : list ErrorRecord) :
  get_rejects st = None →
  set_rejects st = None →
  remove_rejects st = None →
  (now <= t2 + T)%Z →
  let '(st1, logs1) := persistentCache_set T key v1 t1 st logs in
  let '(st2, logs2) := persistentCache_set T key v2 t2 st1 logs1 in
  persistentCache_get key now st2 logs2 = (v2, st2, logs2).
Proof.
  intros Hget Hset Hrem Hnow.
  rewrite persistentCache_set_ok by done.
  rewrite persistentCache_set_ok by done.
  erewrite persistentCache_get_item; [|done|done|apply lookup_insert_eq].
  simpl. destruct (Z.gtb_spec now (t2 + T)); [lia|done].
Qed.

(** Written at 0 and again at 900 with a time-to-live of 500, read at
    1400: the first write expired at 500, the second is still served. *)
Lemma persistentCache_rewrite_renews_expiry_witness :
  let st := mkStorage ∅ None None None in
  let st1 := fst (persistentCache_set 500 "k" (VStr "old") 0 st []) in
  let st2 := fst (persistentCache_set 500 "k" (VStr "new") 900 st1 []) in
  persistentCache_get "k" 1400 st2 [] = (VStr "new", st2, []).
Proof.
  intros st st1 st2.
  pose proof (persistentCache_rewrite_renews_expiry 500 "k" (VStr "old") (VStr "new")
                0 900 1400 st [] eq_refl eq_refl eq_refl ltac:(lia)) as H.
  exact H.
Defined.

(** ** More on the lookup orchestrator *)

Section MoreLookup.

Variable B : JsBuiltins.

Lemma LRU_get_set_eq key value c :
  LRU.get key (LRU.set key value c) =
  (value, snd (LRU.get key (LRU.set key value c))).
Proof.
  unfold LRU.get, LRU.set. simpl. rewrite JsMap_has_set_eq. simpl.
  by rewrite JsMap_get_set_eq.
Qed.

Lemma LRU_get_get key c :
  fst (LRU.get key (snd (LRU.get key c))) = fst (LRU.get key c).
Proof.
  unfold LRU.get. destruct (JsMap.has key (cache c)) eqn:Hhas; simpl.
  - by rewrite JsMap_has_set_eq, JsMap_get_set_eq.
  - by rewrite Hhas.
Qed.

(** Reading the persistent cache again, at the same clock reading and in
    the store the first read left behind, gives a falsy value again when
    the first read gave one. *)
Lemma persistentCache_get_again key now st logs :
  let '(v, st1, logs1) := persistentCache_get key now st logs in
  truthy v = false →
  truthy (fst (fst (persistentCache_get key now st1 logs1))) = false.
Proof.
  unfold persistentCache_get, storage_get, storage_remove.
  destruct (get_rejects st) eqn:Hg; simpl.
  { rewrite Hg. done. }
  destruct (items st !! key) as [item|] eqn:Hi; simpl.
  2:{ rewrite Hg, Hi. done. }
  destruct (now >? expires item)%Z eqn:Hexp; simpl.
  - destruct (remove_rejects st) eqn:Hr; simpl.
    + rewrite Hg, Hi. simpl. rewrite Hexp, Hr. done.
    + rewrite lookup_delete_eq. done.
  - rewrite Hg, Hi. simpl. rewrite Hexp. done.
Qed.

Lemma lookupMeaning_miss text w :
  truthy (fst (LRU.get (cacheKey_of B text) (sessionCache w))) = false →
  truthy (fst (fst (persistentCache_get (cacheKey_of B text) (clock w)
                      (storage w) (errorLogs w)))) = false →
  lookupMeaning B text w = (Pending (next_promise w), miss_world B text w).
Proof.
  unfold lookupMeaning, miss_world.
  destruct (LRU.get _ _) as [hit1 session1]. simpl. intros ->.
  destruct (persistentCache_get _ _ _ _) as [[hit2 storage1] logs1]. simpl.
  by intros ->.
Qed.

Lemma lookupMeaning_pending_inv text w p :
  fst (lookupMeaning B text w) = Pending p →
  truthy (fst (LRU.get (cacheKey_of B text) (sessionCache w))) = false ∧
  truthy (fst (fst (persistentCache_get (cacheKey_of B text) (clock w)
                      (storage w) (errorLogs w)))) = false.
Proof.
  unfold lookupMeaning.
  destruct (LRU.get _ _) as [hit1 session1]. simpl.
  destruct (truthy hit1); [discriminate|].
  destruct (persistentCache_get _ _ _ _) as [[hit2 storage1] logs1]. simpl.
  by destruct (truthy hit2).
Qed.

End MoreLookup.

(** X9: when the fetch of a queued lookup rejects with an [Error], or its
    response is not ok, the lookup resolves with
    [{success: false, error: 'Failed to fetch definition.'}], one record
    with source "api.lookupMeaning (Primary)" carrying the looked-up text
    and the error's message is logged, and neither cache is written. *)
Theorem lookup_upstream_failure
    (B : JsBuiltins) (request : Request) (outcome : FetchOutcome) (w : World) :
  let message :=
    match outcome with
    | FetchRejects (VError message _) => Some message
    | FetchResponds false status _ =>
        Some ("HTTP error! status: " ++ ToString B (VNum (inject_Z status)))%string
    | _ => None
    end in
  ∀ m, message = Some m →
  let w' := finishRequest B request outcome w in
  settled w' =
    settled w ++
    [(req_promise request,
      VObj [("success", VBool false);
            ("error", VStr "Failed to fetch definition.")])] ∧
  sessionCache w' = sessionCache w ∧
  storage w' = storage w ∧
  ∃ older,
    errorLogs w' =
    mkErrorRecord (clock w) "api.lookupMeaning (Primary)"
      (VObj [("text", VStr (req_text request)); ("error", VStr m)]) :: older.
Proof.
  intros message m Hm w'. subst w' message.
  assert (Hthrow : ∃ stack, primary_attempt B outcome = Throw (VError m stack)).
  { destruct outcome as [e|[] status json]; simpl in *; try discriminate.
    - destruct e; try discriminate. injection Hm as ->. by eexists.
    - injection Hm as <-. by eexists. }
  destruct Hthrow as [stack Hthrow].
  unfold finishRequest. rewrite Hthrow. simpl.
  destruct (logError_head (clock w) "api.lookupMeaning (Primary)"
              (VObj [("text", VStr (req_text request)); ("error", VStr m)])
              (errorLogs w)) as [older ->].
  split_and!; try done. by exists older.
Qed.

(** A 404 answer to the lookup of "zzz". *)
Lemma lookup_upstream_failure_witness :
  let w' := finishRequest sample_builtins (mkRequest 0 "zzz" "meaning_zzz")
              (FetchResponds false 404 (Return VNull)) world_init in
  settled w' =
    [(0%nat, VObj [("success", VBool false);
                   ("error", VStr "Failed to fetch definition.")])] ∧
  errorLogs w' =
    [mkErrorRecord 0 "api.lookupMeaning (Primary)"
       (VObj [("text", VStr "zzz"); ("error", VStr "HTTP error! status: 404")])].
Proof.
  intros w'.
  destruct (lookup_upstream_failure sample_builtins (mkRequest 0 "zzz" "meaning_zzz")
              (FetchResponds false 404 (Return VNull)) world_init
              "HTTP error! status: 404" eq_refl) as (Hs & _ & _ & older & Hlog).
  fold w' in Hs, Hlog. split; [exact Hs|].
  rewrite Hlog. vm_compute in Hlog. by injection Hlog as <-.
Defined.

(** X10: when the response is ok and its body normalizes to no definition,
    the lookup resolves with the same failure result, nothing is logged and
    neither cache is written. *)
Theorem lookup_not_found_is_not_logged
    (B : JsBuiltins) (request : Request) (status : Z) (rawData : JsVal) (w : World) :
  sanitizeDictionaryResponse rawData = Return VNull →
  let w' := finishRequest B request (FetchResponds true status (Return rawData)) w in
  settled w' =
    settled w ++
    [(req_promise request,
      VObj [("success", VBool false);
            ("error", VStr "Failed to fetch definition.")])] ∧
  errorLogs w' = errorLogs w ∧
  sessionCache w' = sessionCache w ∧
  storage w' = storage w.
Proof.
  intros Hsan w'. subst w'.
  unfold finishRequest, primary_attempt. cbn [negb mbind Completion_bind].
  rewrite Hsan. done.
Qed.

Lemma lookup_not_found_is_not_logged_witness :
  let w' := finishRequest sample_builtins (mkRequest 0 "zzz" "meaning_zzz")
              (FetchResponds true 200 (Return (VArr []))) world_init in
  errorLogs w' = [] ∧ cache (sessionCache w') = [].
Proof.
  intros w'.
  destruct (lookup_not_found_is_not_logged sample_builtins
              (mkRequest 0 "zzz" "meaning_zzz") 200 (VArr []) world_init eq_refl)
    as (_ & Hlog & Hsess & _).
  fold w' in Hlog, Hsess. by rewrite Hlog, Hsess.
Defined.

(** X11: once a lookup has been answered from the network with a usable
    record, looking the same text up again is answered from the session
    cache with that record: nothing is enqueued, no fetch is made and the
    store is not read. *)
Theorem lookup_again_is_a_session_hit
    (B : JsBuiltins) (text : string) (promise : nat) (status : Z)
    (rawData record : JsVal) (w : World) :
  sanitizeDictionaryResponse rawData = Return record →
  truthy record = true →
  let request := mkRequest promise text (cacheKey_of B text) in
  let w1 := finishRequest B request (FetchResponds true status (Return rawData)) w in
  let w2 := snd (lookupMeaning B text w1) in
  fst (lookupMeaning B text w1) =
    Resolved (VObj [("success", VBool true); ("data", record);
                    ("source", VStr "session")]) ∧
  sys w2 = sys w1 ∧ fetches w2 = fetches w1 ∧
  storage w2 = storage w1 ∧ errorLogs w2 = errorLogs w1.
Proof.
  intros Hsan Htruthy request w1 w2.
  assert (Hsess : sessionCache w1 = LRU.set (cacheKey_of B text) record (sessionCache w)).
  { subst w1. unfold finishRequest, primary_attempt.
    cbn [negb mbind Completion_bind]. rewrite Hsan, Htruthy.
    by destruct (persistentCache_set _ _ _ _ _ _). }
  subst w2. unfold lookupMeaning. rewrite Hsess, LRU_get_set_eq, Htruthy. done.
Qed.

Lemma lookup_again_is_a_session_hit_witness :
  let rawData :=
    VArr [VObj [("word", VStr "hello");
                ("meanings",
                 VArr [VObj [("definitions", VArr [VObj [("definition", VStr "A greeting")]])]])]] in
  let w1 := finishRequest sample_builtins (mkRequest 0 "Hello" "meaning_hello")
              (FetchResponds true 200 (Return rawData)) world_init in
  ∃ data, fst (lookupMeaning sample_builtins "Hello" w1) =
            Resolved (VObj [("success", VBool true); ("data", data);
                            ("source", VStr "session")]) ∧
          fetches (snd (lookupMeaning sample_builtins "Hello" w1)) = [].
Proof.
  intros rawData w1. eexists.
  destruct (lookup_again_is_a_session_hit sample_builtins "Hello" 0 200 rawData _
              world_init eq_refl eq_refl) as (Hr & _ & Hf & _).
  split; [exact Hr | exact Hf].
Defined.

(** X12: a lookup answered from the persistent store writes the value into
    the session cache, so the next lookup of the same text is answered from
    the session cache with the same value, whatever has become of the
    store. *)
Theorem persistent_hit_then_session_hit
    (B : JsBuiltins) (text : string) (w : World) (data : JsVal) :
  fst (lookupMeaning B text w) =
    Resolved (VObj [("success", VBool true); ("data", data);
                    ("source", VStr "persistent")]) →
  ∀ w1, sessionCache w1 = sessionCache (snd (lookupMeaning B text w)) →
    fst (lookupMeaning B text w1) =
      Resolved (VObj [("success", VBool true); ("data", data);
                      ("source", VStr "session")]).
Proof.
  unfold lookupMeaning at 1 2.
  destruct (LRU.get (cacheKey_of B text) (sessionCache w)) as [hit1 session1].
  destruct (truthy hit1); [discriminate|].
  destruct (persistentCache_get _ _ _ _) as [[hit2 storage1] logs1].
  destruct (truthy hit2) eqn:Hhit2; [|discriminate].
  cbn [fst snd sessionCache]. intros [= <-] w1 Hsess.
  unfold lookupMeaning. rewrite Hsess, LRU_get_set_eq, Hhit2. done.
Qed.

(** A restarted service worker (empty session cache) whose store holds an
    unexpired entry for "hello"; the store then starts rejecting reads. *)
Lemma persistent_hit_then_session_hit_witness :
  let st := mkStorage {[ "meaning_hello" := mkItem (VStr "A greeting") 1000 ]}
              None None None in
  let w := mkWorld default_config (LRU.new 50) st (pacer_init 5) [] [] 0 [] in
  let w1 := snd (lookupMeaning sample_builtins "hello" w) in
  let broken := mkStorage ∅ (Some VNull) None None in
  let w2 := mkWorld (config w1) (sessionCache w1) broken (sys w1) (errorLogs w1)
              (fetches w1) (next_promise w1) (settled w1) in
  fst (lookupMeaning sample_builtins "hello" w2) =
    Resolved (VObj [("success", VBool true); ("data", VStr "A greeting");
                    ("source", VStr "session")]).
Proof.
  intros st w w1 broken w2.
  apply (persistent_hit_then_session_hit sample_builtins "hello" w (VStr "A greeting")).
  - vm_compute. reflexivity.
  - reflexivity.
Defined.

(** X13: lookups are not coalesced: when a lookup misses both caches and is
    enqueued, a second lookup of the same text made before the first is
    answered misses both caches too and enqueues a request of its own, with
    a promise of its own. *)
Theorem lookups_are_not_coalesced
    (B : JsBuiltins) (text : string) (w : World) (promise : nat) :
  fst (lookupMeaning B text w) = Pending promise →
  let w1 := snd (lookupMeaning B text w) in
  let w2 := snd (lookupMeaning B text w1) in
  fst (lookupMeaning B text w1) = Pending (S promise) ∧
  queue (limiter (pacer (sys w2))) =
    queue (limiter (pacer (sys w))) ++
    [mkRequest promise text (cacheKey_of B text);
     mkRequest (S promise) text (cacheKey_of B text)].
Proof.
  intros Hpending w1 w2. subst w2 w1.
  destruct (lookupMeaning_pending_inv B text w promise Hpending) as [H1 H2].
  rewrite (lookupMeaning_miss B text w H1 H2) in *. cbn [fst snd] in *.
  injection Hpending as <-.
  pose proof (persistentCache_get_again (cacheKey_of B text) (clock w)
                (storage w) (errorLogs w)) as Hagain.
  destruct (persistentCache_get _ _ (storage w) _) as [[hit2 storage1] logs1] eqn:Hpc.
  simpl in H2. specialize (Hagain H2).
  rewrite (lookupMeaning_miss B text (miss_world B text w)).
  - split; [done|]. unfold miss_world, sys_add. simpl.
    rewrite !RL_add_queue. by rewrite <- app_assoc.
  - unfold miss_world. cbn [sessionCache]. by rewrite LRU_get_get.
  - unfold miss_world. cbn [storage errorLogs]. rewrite Hpc. exact Hagain.
Qed.

Lemma lookups_are_not_coalesced_witness :
  let w1 := snd (lookupMeaning sample_builtins "hello" world_init) in
  let w2 := snd (lookupMeaning sample_builtins "hello" w1) in
  queue (limiter (pacer (sys w2))) =
    [mkRequest 0 "hello" "meaning_hello"; mkRequest 1 "hello" "meaning_hello"].
Proof.
  intros w1 w2.
  destruct (lookups_are_not_coalesced sample_builtins "hello" world_init 0 eq_refl)
    as [_ Hq].
  exact Hq.
Defined.

(** ** Claims about the lookup orchestrator *)

(** C5: when the read of the backing store rejects, [persistentCache.get]
    returns [null], leaves the store alone and puts a record with source
    "persistentCache.get" at the head of the error log; nothing is thrown
    to the caller, and a lookup that missed the session cache goes on to
    enqueue its network request, exactly as after a persistent miss. *)
Theorem storage_read_failure_is_a_miss :
  (∀ (key : string) (now : Z) (st : ChromeStorage) (logs : list ErrorRecord)
     (e : JsVal),
     get_rejects st = Some e →
     ∃ older,
       persistentCache_get key now st logs =
       (VNull, st,
        mkErrorRecord now "persistentCache.get"
          (processedDetails (VObj [("error", e)])) :: older)) ∧
  (∀ (B : JsBuiltins) (text : string) (w : World) (e : JsVal),
     get_rejects (storage w) = Some e →
     truthy (fst (LRU.get (cacheKey_of B text) (sessionCache w))) = false →
     ∃ w1 older,
       lookupMeaning B text w = (Pending (next_promise w), w1) ∧
       queue (limiter (pacer (sys w1))) =
         queue (limiter (pacer (sys w))) ++
         [mkRequest (next_promise w) text (cacheKey_of B text)] ∧
       storage w1 = storage w ∧
       fetches w1 = fetches w ∧
       errorLogs w1 =
         mkErrorRecord (clock w) "persistentCache.get"
           (processedDetails (VObj [("error", e)])) :: older).
Proof.
  split.
  - intros key now st logs e Hget.
    rewrite (persistentCache_get_rejected _ _ _ _ _ Hget).
    destruct (logError_head now "persistentCache.get" (VObj [("error", e)]) logs)
      as [older ->].
    by exists older.
  - intros B text w e Hget Hmiss.
    unfold lookupMeaning.
    destruct (LRU.get (cacheKey_of B text) (sessionCache w)) as [data session1].
    simpl in Hmiss. rewrite Hmiss.
    rewrite (persistentCache_get_rejected _ _ _ _ _ Hget). simpl.
    destruct (logError_head (clock w) "persistentCache.get" (VObj [("error", e)])
                (errorLogs w)) as [older Hlog].
    eexists. exists older. split; [reflexivity|]. simpl.
    rewrite RL_add_queue. by rewrite Hlog.
Qed.

(** A fresh service worker whose storage read rejects with
    [new Error("quota")], and a lookup of "Hello". *)
Lemma storage_read_failure_is_a_miss_witness :
  let e := VError "quota" "at get" in
  let st := mkStorage ∅ (Some e) None None in
  let w := mkWorld default_config (LRU.new 50) st (pacer_init 5) [] [] 0 [] in
  let record :=
    mkErrorRecord 0 "persistentCache.get"
      (VObj [("error", VObj [("message", VStr "quota"); ("stack", VStr "at get")])]) in
  persistentCache_get "meaning_hello" 0 st [] = (VNull, st, [record]) ∧
  ∃ w1, lookupMeaning sample_builtins "Hello" w = (Pending 0, w1) ∧
        queue (limiter (pacer (sys w1))) = [mkRequest 0 "Hello" "meaning_hello"] ∧
        errorLogs w1 = [record].
Proof.
  intros e st w record.
  destruct storage_read_failure_is_a_miss as [Hget Hlookup]. split.
  - destruct (Hget "meaning_hello" 0%Z st [] e eq_refl) as [older Heq].
    rewrite Heq. vm_compute in Heq. by injection Heq as <-.
  - destruct (Hlookup sample_builtins "Hello" w e eq_refl eq_refl)
      as (w1 & older & Hl & Hq & _ & _ & Hlog).
    exists w1. split; [exact Hl|]. split; [exact Hq|].
    rewrite Hlog. vm_compute in Hl. injection Hl as <-.
    vm_compute in Hlog. by injection Hlog as <-.
Defined.

(** C9: without a Gemini key ([null], [undefined] or the empty string)
    [rewriteTone] returns [{success: false, error: "Gemini API key is not
    configured."}] at once, makes no [fetch], and puts a record with source
    "api.rewriteTone" at the head of the error log. *)
Theorem rewriteTone_without_key
    (B : JsBuiltins) (text tone : string) (w : World) :
  truthy (gemini (config w)) = false →
  ∃ w1 older,
    rewriteTone B text tone w =
      (Resolved (VObj [("success", VBool false);
                       ("error", VStr "Gemini API key is not configured.")]),
       w1) ∧
    fetches w1 = fetches w ∧
    sys w1 = sys w ∧
    errorLogs w1 =
      mkErrorRecord (clock w) "api.rewriteTone"
        (VObj [("error", VStr "Gemini API key is not configured.")]) :: older.
Proof.
  intros Hkey. unfold rewriteTone. rewrite Hkey. simpl.
  destruct (logError_head (clock w) "api.rewriteTone"
              (VObj [("error", VStr "Gemini API key is not configured.")])
              (errorLogs w)) as [older Hlog].
  eexists. exists older. split; [reflexivity|]. simpl.
  by rewrite Hlog.
Qed.

(** The scenario of the spec: [rewriteTone("x", "Formal")] in a fresh
    service worker, whose key is [null]. *)
Lemma rewriteTone_without_key_witness :
  ∃ w1,
    rewriteTone sample_builtins "x" "Formal" world_init =
      (Resolved (VObj [("success", VBool false);
                       ("error", VStr "Gemini API key is not configured.")]),
       w1) ∧
    fetches w1 = [].
Proof.
  destruct (rewriteTone_without_key sample_builtins "x" "Formal" world_init eq_refl)
    as (w1 & older & Hr & Hf & _).
  exists w1. split; [exact Hr | exact Hf].
Defined.

(** C1: [lookupMeaning] tries the tiers in order and stops at the first hit.
    A session hit returns [{success, data, source: 'session'}] and leaves
    the store, the error log, the pacer and the network alone.  After a
    session miss, a persistent hit is written into the session cache, where
    a [get] of the key then finds it, and returned with
    [source: 'persistent'], again without touching the pacer or the
    network.  Only when both miss is a request enqueued on the pacer, still
    without any [fetch]; and when that request's fetch answers with a
    response that normalizes to a usable record, the record is written to
    the session cache, where a [get] of the key then finds it, and to the
    persistent store (with its expiry, when the store accepts the write),
    and the lookup's promise resolves with [source: 'api']. *)
Theorem lookupMeaning_tiers (B : JsBuiltins) (text : string) (w : World) :
  let key := cacheKey_of B text in
  let hit1 := fst (LRU.get key (sessionCache w)) in
  let session1 := snd (LRU.get key (sessionCache w)) in
  let '(hit2, storage1, logs1) :=
    persistentCache_get key (clock w) (storage w) (errorLogs w) in
  let reply := fst (lookupMeaning B text w) in
  let w1 := snd (lookupMeaning B text w) in
  (truthy hit1 = true →
     reply = Resolved (VObj [("success", VBool true); ("data", hit1);
                             ("source", VStr "session")]) ∧
     sessionCache w1 = session1 ∧ storage w1 = storage w ∧
     errorLogs w1 = errorLogs w ∧ sys w1 = sys w ∧ fetches w1 = fetches w) ∧
  (truthy hit1 = false → truthy hit2 = true →
     reply = Resolved (VObj [("success", VBool true); ("data", hit2);
                             ("source", VStr "persistent")]) ∧
     sessionCache w1 = LRU.set key hit2 session1 ∧
     LRU.has key (sessionCache w1) = true ∧
     fst (LRU.get key (sessionCache w1)) = hit2 ∧
     storage w1 = storage1 ∧ sys w1 = sys w ∧ fetches w1 = fetches w) ∧
  (truthy hit1 = false → truthy hit2 = false →
     let request := mkRequest (next_promise w) text key in
     reply = Pending (next_promise w) ∧
     sessionCache w1 = session1 ∧
     queue (limiter (pacer (sys w1))) = queue (limiter (pacer (sys w))) ++ [request] ∧
     enqueued (sys w1) = enqueued (sys w) ++ [request] ∧
     fetches w1 = fetches w ∧
     (∀ w', fetches (startRequest request w') =
              fetches w' ++ [mkFetchCall (now (sys w'))
                               (dictionary (config w') ++ text) "GET" VUndefined]) ∧
     ∀ (w' : World) (status : Z) (rawData record : JsVal),
       sanitizeDictionaryResponse rawData = Return record →
       truthy record = true →
       let w2 := finishRequest B request
                   (FetchResponds true status (Return rawData)) w' in
       settled w2 =
         settled w' ++
         [(next_promise w,
           VObj [("success", VBool true); ("type", VStr "definition");
                 ("data", record); ("source", VStr "api")])] ∧
       sessionCache w2 = LRU.set key record (sessionCache w') ∧
       LRU.has key (sessionCache w2) = true ∧
       fst (LRU.get key (sessionCache w2)) = record ∧
       (set_rejects (storage w') = None →
        items (storage w2) =
          <[key := mkItem record (clock w' + cacheTTL (config w'))]>
            (items (storage w')))).
Proof.
  intros key hit1 session1.
  destruct (persistentCache_get key (clock w) (storage w) (errorLogs w))
    as [[hit2 storage1] logs1] eqn:Hpers.
  intros reply w1. subst reply w1 hit1 session1.
  unfold lookupMeaning. fold key.
  destruct (LRU.get key (sessionCache w)) as [data session1]. cbn [fst snd].
  rewrite Hpers.
  split_and!.
  - intros ->. done.
  - intros -> ->. cbn [fst snd sessionCache storage sys fetches].
    split_and!; try done.
    + unfold LRU.has, LRU.set. cbn [cache]. apply JsMap_has_set_eq.
    + by rewrite LRU_get_set_eq.
  - intros -> ->. cbn [fst snd sys sessionCache fetches]. split_and!; try done.
    + unfold sys_add. simpl. apply RL_add_queue.
    + intros w' status rawData record Hsan Htruthy.
      unfold finishRequest, primary_attempt. cbn [negb].
      cbn [mbind Completion_bind]. rewrite Hsan. rewrite Htruthy.
      cbn [req_cacheKey req_promise].
      destruct (persistentCache_set (cacheTTL (config w')) key record (clock w')
                  (storage w') (errorLogs w')) as [storage2 logs2] eqn:Hset.
      cbn [resolve sessionCache storage settled].
      split_and!; try done.
      * unfold LRU.has, LRU.set. cbn [cache]. apply JsMap_has_set_eq.
      * by rewrite LRU_get_set_eq.
      * intros Hok. rewrite persistentCache_set_ok in Hset by done.
        by injection Hset as <- _.
Qed.

(** The scenario of the spec: [lookupMeaning("hello")] with cold caches and
    the response whose first result defines "hello" as "A greeting"; and a
    lookup of "Hello" in a service worker whose store holds that record
    under "meaning_hello", still fresh. *)
Lemma lookupMeaning_tiers_witness :
  let rawData :=
    VArr [VObj [("word", VStr "hello");
                ("meanings",
                 VArr [VObj [("definitions", VArr [VObj [("definition", VStr "A greeting")]]);
                             ("synonyms", VArr [VStr "hi"]);
                             ("antonyms", VArr [])]])]] in
  let record :=
    VObj [("word", VStr "hello"); ("phonetic", VUndefined);
          ("meaning", VStr "A greeting");
          ("synonyms", VArr [VStr "hi"]); ("antonyms", VArr [])] in
  let request := mkRequest 0 "hello" "meaning_hello" in
  let w1 := snd (lookupMeaning sample_builtins "hello" world_init) in
  let w2 := finishRequest sample_builtins request
              (FetchResponds true 200 (Return rawData)) w1 in
  let stored := mkStorage {[ "meaning_hello" := mkItem record 1000 ]} None None None in
  let wp := mkWorld default_config (LRU.new 50) stored (pacer_init 5) [] [] 0 [] in
  let wp1 := snd (lookupMeaning sample_builtins "Hello" wp) in
  (fst (lookupMeaning sample_builtins "hello" world_init) = Pending 0 ∧
   queue (limiter (pacer (sys w1))) = [request] ∧
   settled w2 =
     [(0%nat, VObj [("success", VBool true); ("type", VStr "definition");
                    ("data", record); ("source", VStr "api")])] ∧
   JsMap.keys (cache (sessionCache w2)) = ["meaning_hello"] ∧
   fst (LRU.get "meaning_hello" (sessionCache w2)) = record ∧
   items (storage w2) = <[ "meaning_hello" := mkItem record (0 + 604800000) ]> ∅) ∧
  (fst (lookupMeaning sample_builtins "Hello" wp) =
     Resolved (VObj [("success", VBool true); ("data", record);
                     ("source", VStr "persistent")]) ∧
   JsMap.keys (cache (sessionCache wp)) = [] ∧
   JsMap.keys (cache (sessionCache wp1)) = ["meaning_hello"] ∧
   fst (LRU.get "meaning_hello" (sessionCache wp1)) = record ∧
   fetches wp1 = [] ∧ queue (limiter (pacer (sys wp1))) = []).
Proof.
  intros rawData record request w1 w2 stored wp wp1. split.
  - pose proof (lookupMeaning_tiers sample_builtins "hello" world_init) as H.
    cbv zeta in H.
    destruct (persistentCache_get _ _ _ _) as [[hit2 storage1] logs1] eqn:Hpers in H.
    destruct H as (_ & _ & Hmiss).
    assert (Hhit2 : hit2 = VNull).
    { vm_compute in Hpers. by injection Hpers as <- _ _. }
    destruct (Hmiss eq_refl ltac:(by rewrite Hhit2))
      as (Hreply & _ & Hq & _ & _ & _ & Hfinish).
    split; [exact Hreply|]. split; [exact Hq|].
    destruct (Hfinish w1 200%Z rawData record eq_refl eq_refl)
      as (Hs & _ & _ & Hget & Hst).
    split; [exact Hs|]. split; [reflexivity|]. split; [exact Hget|].
    exact (Hst eq_refl).
  - pose proof (lookupMeaning_tiers sample_builtins "Hello" wp) as H.
    cbv zeta in H.
    destruct (persistentCache_get _ _ _ _) as [[hit2 storage1] logs1] eqn:Hpers in H.
    destruct H as (_ & Hhit & _).
    assert (Hhit2 : hit2 = record).
    { vm_compute in Hpers. by injection Hpers as <- _ _. }
    destruct (Hhit eq_refl ltac:(by rewrite Hhit2))
      as (Hreply & _ & _ & Hget & _ & Hsys & Hf).
    rewrite Hhit2 in Hreply, Hget.
    split; [exact Hreply|]. split; [reflexivity|]. split; [reflexivity|].
    split; [exact Hget|]. split; [exact Hf|].
    unfold wp1. rewrite Hsys. reflexivity.
Defined.

(** ** More on the normalizer *)

Section MoreSanitize.

Implicit Types (s : string) (acc elems : list JsVal).

Lemma fold_set_add_le s elems acc :
  (count_str s acc <= 1)%nat →
  (count_str s (fold_left (fun a x => set_add x a) elems acc) <= 1)%nat.
Proof. intros H. rewrite fold_set_add_count by done. lia. Qed.

Lemma add_all_le s xs acc acc' :
  add_all xs acc = Return acc' →
  (count_str s acc <= 1)%nat → (count_str s acc' <= 1)%nat.
Proof.
  destruct xs; simpl; try discriminate; intros [= <-] H; try done.
  by apply fold_set_add_le.
Qed.

Lemma collect_groups_le s groups (a1 a2 r1 r2 : list JsVal) :
  collect_groups groups (a1, a2) = Return (r1, r2) →
  (count_str s a1 <= 1)%nat → (count_str s a2 <= 1)%nat →
  (count_str s r1 <= 1)%nat ∧ (count_str s r2 <= 1)%nat.
Proof.
  revert a1 a2. induction groups as [|m groups IH]; intros a1 a2; simpl.
  - by intros [= <- <-].
  - unfold collect_group. simpl.
    destruct (get_prop m "synonyms") as [syn|]; simpl; [|done].
    destruct (add_all syn a1) as [b1|] eqn:H1; simpl; [|done].
    destruct (get_prop m "antonyms") as [ant|]; simpl; [|done].
    destruct (add_all ant a2) as [b2|] eqn:H2; simpl; [|done].
    intros Hrest Ha1 Ha2. eapply IH; [exact Hrest|..].
    + by eapply add_all_le.
    + by eapply add_all_le.
Qed.

(** Adding to a set only appends. *)
Lemma fold_set_add_prefix elems acc :
  ∃ tail, fold_left (fun a x => set_add x a) elems acc = acc ++ tail.
Proof.
  revert acc. induction elems as [|x elems IH]; intros acc; simpl.
  - exists []. by rewrite app_nil_r.
  - destruct (IH (set_add x acc)) as [tail ->]. unfold set_add.
    destruct (existsb _ acc); [by exists tail|].
    exists (x :: tail). by rewrite <- app_assoc.
Qed.

Lemma add_all_prefix xs acc acc' :
  add_all xs acc = Return acc' → ∃ tail, acc' = acc ++ tail.
Proof.
  destruct xs; simpl; try discriminate; intros [= <-];
    try (exists []; by rewrite app_nil_r).
  apply fold_set_add_prefix.
Qed.

Lemma collect_groups_prefix groups (a1 a2 r1 r2 : list JsVal) :
  collect_groups groups (a1, a2) = Return (r1, r2) →
  (∃ t1, r1 = a1 ++ t1) ∧ (∃ t2, r2 = a2 ++ t2).
Proof.
  revert a1 a2. induction groups as [|m groups IH]; intros a1 a2; simpl.
  - intros [= <- <-]. split; exists []; by rewrite app_nil_r.
  - unfold collect_group. simpl.
    destruct (get_prop m "synonyms") as [syn|]; simpl; [|done].
    destruct (add_all syn a1) as [b1|] eqn:H1; simpl; [|done].
    destruct (get_prop m "antonyms") as [ant|]; simpl; [|done].
    destruct (add_all ant a2) as [b2|] eqn:H2; simpl; [|done].
    intros Hrest. destruct (IH _ _ Hrest) as [[t1 ->] [t2 ->]].
    destruct (add_all_prefix _ _ _ H1) as [u1 ->].
    destruct (add_all_prefix _ _ _ H2) as [u2 ->].
    split; eexists; by rewrite <- app_assoc.
Qed.

(** A list of distinct strings is added to the empty set as it is. *)
Lemma fold_set_add_distinct (names : list string) acc :
  NoDup names →
  (∀ s, s ∈ names → count_str s acc = 0%nat) →
  fold_left (fun a x => set_add x a) (map VStr names) acc = acc ++ map VStr names.
Proof.
  revert acc. induction names as [|n names IH]; intros acc Hnd Hfresh; simpl.
  - by rewrite app_nil_r.
  - apply NoDup_cons in Hnd as [Hn Hnd].
    assert (Hadd : set_add (VStr n) acc = acc ++ [VStr n]).
    { unfold set_add.
      destruct (existsb (sameValueZero (VStr n)) acc) eqn:Hex; [|done].
      apply existsb_sameValueZero_str in Hex.
      rewrite (Hfresh n) in Hex; [lia | left]. }
    rewrite Hadd, IH; [by rewrite <- app_assoc | done |].
    intros s Hs. rewrite count_str_app, (Hfresh s) by by right. simpl.
    destruct (String.eqb_spec n s) as [->|]; done.
Qed.

End MoreSanitize.

(** X14: whatever the input, a value the normalizer returns is either
    [null] or a record with exactly the fields [word], [phonetic],
    [meaning], [synonyms] and [antonyms], whose [meaning] is truthy (never
    absent or empty) and whose [synonyms] and [antonyms] are arrays holding
    no string twice. *)
Theorem sanitize_record_has_meaning (data v : JsVal) :
  sanitizeDictionaryResponse data = Return v →
  v = VNull ∨
  ∃ word phonetic meaning syn ant,
    v = VObj [("word", word); ("phonetic", phonetic); ("meaning", meaning);
              ("synonyms", VArr syn); ("antonyms", VArr ant)] ∧
    truthy meaning = true ∧
    ∀ s, (count_str s syn <= 1)%nat ∧ (count_str s ant <= 1)%nat.
Proof.
  unfold sanitizeDictionaryResponse.
  destruct data as [| | | | |[|firstResult rest]| |]; try (intros [= <-]; by left).
  destruct (first_definition firstResult) as [meaning|]; simpl; [|done].
  destruct (truthy meaning) eqn:Hm; simpl; [|intros [= <-]; by left].
  destruct (get_prop firstResult "meanings") as [meanings|]; simpl; [|done].
  destruct (collect_meanings meanings) as [[syn ant]|] eqn:Hc; simpl; [|done].
  destruct (get_prop firstResult "word") as [word|]; simpl; [|done].
  destruct (phonetic_of firstResult) as [phonetic|]; simpl; [|done].
  intros [= <-]. right. exists word, phonetic, meaning, syn, ant.
  split_and!; [done..|]. intros s.
  destruct meanings; simpl in Hc; try discriminate;
    try (injection Hc as <- <-; simpl; lia).
  eapply collect_groups_le; [exact Hc | simpl; lia..].
Qed.

(** A response whose only meaning group lists "hi" twice among its
    synonyms and has a number under [antonyms]'s first element. *)
Lemma sanitize_record_has_meaning_witness :
  let data :=
    VArr [VObj [("meanings",
                 VArr [VObj [("definitions", VArr [VObj [("definition", VStr "A greeting")]]);
                             ("synonyms", VArr [VStr "hi"; VStr "hi"]);
                             ("antonyms", VArr [VNum 1])]])]] in
  ∃ v, sanitizeDictionaryResponse data = Return v ∧
       get_prop v "meaning" = Return (VStr "A greeting") ∧
       record_list "synonyms" v = [VStr "hi"].
Proof.
  intros data. eexists. split; [vm_compute; reflexivity|].
  match goal with
  | |- get_prop ?v _ = _ ∧ _ =>
      destruct (sanitize_record_has_meaning data v eq_refl)
        as [Hnull|(word & ph & m & syn & ant & Hv & Hm & _)]; [discriminate|]
  end.
  split; reflexivity.
Defined.

(** X15: the synonyms come out in the order the response lists them, first
    group first: when the first meaning group lists distinct strings as its
    synonyms, the record's [synonyms] begin with exactly that list (the
    view shows the first five). *)
Theorem sanitize_first_group_comes_first
    (fields gfields : list (string * JsVal)) (groups rest : list JsVal)
    (names : list string) (record : JsVal) :
  obj_get "meanings" fields = VArr (VObj gfields :: groups) →
  obj_get "synonyms" gfields = VArr (map VStr names) →
  NoDup names →
  sanitizeDictionaryResponse (VArr (VObj fields :: rest)) = Return record →
  record = VNull ∨
  ∃ more, record_list "synonyms" record = map VStr names ++ more.
Proof.
  intros Hmeanings Hsyn Hnd.
  unfold sanitizeDictionaryResponse.
  destruct (first_definition (VObj fields)) as [meaning|]; simpl; [|done].
  destruct (truthy meaning); simpl; [|intros [= <-]; by left].
  rewrite Hmeanings. simpl. unfold collect_group at 1. simpl. rewrite Hsyn. simpl.
  rewrite (fold_set_add_distinct names [] Hnd) by done. simpl.
  destruct (add_all (obj_get "antonyms" gfields) []) as [ant0|]; simpl; [|done].
  destruct (collect_groups groups (map VStr names, ant0)) as [[syn ant]|] eqn:Hc;
    simpl; [|done].
  destruct (phonetic_of (VObj fields)) as [phonetic|]; simpl; [|done].
  intros [= <-]. right. simpl.
  destruct (collect_groups_prefix _ _ _ _ _ Hc) as [[t1 ->] _]. by exists t1.
Qed.

Lemma sanitize_first_group_comes_first_witness :
  let g1 := [("definitions", VArr [VObj [("definition", VStr "pleased")]]);
             ("synonyms", VArr (map VStr ["glad"; "happy"]))] in
  let g2 := VObj [("synonyms", VArr (map VStr ["merry"; "glad"]))] in
  let fields := [("word", VStr "content"); ("meanings", VArr [VObj g1; g2])] in
  ∃ record,
    sanitizeDictionaryResponse (VArr [VObj fields]) = Return record ∧
    record_list "synonyms" record = map VStr ["glad"; "happy"; "merry"].
Proof.
  intros g1 g2 fields. eexists. split; [vm_compute; reflexivity|].
  match goal with
  | |- record_list _ ?r = _ =>
      destruct (sanitize_first_group_comes_first fields g1 [g2] [] ["glad"; "happy"] r
                  eq_refl eq_refl) as [Hnull|[more Hmore]];
      [ by apply (bool_decide_unpack (NoDup ["glad"; "happy"])) | reflexivity | discriminate | ]
  end.
  reflexivity.
Defined.

(** ** More on rewriteTone *)

Section MoreRewrite.

Variable B : JsBuiltins.

Lemma finishRewrite_thrown text outcome w message stack :
  rewrite_attempt B outcome = Throw (VError message stack) →
  ∃ older,
    finishRewrite B text outcome w =
    Some (failure_result (VStr message),
          mkWorld (config w) (sessionCache w) (storage w) (sys w)
            (mkErrorRecord (clock w) "api.rewriteTone"
               (VObj [("text", VStr text); ("error", VStr message)]) :: older)
            (fetches w) (next_promise w) (settled w)).
Proof.
  intros Hthrow. unfold finishRewrite. rewrite Hthrow. simpl.
  destruct (logError_head (clock w) "api.rewriteTone"
              (VObj [("text", VStr text); ("error", VStr message)]) (errorLogs w))
    as [older ->]. by exists older.
Qed.

(** The success object can only come from a string candidate text. *)
Lemma rewrite_attempt_returns outcome result :
  rewrite_attempt B outcome = Return result →
  ∃ t, result = VObj [("success", VBool true); ("type", VStr "rewritten");
                      ("data", VStr (trim B t))].
Proof.
  unfold rewrite_attempt. destruct outcome as [e|ok status json]; [done|].
  destruct ok; simpl; [|done].
  destruct json as [r|]; simpl; [|done].
  destruct (get_prop r "candidates") as [c|]; simpl; [|done].
  destruct (opt_first c) as [c0|]; simpl; [|done].
  destruct (opt_prop c0 "content") as [ct|]; simpl; [|done].
  destruct (opt_prop ct "parts") as [ps|]; simpl; [|done].
  destruct (opt_first ps) as [p0|]; simpl; [|done].
  destruct (opt_prop p0 "text") as [t|]; simpl; [|done].
  destruct (truthy t); simpl.
  - destruct t; simpl; try done. intros [= <-]. by eexists.
  - destruct (get_prop r "promptFeedback") as [fb|]; simpl; [|done].
    destruct (opt_prop fb "blockReason") as [br|]; simpl; [|done].
    by destruct (truthy br).
Qed.

End MoreRewrite.

(** X16: [rewriteTone] bypasses the caches and the pacer.  With a key
    configured its first part makes exactly one [fetch], a POST to the
    rewrite endpoint with the key in the query string, and changes nothing
    else; and however the fetch turns out, the second part leaves the
    session cache, the store, the pacer and the list of fetches as they
    were. *)
Theorem rewriteTone_bypasses_caches
    (B : JsBuiltins) (text tone : string) (w : World) :
  (truthy (gemini (config w)) = true →
   ∃ body,
     rewriteTone B text tone w =
     (Pending (next_promise w),
      mkWorld (config w) (sessionCache w) (storage w) (sys w) (errorLogs w)
        (fetches w ++
         [mkFetchCall (now (sys w))
            (toneRewrite (config w) ++ "?key=" ++ ToString B (gemini (config w)))
            "POST" body])
        (S (next_promise w)) (settled w))) ∧
  (∀ outcome result w1,
     finishRewrite B text outcome w = Some (result, w1) →
     sessionCache w1 = sessionCache w ∧ storage w1 = storage w ∧
     sys w1 = sys w ∧ fetches w1 = fetches w).
Proof.
  split.
  - intros Hkey. unfold rewriteTone. rewrite Hkey. simpl. by eexists.
  - intros outcome result w1. unfold finishRewrite.
    destruct (rewrite_attempt B outcome) as [r|e].
    + by intros [= <- <-].
    + destruct (get_prop e "message"); [|done]. by intros [= <- <-].
Qed.

Lemma rewriteTone_bypasses_caches_witness :
  let cfg := mkConfig "" "https://example.test/rewrite" (VStr "K") 0 in
  let w := mkWorld cfg (LRU.new 50) (mkStorage ∅ None None None)
             (pacer_init 5) [] [] 0 [] in
  let w1 := snd (rewriteTone sample_builtins "hi there" "Formal" w) in
  map fetch_url (fetches w1) = ["https://example.test/rewrite?key=K"] ∧
  map fetch_method (fetches w1) = ["POST"] ∧
  cache (sessionCache w1) = [].
Proof.
  intros cfg w w1.
  destruct (rewriteTone_bypasses_caches sample_builtins "hi there" "Formal" w)
    as [Hstart _].
  destruct (Hstart eq_refl) as [body Heq].
  subst w1. rewrite Heq. by split_and!.
Defined.

(** X17: when the response is ok and its first candidate's first part has a
    non-empty string as text, [rewriteTone] answers
    [{success: true, type: 'rewritten', data}] with the text trimmed, and
    logs nothing. *)
Theorem rewriteTone_success_is_trimmed
    (B : JsBuiltins) (text : string) (status : Z) (w : World)
    (fields c0 content p0 : list (string * JsVal)) (cs ps : list JsVal)
    (rewritten : string) :
  obj_get "candidates" fields = VArr (VObj c0 :: cs) →
  obj_get "content" c0 = VObj content →
  obj_get "parts" content = VArr (VObj p0 :: ps) →
  obj_get "text" p0 = VStr rewritten →
  rewritten ≠ "" →
  finishRewrite B text (FetchResponds true status (Return (VObj fields))) w =
  Some (VObj [("success", VBool true); ("type", VStr "rewritten");
              ("data", VStr (trim B rewritten))], w).
Proof.
  intros Hc Hcontent Hparts Htext Hne.
  unfold finishRewrite, rewrite_attempt. simpl.
  rewrite Hc. simpl. rewrite Hcontent. simpl. rewrite Hparts. simpl.
  rewrite Htext. simpl.
  destruct (String.eqb_spec rewritten ""); [done|]. done.
Qed.

Lemma rewriteTone_success_is_trimmed_witness :
  let result :=
    [("candidates",
      VArr [VObj [("content",
                   VObj [("parts", VArr [VObj [("text", VStr "  Good day.  ")]])])]])] in
  finishRewrite sample_builtins "hi" (FetchResponds true 200 (Return (VObj result)))
    world_init =
  Some (VObj [("success", VBool true); ("type", VStr "rewritten");
              ("data", VStr "Good day.")], world_init).
Proof.
  intros result.
  exact (rewriteTone_success_is_trimmed sample_builtins "hi" 200 world_init result
           _ _ _ [] [] "  Good day.  " eq_refl eq_refl eq_refl eq_refl
           ltac:(discriminate)).
Defined.

(** X18: however the fetch turns out, what [rewriteTone] answers is either
    the success object with a string as [data], the world unchanged, or
    [{success: false, error}] together with one new record at the head of
    the error log, with source "api.rewriteTone", the text and the same
    error message. *)
Theorem rewriteTone_failures_are_uniform
    (B : JsBuiltins) (text : string) (outcome : FetchOutcome) (w : World)
    (result : JsVal) (w1 : World) :
  finishRewrite B text outcome w = Some (result, w1) →
  (∃ data,
     result = VObj [("success", VBool true); ("type", VStr "rewritten");
                    ("data", VStr data)] ∧
     w1 = w) ∨
  (∃ message older,
     result = VObj [("success", VBool false); ("error", message)] ∧
     errorLogs w1 =
       mkErrorRecord (clock w) "api.rewriteTone"
         (processedDetails (VObj [("text", VStr text); ("error", message)]))
         :: older).
Proof.
  unfold finishRewrite.
  destruct (rewrite_attempt B outcome) as [r|e] eqn:Hattempt.
  - intros [= <- <-]. left.
    destruct (rewrite_attempt_returns B outcome r Hattempt) as [t ->]. by eexists.
  - destruct (get_prop e "message") as [message|]; [|done].
    intros [= <- <-]. right. simpl.
    destruct (logError_head (clock w) "api.rewriteTone"
                (VObj [("text", VStr text); ("error", message)]) (errorLogs w))
      as [older ->]. by exists message, older.
Qed.

(** A fetch that rejects with [new TypeError("Failed to fetch")]. *)
Lemma rewriteTone_failures_are_uniform_witness :
  ∃ w1,
    finishRewrite sample_builtins "hi" (FetchRejects (VError "Failed to fetch" ""))
      world_init =
      Some (VObj [("success", VBool false); ("error", VStr "Failed to fetch")], w1) ∧
    map source (errorLogs w1) = ["api.rewriteTone"].
Proof.
  eexists. split; [vm_compute; reflexivity|].
  match goal with
  | |- map source (errorLogs ?w1) = _ =>
      destruct (rewriteTone_failures_are_uniform sample_builtins "hi"
                  (FetchRejects (VError "Failed to fetch" "")) world_init
                  (VObj [("success", VBool false); ("error", VStr "Failed to fetch")])
                  w1 eq_refl) as [(d & Hd & _)|(m & older & _ & Hlog)];
      [discriminate|]
  end.
  reflexivity.
Defined.

(** An ok response without candidate text is reported as
    "Content blocked by API: <reason>" when [promptFeedback.blockReason] is
    set, and as "Invalid response structure from Gemini API." when it is
    not. *)
Theorem rewriteTone_content_blocked
    (B : JsBuiltins) (text : string) (status : Z) (w : World)
    (fields : list (string * JsVal)) :
  nullish (obj_get "candidates" fields) = true →
  let reason :=
    match opt_prop (obj_get "promptFeedback" fields) "blockReason" with
    | Return r => r
    | Throw _ => VUndefined
    end in
  let message :=
    if truthy reason
    then ("Content blocked by API: " ++ ToString B reason)%string
    else "Invalid response structure from Gemini API." in
  ∃ w1,
    finishRewrite B text (FetchResponds true status (Return (VObj fields))) w =
      Some (VObj [("success", VBool false); ("error", VStr message)], w1) ∧
    ∃ older,
      errorLogs w1 =
      mkErrorRecord (clock w) "api.rewriteTone"
        (VObj [("text", VStr text); ("error", VStr message)]) :: older.
Proof.
  intros Hnone reason message.
  assert (Hthrow : rewrite_attempt B (FetchResponds true status (Return (VObj fields)))
                   = Throw (VError message "")).
  { subst message reason. unfold rewrite_attempt, opt_prop. simpl.
    destruct (obj_get "candidates" fields); try discriminate; simpl;
      destruct (obj_get "promptFeedback" fields) as [| | | | | |fb|]; simpl;
      try done; by destruct (truthy _). }
  destruct (finishRewrite_thrown B text _ w _ _ Hthrow) as [older ->].
  eexists. split; [reflexivity|]. by exists older.
Qed.

Lemma rewriteTone_content_blocked_witness :
  let blocked := [("promptFeedback", VObj [("blockReason", VStr "SAFETY")])] in
  (∃ w1,
     finishRewrite sample_builtins "x" (FetchResponds true 200 (Return (VObj blocked)))
       world_init =
     Some (VObj [("success", VBool false);
                 ("error", VStr "Content blocked by API: SAFETY")], w1)) ∧
  (∃ w1,
     finishRewrite sample_builtins "x" (FetchResponds true 200 (Return (VObj [])))
       world_init =
     Some (VObj [("success", VBool false);
                 ("error", VStr "Invalid response structure from Gemini API.")], w1)).
Proof.
  intros blocked. split.
  - destruct (rewriteTone_content_blocked sample_builtins "x" 200 world_init blocked
                eq_refl) as (w1 & Heq & _).
    by exists w1.
  - destruct (rewriteTone_content_blocked sample_builtins "x" 200 world_init []
                eq_refl) as (w1 & Heq & _).
    by exists w1.
Defined.

(** A response that is not ok is reported with the part of the API's
    own error message that precedes " API key" when the body is JSON with a
    non-empty string under [error.message], and with
    "HTTP error! status: <status>" when the body is not JSON. *)
Theorem rewriteTone_http_error_message
    (B : JsBuiltins) (text : string) (status : Z) (w : World) :
  (∀ (fields err : list (string * JsVal)) (m : string),
     obj_get "error" fields = VObj err →
     obj_get "message" err = VStr m →
     m ≠ "" →
     ∃ w1,
       finishRewrite B text (FetchResponds false status (Return (VObj fields))) w =
       Some (VObj [("success", VBool false);
                   ("error", VStr (split_head B " API key" m))], w1)) ∧
  (∀ e : JsVal,
     ∃ w1,
       finishRewrite B text (FetchResponds false status (Throw e)) w =
       Some (VObj [("success", VBool false);
                   ("error",
                    VStr ("HTTP error! status: " ++ ToString B (VNum (inject_Z status))))],
             w1)).
Proof.
  split.
  - intros fields err m Herr Hm Hne.
    assert (Hthrow : rewrite_attempt B (FetchResponds false status (Return (VObj fields)))
                     = Throw (VError (split_head B " API key" m) "")).
    { unfold rewrite_attempt, rewrite_error_details. simpl.
      rewrite Herr. simpl. rewrite Hm. simpl.
      destruct (String.eqb_spec m ""); done. }
    destruct (finishRewrite_thrown B text _ w _ _ Hthrow) as [older ->]. by eexists.
  - intros e.
    assert (Hthrow : rewrite_attempt B (FetchResponds false status (Throw e))
                     = Throw (VError ("HTTP error! status: " ++
                                      ToString B (VNum (inject_Z status))) ""))
      by done.
    destruct (finishRewrite_thrown B text _ w _ _ Hthrow) as [older ->]. by eexists.
Qed.

Lemma rewriteTone_http_error_message_witness :
  let body :=
    [("error", VObj [("code", VNum 400);
                     ("message", VStr "API key not valid. Please pass a valid API key.")])] in
  ∃ w1,
    finishRewrite sample_builtins "x" (FetchResponds false 400 (Return (VObj body)))
      world_init =
    Some (VObj [("success", VBool false); ("error", VStr "API key not valid. Please pass a valid")],
          w1).
Proof.
  intros body.
  destruct (rewriteTone_http_error_message sample_builtins "x" 400 world_init)
    as [Hjson _].
  destruct (Hjson body _ "API key not valid. Please pass a valid API key."
              eq_refl eq_refl ltac:(discriminate)) as [w1 Heq].
  exists w1. exact Heq.
Defined.

(** ** The message router and the status report *)

(** X19: a message whose sender has no [tab] and whose [url] does not start
    with the extension's own origin is not processed, whatever it asks: the
    listener returns without answering, logs one record with source
    "onMessage.security" carrying the sender, and changes nothing else. *)
Theorem onMessage_rejects_untrusted
    (origin : string) (request : JsVal) (sfields : list (string * JsVal))
    (url : string) (w : World) :
  truthy (obj_get "tab" sfields) = false →
  obj_get "url" sfields = VStr url →
  String.prefix origin url = false →
  ∃ older,
    onMessage origin request (VObj sfields) w =
    (Return NotProcessed,
     with_errorLogs
       (mkErrorRecord (clock w) "onMessage.security"
          (VObj [("error", VStr "Untrusted message source");
                 ("sender", VObj sfields)]) :: older) w).
Proof.
  intros Htab Hurl Hprefix. unfold onMessage, untrusted. simpl.
  rewrite Htab, Hurl, Hprefix. simpl.
  destruct (logError_head (clock w) "onMessage.security"
              (VObj [("error", VStr "Untrusted message source");
                     ("sender", VObj sfields)]) (errorLogs w)) as [older ->].
  by exists older.
Qed.

(** A 'getStatus' message from a web page. *)
Lemma onMessage_rejects_untrusted_witness :
  let sender := [("url", VStr "https://evil.example/")] in
  ∃ w1,
    onMessage "chrome-extension://abc/" (VObj [("type", VStr "getStatus")])
      (VObj sender) world_init = (Return NotProcessed, w1) ∧
    map source (errorLogs w1) = ["onMessage.security"].
Proof.
  intros sender.
  destruct (onMessage_rejects_untrusted "chrome-extension://abc/"
              (VObj [("type", VStr "getStatus")]) sender "https://evil.example/"
              world_init eq_refl eq_refl eq_refl) as [older Heq].
  eexists. split; [exact Heq|].
  vm_compute in Heq. injection Heq as Heq. by rewrite <- Heq.
Defined.

(** A message from a trusted sender whose [type] is none of 'lookup',
    'rewriteTone', 'getStatus' and 'telemetry' is answered at once with
    [{success: false, error: 'Unknown message type'}], and one record with
    source "onMessage.router" carrying the type is logged. *)
Theorem onMessage_unknown_type
    (origin : string) (rfields : list (string * JsVal)) (sender : JsVal) (w : World) :
  untrusted origin sender = Return false →
  let type := obj_get "type" rfields in
  Forall (fun name => is_type name type = false)
    ["lookup"; "rewriteTone"; "getStatus"; "telemetry"] →
  ∃ older,
    onMessage origin (VObj rfields) sender w =
    (Return (Answered (RespValue
       (VObj [("success", VBool false); ("error", VStr "Unknown message type")]))),
     with_errorLogs
       (mkErrorRecord (clock w) "onMessage.router"
          (processedDetails
             (VObj [("error", VStr "Unknown message type"); ("type", type)]))
          :: older) w).
Proof.
  intros Htrusted type Hnone.
  apply Forall_cons in Hnone as [H1 Hnone]. apply Forall_cons in Hnone as [H2 Hnone].
  apply Forall_cons in Hnone as [H3 Hnone]. apply Forall_cons in Hnone as [H4 _].
  unfold onMessage. rewrite Htrusted. cbn [get_prop mbind Completion_bind].
  fold type. rewrite H1, H2, H3, H4.
  destruct (logError_head (clock w) "onMessage.router"
              (VObj [("error", VStr "Unknown message type"); ("type", type)])
              (errorLogs w)) as [older ->].
  by exists older.
Qed.

(** The content script of a tab sends a message of type 'lookupMeaning',
    the name the router no longer uses. *)
Lemma onMessage_unknown_type_witness :
  let sender := VObj [("tab", VObj [("id", VNum 7)])] in
  ∃ w1,
    onMessage "chrome-extension://abc/" (VObj [("type", VStr "lookupMeaning")])
      sender world_init =
    (Return (Answered (RespValue
       (VObj [("success", VBool false); ("error", VStr "Unknown message type")]))),
     w1) ∧
    map source (errorLogs w1) = ["onMessage.router"].
Proof.
  intros sender.
  destruct (onMessage_unknown_type "chrome-extension://abc/"
              [("type", VStr "lookupMeaning")] sender world_init eq_refl)
    as [older Heq].
  { repeat constructor. }
  eexists. split; [exact Heq|].
  vm_compute in Heq. injection Heq as Heq. by rewrite <- Heq.
Defined.

(** X20: the router itself changes nothing but the error log, to which it
    adds at most one record; a 'getStatus' message from a trusted sender is
    answered at once with the current error log, the number of entries of
    the session cache and the length of the pacer's queue, and changes
    nothing at all. *)
Theorem onMessage_frame
    (origin : string) (request sender : JsVal) (w : World) :
  let w' := snd (onMessage origin request sender w) in
  (∃ logs, w' = with_errorLogs logs w ∧
           (logs = errorLogs w ∨ ∃ record, logs = record :: errorLogs w ∨
              logs = removelast (record :: errorLogs w))) ∧
  (untrusted origin sender = Return false →
   ∀ rfields, request = VObj rfields → obj_get "type" rfields = VStr "getStatus" →
     onMessage origin request sender w =
     (Return (Answered (RespStatus
        (mkStatus (errorLogs w) (Z.of_nat (length (cache (sessionCache w))))
           (length (queue (limiter (pacer (sys w)))))))), w)).
Proof.
  intros w'. subst w'. split.
  - assert (Hsame : w = with_errorLogs (errorLogs w) w) by by destruct w.
    assert (Hlog : ∀ src d,
              logError (clock w) src d (errorLogs w) = errorLogs w ∨
              ∃ record, logError (clock w) src d (errorLogs w) = record :: errorLogs w ∨
                logError (clock w) src d (errorLogs w) = removelast (record :: errorLogs w)).
    { intros src d. right. exists (mkErrorRecord (clock w) src (processedDetails d)).
      unfold logError. destruct (maxLogSize <? _)%nat; [by right | by left]. }
    unfold onMessage.
    destruct (untrusted origin sender) as [[]|]; simpl;
      try (eexists; split; [exact Hsame | by left]).
    { eexists. split; [reflexivity | apply Hlog]. }
    destruct (get_prop request "type") as [type|]; simpl;
      try (eexists; split; [exact Hsame | by left]).
    destruct (get_prop request "payload") as [payload|]; simpl;
      try (eexists; split; [exact Hsame | by left]).
    destruct (is_type "lookup" type).
    { destruct (get_prop payload "text"); simpl;
        eexists; (split; [exact Hsame | by left]). }
    destruct (is_type "rewriteTone" type).
    { destruct (get_prop payload "text"); simpl;
        [destruct (get_prop payload "tone"); simpl|];
        eexists; (split; [exact Hsame | by left]). }
    destruct (is_type "getStatus" type); [eexists; split; [exact Hsame | by left]|].
    destruct (is_type "telemetry" type); [eexists; split; [exact Hsame | by left]|].
    eexists. split; [reflexivity | apply Hlog].
  - intros Htrusted rfields -> Htype. unfold onMessage. rewrite Htrusted.
    cbn [get_prop mbind Completion_bind]. rewrite Htype. done.
Qed.

Lemma onMessage_frame_witness :
  let sender := VObj [("url", VStr "chrome-extension://abc/popup.html")] in
  onMessage "chrome-extension://abc/" (VObj [("type", VStr "getStatus")])
    sender world_init =
  (Return (Answered (RespStatus (mkStatus [] 0 0))), world_init).
Proof.
  intros sender.
  destruct (onMessage_frame "chrome-extension://abc/"
              (VObj [("type", VStr "getStatus")]) sender world_init) as [_ H].
  exact (H eq_refl _ eq_refl eq_refl).
Defined.

Section StatusBounds.

Variable B : JsBuiltins.

Lemma persistentCache_get_logs key now st logs :
  (length logs <= maxLogSize)%nat →
  (length (snd (persistentCache_get key now st logs)) <= maxLogSize)%nat.
Proof.
  intros Hlen. unfold persistentCache_get.
  destruct (storage_get key st) as [[item|]|]; simpl; try done.
  - destruct (now >? expires item)%Z; simpl; [|done].
    destruct (storage_remove key st); simpl; [done|]. by apply logError_length.
  - by apply logError_length.
Qed.

Lemma persistentCache_set_logs T key v now st logs :
  (length logs <= maxLogSize)%nat →
  (length (snd (persistentCache_set T key v now st logs)) <= maxLogSize)%nat.
Proof.
  intros Hlen. unfold persistentCache_set.
  destruct (storage_set _ _ st); simpl; [done|]. by apply logError_length.
Qed.

Lemma LRU_get_bounded key c :
  NoDup (JsMap.keys (cache c)) →
  (JsMap.size (cache c) <= Z.max (maxSize c) 1)%Z →
  let c' := snd (LRU.get key c) in
  maxSize c' = maxSize c ∧ NoDup (JsMap.keys (cache c')) ∧
  (JsMap.size (cache c') <= Z.max (maxSize c') 1)%Z.
Proof.
  intros Hnd Hsz c'. destruct (LRU_get_NoDup key c Hnd) as (Hnd' & Hsz' & Hmax').
  subst c'. rewrite Hmax', Hsz'. done.
Qed.

Lemma LRU_set_bounded key v c :
  NoDup (JsMap.keys (cache c)) →
  (JsMap.size (cache c) <= Z.max (maxSize c) 1)%Z →
  let c' := LRU.set key v c in
  maxSize c' = maxSize c ∧ NoDup (JsMap.keys (cache c')) ∧
  (JsMap.size (cache c') <= Z.max (maxSize c') 1)%Z.
Proof.
  intros Hnd Hsz c'. destruct (LRU_set_NoDup key v c Hnd) as (Hnd' & Hsz' & Hmax').
  subst c'. rewrite Hmax'. split_and!; [done..|]. lia.
Qed.

Lemma lookupMeaning_bounded text w :
  status_bounded w →
  status_bounded (snd (lookupMeaning B text w)) ∧
  maxSize (sessionCache (snd (lookupMeaning B text w))) = maxSize (sessionCache w).
Proof.
  intros (Hlog & Hnd & Hsz). unfold lookupMeaning, status_bounded.
  destruct (LRU_get_bounded (cacheKey_of B text) _ Hnd Hsz) as (Hm1 & Hnd1 & Hsz1).
  pose proof (persistentCache_get_logs (cacheKey_of B text) (clock w) (storage w)
                _ Hlog) as Hlog1.
  destruct (LRU.get _ _) as [hit1 session1]. simpl in *.
  destruct (truthy hit1); simpl; [by repeat split|].
  destruct (persistentCache_get _ _ _ _) as [[hit2 storage1] logs1]. simpl in *.
  destruct (truthy hit2); simpl; [|by repeat split].
  destruct (LRU_set_bounded (cacheKey_of B text) hit2 _ Hnd1 Hsz1) as (Hm2 & Hnd2 & Hsz2).
  split; [by repeat split | congruence].
Qed.

Lemma finishRequest_bounded request outcome w :
  status_bounded w →
  status_bounded (finishRequest B request outcome w) ∧
  maxSize (sessionCache (finishRequest B request outcome w)) = maxSize (sessionCache w).
Proof.
  intros (Hlog & Hnd & Hsz). unfold finishRequest, status_bounded.
  destruct (primary_attempt B outcome) as [responseData|e]; simpl.
  - destruct (truthy responseData); simpl; [|done].
    pose proof (persistentCache_set_logs (cacheTTL (config w)) (req_cacheKey request)
                  responseData (clock w) (storage w) _ Hlog) as Hlog1.
    destruct (persistentCache_set _ _ _ _ _ _) as [storage1 logs1]. simpl in *.
    destruct (LRU_set_bounded (req_cacheKey request) responseData _ Hnd Hsz)
      as (Hm & Hnd' & Hsz'). done.
  - destruct (get_prop e "message") as [message|]; simpl; [|done].
    split; [|done]. split; [|done]. by apply logError_length.
Qed.

Lemma rewriteTone_bounded text tone w :
  status_bounded w → status_bounded (snd (rewriteTone B text tone w)).
Proof.
  intros (Hlog & Hnd & Hsz). unfold rewriteTone, status_bounded.
  destruct (negb _); simpl; [|done]. split; [|done]. by apply logError_length.
Qed.

Lemma finishRewrite_bounded text outcome w result w1 :
  status_bounded w → finishRewrite B text outcome w = Some (result, w1) →
  status_bounded w1.
Proof.
  intros (Hlog & Hnd & Hsz). unfold finishRewrite, status_bounded.
  destruct (rewrite_attempt B outcome) as [r|e]; [by intros [= <- <-]|].
  destruct (get_prop e "message"); [|done]. intros [= <- <-]. simpl.
  split; [|done]. by apply logError_length.
Qed.

Lemma onMessage_bounded origin request sender w :
  status_bounded w → status_bounded (snd (onMessage origin request sender w)).
Proof.
  intros (Hlog & Hnd & Hsz).
  assert (Hb : ∀ src d, status_bounded
            (with_errorLogs (logError (clock w) src d (errorLogs w)) w)).
  { intros src d. split; [|done]. by apply logError_length. }
  assert (Hw : status_bounded w) by done.
  unfold onMessage.
  destruct (untrusted origin sender) as [[]|]; simpl; [apply Hb| |done].
  destruct (get_prop request "type") as [type|]; simpl; [|done].
  destruct (get_prop request "payload") as [payload|]; simpl; [|done].
  destruct (is_type "lookup" type); [by destruct (get_prop payload "text")|].
  destruct (is_type "rewriteTone" type).
  { destruct (get_prop payload "text"); simpl; [|done].
    by destruct (get_prop payload "tone"). }
  destruct (is_type "getStatus" type); [done|].
  destruct (is_type "telemetry" type); [done | apply Hb].
Qed.

Lemma world_step_bounded w e w' :
  status_bounded w → world_step B w e = Some w' →
  status_bounded w' ∧ maxSize (sessionCache w') = maxSize (sessionCache w).
Proof.
  intros Hb. destruct e as [t text|t id|t request outcome|t]; simpl.
  - destruct (pacer_step (sys w) (EvIdle t)) as [s|]; [|done]. simpl.
    intros [= <-]. by apply (lookupMeaning_bounded text (with_sys s w)).
  - destruct (pacer_step (sys w) (EvTimer t id)) as [s|]; [|done]. simpl.
    destruct (fst (rateLimiter.onInterval id (pacer (sys w)))); by intros [= <-].
  - destruct (pacer_step (sys w) (EvSettle t request)) as [s|]; [|done]. simpl.
    intros [= <-]. by apply (finishRequest_bounded request outcome (with_sys s w)).
  - destruct (pacer_step (sys w) (EvIdle t)) as [s|]; [|done]. simpl.
    by intros [= <-].
Qed.

Lemma world_run_bounded evs w w' :
  status_bounded w → world_run B evs w = Some w' →
  status_bounded w' ∧ maxSize (sessionCache w') = maxSize (sessionCache w).
Proof.
  revert w. induction evs as [|e evs IH]; intros w Hb; simpl.
  - by intros [= <-].
  - destruct (world_step B w e) as [w1|] eqn:Hstep; [|done].
    destruct (world_step_bounded _ _ _ Hb Hstep) as [Hb1 Hm1].
    intros Hrun. destruct (IH _ Hb1 Hrun) as [Hb2 Hm2]. split; [done | congruence].
Qed.

Lemma service_step_bounded w e w' :
  status_bounded w →
  pacer_inv rateLimiter.default_requestsPerSecond (sys w) →
  service_step B w e = Some w' →
  status_bounded w' ∧ maxSize (sessionCache w') = maxSize (sessionCache w) ∧
  pacer_inv rateLimiter.default_requestsPerSecond (sys w').
Proof.
  intros Hb Hp. destruct e as [e|t text tone|t text outcome|t origin request sender];
    simpl.
  - intros Hstep. destruct (world_step_bounded _ _ _ Hb Hstep) as [Hb' Hm].
    destruct (world_step_pacer B _ _ _ Hstep) as [pe Hpe].
    split_and!; [done | done | by eapply pacer_inv_step].
  - destruct (pacer_step (sys w) (EvIdle t)) as [s|] eqn:Hidle; [|done]. simpl.
    intros [= <-].
    pose proof (pacer_inv_step _ _ _ _ Hp Hidle) as Hp'.
    pose proof (rewriteTone_bounded text tone (with_sys s w) Hb) as Hb'.
    split; [done|]. unfold rewriteTone. by destruct (negb _).
  - destruct (pacer_step (sys w) (EvIdle t)) as [s|] eqn:Hidle; [|done]. simpl.
    pose proof (pacer_inv_step _ _ _ _ Hp Hidle) as Hp'.
    destruct (finishRewrite B text outcome (with_sys s w)) as [[result w1]|] eqn:Hfin;
      intros [= <-]; [|done].
    pose proof (finishRewrite_bounded _ _ (with_sys s w) _ _ Hb Hfin) as Hb'.
    split; [done|]. unfold finishRewrite in Hfin.
    destruct (rewrite_attempt B outcome) as [r|err]; [by injection Hfin as _ <-|].
    destruct (get_prop err "message"); [|done]. by injection Hfin as _ <-.
  - destruct (pacer_step (sys w) (EvIdle t)) as [s|] eqn:Hidle; [|done]. simpl.
    intros [= <-].
    pose proof (pacer_inv_step _ _ _ _ Hp Hidle) as Hp'.
    pose proof (onMessage_bounded origin request sender (with_sys s w) Hb) as Hb'.
    split; [done|]. unfold onMessage.
    destruct (untrusted origin sender) as [[]|]; simpl; [done| |done].
    destruct (get_prop request "type") as [type|]; simpl; [|done].
    destruct (get_prop request "payload") as [payload|]; simpl; [|done].
    destruct (is_type "lookup" type); [by destruct (get_prop payload "text")|].
    destruct (is_type "rewriteTone" type).
    { destruct (get_prop payload "text"); simpl; [|done].
      by destruct (get_prop payload "tone"). }
    destruct (is_type "getStatus" type); [done|].
    by destruct (is_type "telemetry" type).
Qed.

Lemma service_run_bounded evs w w' :
  status_bounded w →
  pacer_inv rateLimiter.default_requestsPerSecond (sys w) →
  service_run B evs w = Some w' →
  status_bounded w' ∧ maxSize (sessionCache w') = maxSize (sessionCache w) ∧
  pacer_inv rateLimiter.default_requestsPerSecond (sys w').
Proof.
  revert w. induction evs as [|e evs IH]; intros w Hb Hp; simpl.
  - by intros [= <-].
  - destruct (service_step B w e) as [w1|] eqn:Hstep; [|done].
    destruct (service_step_bounded _ _ _ Hb Hp Hstep) as (Hb1 & Hm1 & Hp1).
    intros Hrun. destruct (IH _ Hb1 Hp1 Hrun) as (Hb2 & Hm2 & Hp2).
    split_and!; [done | congruence | done].
Qed.

End StatusBounds.

(** X21: every handler keeps the bounds of the status report: if the error
    log holds at most 100 records and the session cache is within its
    capacity, the same holds after [lookupMeaning], after the queued
    closure's second part, after both parts of [rewriteTone] and after the
    message router.  So in every run of the handlers of a service worker
    that started with any configuration and any store (lookups, timer
    callbacks, outcomes of fetches, calls of [rewriteTone] and their
    outcomes, messages to the router), the status reports at most 100
    errors and a cache size between 0 and 50, and the reported queue length
    is the number of lookups enqueued minus the number of requests
    started. *)
Theorem status_stays_bounded (B : JsBuiltins) :
  (∀ w, status_bounded w →
     (∀ text, status_bounded (snd (lookupMeaning B text w))) ∧
     (∀ request outcome, status_bounded (finishRequest B request outcome w)) ∧
     (∀ text tone, status_bounded (snd (rewriteTone B text tone w))) ∧
     (∀ text outcome result w1,
        finishRewrite B text outcome w = Some (result, w1) → status_bounded w1) ∧
     (∀ origin request sender,
        status_bounded (snd (onMessage origin request sender w)))) ∧
  (∀ cfg st evs w, service_run B evs (service_init cfg st) = Some w →
     let s := getStatus w in
     (length (status_errorLogs s) <= 100)%nat ∧
     (0 <= status_cacheSize s <= 50)%Z ∧
     (status_rateLimiterQueue s + length (started (sys w)))%nat =
       length (enqueued (sys w))).
Proof.
  split.
  - intros w Hb. split_and!.
    + intros text. by apply lookupMeaning_bounded.
    + intros request outcome. by apply finishRequest_bounded.
    + intros text tone. by apply rewriteTone_bounded.
    + intros text outcome result w1. by apply finishRewrite_bounded.
    + intros origin request sender. by apply onMessage_bounded.
  - intros cfg st evs w Hrun s.
    assert (Hinit : status_bounded (service_init cfg st)).
    { split_and!; [simpl; lia | constructor | unfold JsMap.size; simpl; lia]. }
    destruct (service_run_bounded B evs _ _ Hinit (pacer_inv_init _) Hrun)
      as ((Hlog & _ & Hsz) & Hmax & Hp).
    destruct Hp as [_ Hfifo _ _].
    subst s. unfold getStatus. simpl. split_and!.
    + exact Hlog.
    + unfold JsMap.size. lia.
    + rewrite Hmax in Hsz. simpl in Hsz. unfold LRU.default_maxSize in Hsz. lia.
    + rewrite <- Hfifo, length_app, length_map. lia.
Qed.

(** A service worker with a Gemini key: two lookups, a rewrite in between
    and one timer callback.  One request is still queued and one has
    started; two fetches have been made, one of them by the rewrite. *)
Lemma status_stays_bounded_witness :
  let cfg := mkConfig (dictionary default_config) (toneRewrite default_config)
               (VStr "k") (cacheTTL default_config) in
  ∃ w, service_run sample_builtins
         [SWorld (WLookup 0 "a"); SRewrite 1 "some text" "Formal";
          SWorld (WLookup 2 "b"); SWorld (WTimer 200 0%nat)]
         (service_init cfg (mkStorage ∅ None None None)) = Some w ∧
       status_rateLimiterQueue (getStatus w) = 1%nat ∧
       length (fetches w) = 2%nat ∧
       (status_rateLimiterQueue (getStatus w) + length (started (sys w)))%nat =
         length (enqueued (sys w)).
Proof.
  intros cfg. eexists. split; [vm_compute; reflexivity|]. split; [reflexivity|].
  split; [reflexivity|].
  destruct (status_stays_bounded sample_builtins) as [_ H].
  match goal with
  | |- (_ (getStatus ?w) + _)%nat = _ =>
      assert (Hrun : service_run sample_builtins
                [SWorld (WLookup 0 "a"); SRewrite 1 "some text" "Formal";
                 SWorld (WLookup 2 "b"); SWorld (WTimer 200 0%nat)]
                (service_init cfg (mkStorage ∅ None None None)) = Some w)
        by (vm_compute; reflexivity);
      destruct (H cfg (mkStorage ∅ None None None) _ w Hrun) as (_ & _ & Hq)
  end.
  exact Hq.
Defined.

(** ** Utility functions *)

Section HtmlFacts.
Import Stdlib.Strings.Ascii.

Lemma string_forallb_app p (s1 s2 : string) :
  string_forallb p (s1 ++ s2)%string = string_forallb p s1 && string_forallb p s2.
Proof.
  induction s1 as [|c s1 IH]; simpl; [done|]. by rewrite IH, andb_assoc.
Qed.

Lemma escape_char_inert (c : ascii) :
  string_forallb (fun c' => negb (markup_char c')) (escape_char c) = true.
Proof.
  unfold escape_char.
  destruct (Ascii.eqb c "&") eqn:E1; [done|].
  destruct (Ascii.eqb c "<") eqn:E2; [done|].
  destruct (Ascii.eqb c ">") eqn:E3; [done|].
  destruct (Ascii.eqb c (ascii_of_nat 34)) eqn:E4; [done|].
  destruct (Ascii.eqb c "'") eqn:E5; [done|].
  simpl. unfold markup_char. by rewrite E2, E3, E4, E5.
Qed.

Lemma escape_char_cons (c : ascii) :
  (c <> "&"%char ∧ escape_char c = String c "")
  ∨ ∃ tail, escape_char c = String "&" tail
            ∧ tail ∈ ["amp;"; "lt;"; "gt;"; "quot;"; "#39;"].
Proof.
  unfold escape_char.
  destruct (Ascii.eqb c "&") eqn:E1; [right; eexists; split; [done|set_solver]|].
  destruct (Ascii.eqb c "<") eqn:E2; [right; eexists; split; [done|set_solver]|].
  destruct (Ascii.eqb c ">") eqn:E3; [right; eexists; split; [done|set_solver]|].
  destruct (Ascii.eqb c (ascii_of_nat 34)) eqn:E4;
    [right; eexists; split; [done|set_solver]|].
  destruct (Ascii.eqb c "'") eqn:E5; [right; eexists; split; [done|set_solver]|].
  left. split; [|done]. by apply Ascii.eqb_neq.
Qed.

(** Two characters whose replacements begin two equal strings are the same
    character, and the rests are equal. *)
Lemma escape_char_prefix_free (c1 c2 : ascii) (r1 r2 : string) :
  (escape_char c1 ++ r1)%string = (escape_char c2 ++ r2)%string → c1 = c2 ∧ r1 = r2.
Proof.
  unfold escape_char.
  destruct (Ascii.eqb c1 "&") eqn:A1; [apply Ascii.eqb_eq in A1|apply Ascii.eqb_neq in A1];
  (destruct (Ascii.eqb c1 "<") eqn:A2; [apply Ascii.eqb_eq in A2|apply Ascii.eqb_neq in A2]);
  (destruct (Ascii.eqb c1 ">") eqn:A3; [apply Ascii.eqb_eq in A3|apply Ascii.eqb_neq in A3]);
  (destruct (Ascii.eqb c1 (ascii_of_nat 34)) eqn:A4;
     [apply Ascii.eqb_eq in A4|apply Ascii.eqb_neq in A4]);
  (destruct (Ascii.eqb c1 "'") eqn:A5; [apply Ascii.eqb_eq in A5|apply Ascii.eqb_neq in A5]);
  try congruence;
  (destruct (Ascii.eqb c2 "&") eqn:B1; [apply Ascii.eqb_eq in B1|apply Ascii.eqb_neq in B1]);
  (destruct (Ascii.eqb c2 "<") eqn:B2; [apply Ascii.eqb_eq in B2|apply Ascii.eqb_neq in B2]);
  (destruct (Ascii.eqb c2 ">") eqn:B3; [apply Ascii.eqb_eq in B3|apply Ascii.eqb_neq in B3]);
  (destruct (Ascii.eqb c2 (ascii_of_nat 34)) eqn:B4;
     [apply Ascii.eqb_eq in B4|apply Ascii.eqb_neq in B4]);
  (destruct (Ascii.eqb c2 "'") eqn:B5; [apply Ascii.eqb_eq in B5|apply Ascii.eqb_neq in B5]);
  try congruence;
  simpl; intros H; injection H; intros; subst; try done; try congruence.
Qed.

Lemma escape_html_inj (s1 s2 : string) :
  escape_html s1 = escape_html s2 → s1 = s2.
Proof.
  revert s2. induction s1 as [|c1 s1 IH]; intros [|c2 s2]; simpl; [done| | |].
  - intros H. destruct (escape_char_cons c2) as [[_ E]|(tail & E & _)];
      rewrite E in H; discriminate.
  - intros H. destruct (escape_char_cons c1) as [[_ E]|(tail & E & _)];
      rewrite E in H; discriminate.
  - intros H. apply escape_char_prefix_free in H as [-> H]. by rewrite (IH _ H).
Qed.

(** X22: whatever it is given, [safeHtml] returns text that holds none of
    the characters [<], [>], the double quote and the single quote. *)
Theorem safeHtml_leaves_no_markup (str : JsVal) :
  string_forallb (fun c => negb (markup_char c)) (safeHtml str) = true.
Proof.
  destruct str as [| | | |s| | |]; try done. simpl.
  induction s as [|c s IH]; simpl; [done|].
  by rewrite string_forallb_app, escape_char_inert, IH.
Qed.

(** X23: escaping loses nothing: two different strings have different
    escaped texts. *)
Theorem safeHtml_is_injective (s1 s2 : string) :
  s1 <> s2 → safeHtml (VStr s1) <> safeHtml (VStr s2).
Proof.
  simpl. intros Hne Heq. by apply Hne, escape_html_inj.
Qed.

(** The text [<] and the text of its entity. *)
Lemma safeHtml_is_injective_witness :
  safeHtml (VStr "<") = "&lt;" ∧ safeHtml (VStr "&lt;") = "&amp;lt;" ∧
  safeHtml (VStr "<") <> safeHtml (VStr "&lt;").
Proof.
  split; [reflexivity|]. split; [reflexivity|].
  apply (safeHtml_is_injective "<" "&lt;"). discriminate.
Defined.

End HtmlFacts.

(** X24: [formatSuggestions] is the normalizer without the word lists:
    whenever [api.sanitizeDictionaryResponse] returns for a response,
    [formatSuggestions] returns for it too; it gives [null] where the
    normalizer gives [null], and otherwise the same [word] and [meaning],
    with the empty string in place of a falsy [phonetic]. *)
Theorem formatSuggestions_agrees_with_normalizer (data record : JsVal) :
  sanitizeDictionaryResponse data = Return record →
  (record = VNull ∧ formatSuggestions data = Return VNull)
  ∨ ∃ word phonetic meaning syn ant,
      record = VObj [("word", word); ("phonetic", phonetic); ("meaning", meaning);
                     ("synonyms", syn); ("antonyms", ant)] ∧
      formatSuggestions data =
        Return (VObj [("word", word);
                      ("phonetic", if truthy phonetic then phonetic else VStr "");
                      ("meaning", meaning)]).
Proof.
  unfold sanitizeDictionaryResponse, formatSuggestions.
  destruct data as [| | | | |[|firstResult rest]| |]; try (intros [= <-]; by left).
  destruct (first_definition firstResult) as [meaning|]; simpl; [|done].
  destruct (truthy meaning) eqn:Hm; simpl; [|intros [= <-]; by left].
  destruct (get_prop firstResult "meanings") as [meanings|]; simpl; [|done].
  destruct (collect_meanings meanings) as [[syn ant]|]; simpl; [|done].
  destruct (get_prop firstResult "word") as [word|]; simpl; [|done].
  destruct (phonetic_of firstResult) as [phonetic|]; simpl; [|done].
  intros [= <-]. right. by exists word, phonetic, meaning, (VArr syn), (VArr ant).
Qed.

(** A response without phonetics: the normalizer leaves [phonetic]
    undefined, [formatSuggestions] makes it the empty string. *)
Lemma formatSuggestions_agrees_with_normalizer_witness :
  let data :=
    VArr [VObj [("word", VStr "hello");
                ("meanings",
                 VArr [VObj [("definitions",
                              VArr [VObj [("definition", VStr "A greeting")]])]])]] in
  sanitizeDictionaryResponse data =
    Return (VObj [("word", VStr "hello"); ("phonetic", VUndefined);
                  ("meaning", VStr "A greeting");
                  ("synonyms", VArr []); ("antonyms", VArr [])]) ∧
  formatSuggestions data =
    Return (VObj [("word", VStr "hello"); ("phonetic", VStr "");
                  ("meaning", VStr "A greeting")]).
Proof.
  intros data. split; [reflexivity|].
  destruct (formatSuggestions_agrees_with_normalizer data _ eq_refl)
    as [[Hnull _]|(word & ph & m & syn & ant & Hrec & Hfmt)]; [discriminate|].
  injection Hrec as <- <- <- _ _. exact Hfmt.
Defined.

(** X25: a stored value is read back until its time to live has passed:
    [get] at a clock reading up to [expires] returns the value given to
    [set] and leaves the cache alone; at any later reading it returns
    [null] and the entry is gone.  An omitted [ttl] is the default given to
    the constructor. *)
Theorem TtlCache_set_then_get (key : string) (v : JsVal) (ttl : option Z)
    (t0 now : Z) (c : TtlCache) :
  let c1 := Ttl.set key v ttl t0 c in
  let expires := (t0 + default (defaultTtl c) ttl)%Z in
  Ttl.get key now c1 =
    if bool_decide (now ≤ expires)%Z then (v, c1)
    else (VNull, mkTtlCache (delete key (ttl_cache c)) (defaultTtl c)).
Proof.
  intros c1 expires. unfold Ttl.get, c1, Ttl.set. simpl.
  rewrite lookup_insert_eq. simpl. fold expires.
  destruct (Z.gtb_spec now expires) as [Hgt|Hle].
  - rewrite bool_decide_eq_false_2 by lia. by rewrite delete_insert_eq.
  - by rewrite bool_decide_eq_true_2 by lia.
Qed.

(** X26: [has] answers [false] for a key whose stored value is [null],
    however fresh the entry is, although the cache holds the entry. *)
Theorem TtlCache_has_misses_null (key : string) (ttl : option Z) (t0 now : Z)
    (c : TtlCache) :
  let c1 := Ttl.set key VNull ttl t0 c in
  fst (Ttl.has key now c1) = false ∧ is_Some (ttl_cache c1 !! key).
Proof.
  intros c1. split.
  - unfold Ttl.has, Ttl.get, c1, Ttl.set. simpl. rewrite lookup_insert_eq. simpl.
    by destruct (_ >? _)%Z.
  - unfold c1, Ttl.set. simpl. rewrite lookup_insert_eq. by eexists.
Qed.

(** ** Debounce and throttle *)

Lemma events_run_app {S E : Type} (step : S → E → option S) (l1 l2 : list E) (s : S) :
  events_run step (l1 ++ l2) s =
    match events_run step l1 s with
    | Some s1 => events_run step l2 s1
    | None => None
    end.
Proof.
  revert s. induction l1 as [|e l1 IH]; intros s; simpl; [done|].
  destruct (step s e); [apply IH|done].
Qed.


Section Debounce.

Context {A : Type}.
Implicit Types (s : Q * Debounced A) (e : CallEvent A).




End Debounce.


Section Throttle.

Context {A : Type}.
Variable fn : Q → A → Completion unit.
Variable ms : Q.
Implicit Types (s : Q * Throttled A) (st : Throttled A) (e : CallEvent A).

Lemma throttle_inv_lastArgs (clock : Q) st (args : option A) :
  throttle_inv ms (clock, st) →
  throttle_inv ms (clock, mkThrottled (inThrottle st) args (throttle_timeouts st)
                            (throttle_calls st)).
Proof. done. Qed.

Lemma throttle_inv_wrapper (clock t : Q) (args : A) st :
  throttle_inv ms (clock, st) → (clock <= t)%Q →
  throttle_inv ms (t, snd (throttle.wrapper fn ms t args st)).
Proof.
  destruct st as [inT la h calls]. unfold throttle_inv, throttle.wrapper. simpl.
  intros [Hsp Hinv] Hle. destruct inT; simpl.
  - split; [done|]. destruct (last (map fst calls)) as [tl|].
    + destruct Hinv as [Hinv|[? _]]; [by left|done].
    + by destruct Hinv.
  - assert (Hnew : spaced ms (map fst (calls ++ [(t, args)])) ∧
                   pending h = ∅).
    { rewrite map_app. simpl. destruct (last (map fst calls)) as [tl|] eqn:Hlast.
      - destruct Hinv as [[? _]|(_ & Hp & Htl)]; [done|]. split; [|done].
        apply spaced_snoc_last; [done|]. intros tl' Htl'.
        rewrite Hlast in Htl'. injection Htl' as <-. lra.
      - destruct Hinv as [_ Hp]. split; [|done].
        apply spaced_snoc_last; [done|]. intros tl' Htl'.
        by rewrite Hlast in Htl'. }
    destruct Hnew as [Hsp' Hp].
    assert (Hlast : last (map fst (calls ++ [(t, args)])) = Some t).
    { rewrite map_app. simpl. apply last_snoc. }
    destruct (fn t args) as [[]|err]; cbn [snd throttle_calls inThrottle
      throttle_timeouts pending]; (split; [done|]); rewrite Hlast; left;
      (split; [done|]).
    + right. exists (next_timeout_id h). by rewrite Hp, insert_empty.
    + by left.
Qed.

Lemma throttle_inv_timeout (clock t : Q) (id : nat) st (h : Timeouts unit) (u : unit) :
  throttle_inv ms (clock, st) →
  take_timeout t id (throttle_timeouts st) = Some (u, h) →
  throttle_inv ms (t, mkThrottled false (lastArgs st) h (throttle_calls st)).
Proof.
  destruct st as [inT la h0 calls]. unfold throttle_inv, take_timeout. simpl.
  intros [Hsp Hinv]. destruct (pending h0 !! id) as [[due_at []]|] eqn:Hid; [|done].
  destruct (Qle_bool due_at t) eqn:Hdue; [|done]. apply Qle_bool_iff in Hdue.
  intros [= <- <-]. simpl. split; [done|].
  destruct (last (map fst calls)) as [tl|].
  - destruct Hinv as [[_ [Hp|[id0 Hp]]]|(_ & Hp & _)];
      rewrite Hp in Hid; try by rewrite lookup_empty in Hid.
    apply lookup_singleton_Some in Hid as [<- [= <-]].
    right. split; [done|]. rewrite Hp. by rewrite delete_singleton_eq.
  - destruct Hinv as [_ Hp]. rewrite Hp in Hid. by rewrite lookup_empty in Hid.
Qed.

Lemma throttle_inv_step s e s' :
  throttle_inv ms s → throttle_step fn ms s e = Some s' → throttle_inv ms s'.
Proof.
  destruct s as [clock st]. unfold throttle_step. simpl.
  destruct (Qle_bool clock (call_time e)) eqn:Hle; [|done].
  apply Qle_bool_iff in Hle. simpl. intros Hinv.
  destruct e as [t args|t id]; simpl in *.
  - intros [= <-]. by eapply throttle_inv_wrapper.
  - destruct (take_timeout t id (throttle_timeouts st)) as [[u h]|] eqn:Htake; [|done].
    intros [= <-].
    pose proof (throttle_inv_timeout _ _ _ _ _ _ Hinv Htake) as Hinv1.
    unfold throttle.onTimeout. simpl.
    destruct (lastArgs st) as [args|]; [|done].
    pose proof (throttle_inv_wrapper t t args _ Hinv1 (Qle_refl t)) as Hinv2.
    simpl in Hinv2.
    destruct (throttle.wrapper fn ms t args _) as [[[]|err] st2]; simpl in *; [|done].
    by apply throttle_inv_lastArgs.
Qed.

Lemma throttle_inv_run evs s s' :
  throttle_inv ms s → events_run (throttle_step fn ms) evs s = Some s' →
  throttle_inv ms s'.
Proof.
  revert s. induction evs as [|e evs IH]; intros s Hinv; simpl.
  - by intros [= <-].
  - destruct (throttle_step fn ms s e) as [s1|] eqn:Hstep; [|done].
    apply IH. by eapply throttle_inv_step.
Qed.

Lemma throttle_inv_new : throttle_inv ms (0%Q, @throttle.new A).
Proof.
  split; simpl; [|done]. intros i t1 t2 H1. by rewrite lookup_nil in H1.
Qed.

(** Once [inThrottle] is set and no timeout is pending, nothing calls [fn]
    again. *)
Lemma throttle_stuck_step s e s' :
  inThrottle (snd s) = true → pending (throttle_timeouts (snd s)) = ∅ →
  throttle_step fn ms s e = Some s' →
  inThrottle (snd s') = true ∧ pending (throttle_timeouts (snd s')) = ∅ ∧
  throttle_calls (snd s') = throttle_calls (snd s).
Proof.
  destruct s as [clock st]. simpl. intros HinT Hp.
  unfold throttle_step. simpl. destruct (Qle_bool clock (call_time e)); [|done].
  simpl. destruct e as [t args|t id].
  - unfold throttle.wrapper. simpl. rewrite HinT. simpl. by intros [= <-].
  - unfold take_timeout. by rewrite Hp, lookup_empty.
Qed.

Lemma throttle_stuck evs s s' :
  inThrottle (snd s) = true → pending (throttle_timeouts (snd s)) = ∅ →
  events_run (throttle_step fn ms) evs s = Some s' →
  throttle_calls (snd s') = throttle_calls (snd s).
Proof.
  revert s. induction evs as [|e evs IH]; intros s HinT Hp; simpl.
  - by intros [= <-].
  - destruct (throttle_step fn ms s e) as [s1|] eqn:Hstep; [|done].
    destruct (throttle_stuck_step _ _ _ HinT Hp Hstep) as (HinT1 & Hp1 & <-).
    by apply IH.
Qed.


(** X29: a single call is answered twice.  The call sets [lastArgs], so
    when the timeout runs it finds arguments waiting and calls [fn] with
    them again, although nothing called the throttled function in
    between. *)
Theorem throttle_lone_call_runs_twice (t t' : Q) (args : A) :
  (0 <= t)%Q → (0 <= ms)%Q → (t + ms <= t')%Q →
  fn t args = Return tt →
  ∃ s, events_run (throttle_step fn ms) [EvCall t args; EvTimeout t' 0]
         (0%Q, throttle.new) = Some s ∧
       throttle_calls (snd s) = [(t, args); (t', args)].
Proof.
  intros Ht Hms Hdue Hfn.
  assert (Htt : Qle_bool t t' = true) by (apply Qle_bool_iff; lra).
  apply Qle_bool_iff in Ht, Hdue.
  set (st1 := mkThrottled true (Some args)
                (mkTimeouts (<[0%nat := ((t + ms)%Q, tt)]> ∅) 1) [(t, args)]).
  assert (Hstep1 : throttle_step fn ms (0%Q, throttle.new) (EvCall t args)
                   = Some (t, st1)).
  { unfold throttle_step. cbn [fst snd call_time]. rewrite Ht. cbn [negb].
    unfold throttle.wrapper. cbn [inThrottle throttle.new]. by rewrite Hfn. }
  assert (Hstep2 : ∃ st2, throttle_step fn ms (t, st1) (EvTimeout t' 0)
                          = Some (t', st2) ∧
                          throttle_calls st2 = [(t, args); (t', args)]).
  { unfold throttle_step. cbn [fst snd call_time]. rewrite Htt. cbn [negb].
    unfold take_timeout. cbn [st1 throttle_timeouts pending].
    rewrite lookup_insert_eq, Hdue.
    unfold throttle.onTimeout, throttle.wrapper, setTimeout.
    cbn [st1 lastArgs inThrottle throttle_calls throttle_timeouts snd app].
    destruct (fn t' args) as [[]|err]; cbn [snd throttle_calls]; by eexists. }
  destruct Hstep2 as (st2 & Hstep2 & Hcalls).
  exists (t', st2). cbn [events_run]. by rewrite Hstep1, Hstep2.
Qed.

(** X30: a throttled function does not recover from an exception: when a
    call goes through to [fn] and [fn] throws, [inThrottle] stays set and no
    timeout is there to reset it, so [fn] is never called again. *)
Theorem throttle_stuck_after_exception evs1 evs2 s1 (t : Q) (args : A)
    (err : JsVal) s :
  events_run (throttle_step fn ms) evs1 (0%Q, throttle.new) = Some s1 →
  inThrottle (snd s1) = false →
  fn t args = Throw err →
  events_run (throttle_step fn ms) (evs1 ++ EvCall t args :: evs2)
    (0%Q, throttle.new) = Some s →
  throttle_calls (snd s) = throttle_calls (snd s1) ++ [(t, args)].
Proof.
  intros Hrun1 HinT Hfn. rewrite events_run_app, Hrun1.
  pose proof (throttle_inv_run _ _ _ throttle_inv_new Hrun1) as [_ Hinv].
  destruct s1 as [clock st]. simpl in *.
  assert (Hp : pending (throttle_timeouts st) = ∅).
  { destruct (last _) as [tl|].
    - destruct Hinv as [[? _]|(_ & Hp & _)]; [congruence|done].
    - by destruct Hinv. }
  intros Hrun. cbn [events_run] in Hrun.
  destruct (throttle_step fn ms (clock, st) (EvCall t args)) as [s2|] eqn:Hstep;
    [|done].
  unfold throttle_step in Hstep. cbn [fst snd call_time] in Hstep.
  destruct (Qle_bool clock t); [|done]. cbn [negb] in Hstep.
  unfold throttle.wrapper in Hstep.
  cbn [inThrottle lastArgs throttle_timeouts throttle_calls] in Hstep.
  rewrite HinT, Hfn in Hstep. cbn [snd] in Hstep. injection Hstep as <-.
  by apply throttle_stuck in Hrun.
Qed.

End Throttle.


Lemma throttle_lone_call_runs_twice_witness :
  let fn := fun (_ : Q) (_ : string) => Return tt in
  ∃ s, events_run (throttle_step fn 100) [EvCall 0 "a"; EvTimeout 100 0]
         (0%Q, throttle.new) = Some s ∧
       throttle_calls (snd s) = [(0%Q, "a"); (100%Q, "a")].
Proof.
  intros fn.
  apply (throttle_lone_call_runs_twice fn 100 0 100 "a"); [lra | lra | lra | reflexivity].
Defined.

(** [fn] throws for the argument "bad"; the calls made 500 and 1000 ms
    later do not reach it. *)
Lemma throttle_stuck_after_exception_witness :
  let fn := fun (_ : Q) (a : string) =>
              if String.eqb a "bad" then Throw (VStr "boom") else Return tt in
  let evs2 := [EvCall 500 "ok"; EvCall 1000 "ok"] in
  ∃ s, events_run (throttle_step fn 100) (EvCall 5 "bad" :: evs2)
         (0%Q, throttle.new) = Some s ∧
       throttle_calls (snd s) = [(5%Q, "bad")].
Proof.
  intros fn evs2. eexists. split; [vm_compute; reflexivity|].
  apply (throttle_stuck_after_exception fn 100 [] evs2 (0%Q, throttle.new) 5 "bad"
           (VStr "boom")); reflexivity.
Defined.
